(** * The client-side navigation engine of the kit runtime

    A shallow embedding of [create_client] (the client router, the second
    document of [src/packages/adapter-node/package.json]): the closure
    variables of the client and the browser objects it touches form one
    [Store]; every [async function] is a [Task], a tree whose [Await] nodes
    are the places where the JavaScript function is suspended on the
    environment (a dynamic import, a call of a user [load] function, a
    [fetch], the version check, a [tick]).  A task is run by [exec], either
    up to its next suspension or, with a [World] that answers every event,
    to its end; several tasks are interleaved by [resume]. *)

From Stdlib Require Import ZArith Lia Ascii.
From stdpp Require Import base option list gmap strings.

Open Scope string_scope.
Open Scope list_scope.
Open Scope Z_scope.

(** ** JavaScript values *)

(** Identity of a JavaScript object ([===] on objects compares these). *)
Definition Ref := nat.

(** An [Error] object (or any thrown value, after [coalesce_to_error]). *)
Record JsError := { err_ref : Ref; err_message : string }.

(** The [stuff] object handed down a branch. *)
Record Stuff := { stuff_ref : Ref; stuff_fields : gmap string string }.

Record URL := { origin : string; pathname : string; search : string; hash : string }.

Definition href (u : URL) : string :=
  origin u +:+ pathname u +:+ search u +:+ hash u.

Record ScrollPosition := { scroll_x : Z; scroll_y : Z }.

#[global] Instance JsError_eq_dec : EqDecision JsError.
Proof. solve_decision. Defined.
#[global] Instance Stuff_eq_dec : EqDecision Stuff.
Proof. solve_decision. Defined.
#[global] Instance URL_eq_dec : EqDecision URL.
Proof. solve_decision. Defined.
#[global] Instance ScrollPosition_eq_dec : EqDecision ScrollPosition.
Proof. solve_decision. Defined.

(** Truthiness of a possibly absent string: [undefined], [null] and the
    empty string are falsy. *)
Definition truthy (o : option string) : bool :=
  match o with
  | Some s => negb (bool_decide (s = ""))
  | None => false
  end.

(** Truthiness of a possibly absent object. *)
Definition defined {A : Type} (o : option A) : bool :=
  match o with
  | Some _ => true
  | None => false
  end.

(** [a !== b] on two possibly-null objects compared by identity. *)
Definition same_error (a b : option JsError) : bool :=
  match a, b with
  | None, None => true
  | Some x, Some y => bool_decide (err_ref x = err_ref y)
  | _, _ => false
  end.

Definition same_stuff (a b : Stuff) : bool :=
  bool_decide (stuff_ref a = stuff_ref b).

(** ** Data model *)

(** A function [() => import(...)] of the manifest, by identity. *)
Definition LoaderRef := nat.
Definition Component := nat.

(** An imported module: whether it exports [load], its [router] option and
    its default export. *)
Record Module := {
  mod_ref : Ref;
  mod_has_load : bool;
  mod_router : option bool;
  mod_default : Component
}.

Record CacheSpec := { maxage : Z }.

(** What a [load] function returns, before and after [normalize]. *)
Record LoadOutput := {
  lo_status : option Z;
  lo_error : option JsError;
  lo_redirect : option string;
  lo_props : option (gmap string string);
  lo_stuff : option Stuff;
  lo_cache : option CacheSpec;
  lo_dependencies : option (list string)
}.

Record Uses := {
  uses_params : gset string;
  uses_url : bool;
  uses_session : bool;
  uses_stuff : bool;
  uses_dependencies : gset string
}.

Record BranchNode := {
  node_module : Module;
  node_uses : Uses;
  node_loaded : option LoadOutput;
  node_stuff : Stuff
}.

Record NavigationState := {
  st_url : option URL;
  st_params : gmap string string;
  st_branch : list (option BranchNode);
  st_error : option JsError;
  st_stuff : Stuff;
  st_session_id : nat
}.

Record Page := {
  page_error : option JsError;
  page_params : gmap string string;
  page_routeId : option string;
  page_status : option Z;
  page_stuff : Stuff;
  page_url : URL
}.

(** [result.props]: the components, [props_0 .. props_n] and [page]. *)
Record NavProps := {
  components : list Component;
  node_props : list (option (gmap string string));
  props_page : option Page
}.

Record NavigationResult := {
  res_ref : Ref;
  res_redirect : option string;
  res_state : NavigationState;
  res_props : NavProps
}.

Record Route := {
  route_id : string;
  route_exec : string -> option (gmap string string);
  route_a : list (option LoaderRef);
  route_b : list (option LoaderRef);
  has_shadow : bool
}.

Record NavigationIntent := {
  intent_id : string;
  intent_route : Route;
  intent_params : gmap string string;
  intent_url : URL
}.

Inductive TrailingSlash := Never | Always | Ignore.

(** The [changed] descriptor of [load_route]. *)
Record Changed := {
  changed_url : bool;
  changed_params : list string;
  changed_session : bool
}.

(** ** Promises *)

Definition PromiseId := nat.

Inductive Val :=
| VUndefined
| VBool (b : bool)
| VResult (r : NavigationResult).

Inductive Settled :=
| Fulfilled (v : Val)
| Rejected (e : JsError).

(** ** The store *)

Record LoadCache := { lc_id : option string; lc_promise : option PromiseId }.

(** The closure [clear] of [get_navigation_result_from_branch]: it knows
    the key, the result object it was made for, its session subscription
    and its timer. *)
Record CacheClear := {
  cc_key : string;
  cc_result : Ref;
  cc_sub : nat;
  cc_timer : nat
}.

Record HistoryEntry := {
  he_state : gmap string string;
  he_index : option Z;
  he_url : URL
}.

(** The session history of the browser: the entries behind the current
    one (nearest first), the current one, and those ahead of it. *)
Record History := {
  hist_back : list HistoryEntry;
  hist_cur : HistoryEntry;
  hist_fwd : list HistoryEntry
}.

Definition pushState (e : HistoryEntry) (h : History) : History :=
  {| hist_back := hist_cur h :: hist_back h; hist_cur := e; hist_fwd := [] |}.

Definition replaceState (e : HistoryEntry) (h : History) : History :=
  {| hist_back := hist_back h; hist_cur := e; hist_fwd := hist_fwd h |}.

(** The indices attached to the entries, oldest first. *)
Definition history_indices (h : History) : list (option Z) :=
  map he_index (rev (hist_back h) ++ hist_cur h :: hist_fwd h).

Definition history_length (h : History) : nat :=
  length (hist_back h) + 1 + length (hist_fwd h).

#[projections(primitive)]
Record Store := {
  (* module-level and closure variables of the client *)
  scroll_positions : gmap Z ScrollPosition;
  cache : gmap string NavigationResult;
  invalidated : list (string -> bool);
  load_cache : LoadCache;
  before_navigate : list (option URL -> URL -> bool);
  current : NavigationState;
  started : bool;
  autoscroll : bool;
  updating : bool;
  session_id : nat;
  invalidating : option PromiseId;
  session : string;
  router_enabled : bool;
  current_history_index : Z;
  page : option Page;
  token : Ref;
  navigating : option (option URL * URL);
  (* the browser *)
  location : URL;
  base_uri : URL;
  history : History;
  window_scroll : ScrollPosition;
  clock : Z;
  timers : list (nat * (Z * CacheClear));
  session_subs : list (nat * CacheClear);
  next_ref : Ref;
  (* what the outside sees *)
  rendered : list NavProps;
  native_navigations : list URL;
  after_navigate_calls : list (option URL * URL)
}.

(** Assignments to the fields of the store. *)

Definition set_scroll_positions v (s : Store) : Store :=
  Build_Store
    v (cache s) (invalidated s) (load_cache s) (before_navigate s) (current s)
    (started s) (autoscroll s) (updating s) (session_id s) (invalidating s) (session s)
    (router_enabled s) (current_history_index s) (page s) (token s) (navigating s)
    (location s) (base_uri s) (history s) (window_scroll s) (clock s) (timers s)
    (session_subs s) (next_ref s) (rendered s) (native_navigations s)
    (after_navigate_calls s).

Definition set_cache v (s : Store) : Store :=
  Build_Store
    (scroll_positions s) v (invalidated s) (load_cache s) (before_navigate s) (current s)
    (started s) (autoscroll s) (updating s) (session_id s) (invalidating s) (session s)
    (router_enabled s) (current_history_index s) (page s) (token s) (navigating s)
    (location s) (base_uri s) (history s) (window_scroll s) (clock s) (timers s)
    (session_subs s) (next_ref s) (rendered s) (native_navigations s)
    (after_navigate_calls s).

Definition set_invalidated v (s : Store) : Store :=
  Build_Store
    (scroll_positions s) (cache s) v (load_cache s) (before_navigate s) (current s)
    (started s) (autoscroll s) (updating s) (session_id s) (invalidating s) (session s)
    (router_enabled s) (current_history_index s) (page s) (token s) (navigating s)
    (location s) (base_uri s) (history s) (window_scroll s) (clock s) (timers s)
    (session_subs s) (next_ref s) (rendered s) (native_navigations s)
    (after_navigate_calls s).

Definition set_load_cache v (s : Store) : Store :=
  Build_Store
    (scroll_positions s) (cache s) (invalidated s) v (before_navigate s) (current s)
    (started s) (autoscroll s) (updating s) (session_id s) (invalidating s) (session s)
    (router_enabled s) (current_history_index s) (page s) (token s) (navigating s)
    (location s) (base_uri s) (history s) (window_scroll s) (clock s) (timers s)
    (session_subs s) (next_ref s) (rendered s) (native_navigations s)
    (after_navigate_calls s).

Definition set_current v (s : Store) : Store :=
  Build_Store
    (scroll_positions s) (cache s) (invalidated s) (load_cache s) (before_navigate s) v
    (started s) (autoscroll s) (updating s) (session_id s) (invalidating s) (session s)
    (router_enabled s) (current_history_index s) (page s) (token s) (navigating s)
    (location s) (base_uri s) (history s) (window_scroll s) (clock s) (timers s)
    (session_subs s) (next_ref s) (rendered s) (native_navigations s)
    (after_navigate_calls s).

Definition set_started v (s : Store) : Store :=
  Build_Store
    (scroll_positions s) (cache s) (invalidated s) (load_cache s) (before_navigate s)
    (current s) v (autoscroll s) (updating s) (session_id s) (invalidating s) (session s)
    (router_enabled s) (current_history_index s) (page s) (token s) (navigating s)
    (location s) (base_uri s) (history s) (window_scroll s) (clock s) (timers s)
    (session_subs s) (next_ref s) (rendered s) (native_navigations s)
    (after_navigate_calls s).

Definition set_autoscroll v (s : Store) : Store :=
  Build_Store
    (scroll_positions s) (cache s) (invalidated s) (load_cache s) (before_navigate s)
    (current s) (started s) v (updating s) (session_id s) (invalidating s) (session s)
    (router_enabled s) (current_history_index s) (page s) (token s) (navigating s)
    (location s) (base_uri s) (history s) (window_scroll s) (clock s) (timers s)
    (session_subs s) (next_ref s) (rendered s) (native_navigations s)
    (after_navigate_calls s).

Definition set_updating v (s : Store) : Store :=
  Build_Store
    (scroll_positions s) (cache s) (invalidated s) (load_cache s) (before_navigate s)
    (current s) (started s) (autoscroll s) v (session_id s) (invalidating s) (session s)
    (router_enabled s) (current_history_index s) (page s) (token s) (navigating s)
    (location s) (base_uri s) (history s) (window_scroll s) (clock s) (timers s)
    (session_subs s) (next_ref s) (rendered s) (native_navigations s)
    (after_navigate_calls s).

Definition set_session_id v (s : Store) : Store :=
  Build_Store
    (scroll_positions s) (cache s) (invalidated s) (load_cache s) (before_navigate s)
    (current s) (started s) (autoscroll s) (updating s) v (invalidating s) (session s)
    (router_enabled s) (current_history_index s) (page s) (token s) (navigating s)
    (location s) (base_uri s) (history s) (window_scroll s) (clock s) (timers s)
    (session_subs s) (next_ref s) (rendered s) (native_navigations s)
    (after_navigate_calls s).

Definition set_invalidating v (s : Store) : Store :=
  Build_Store
    (scroll_positions s) (cache s) (invalidated s) (load_cache s) (before_navigate s)
    (current s) (started s) (autoscroll s) (updating s) (session_id s) v (session s)
    (router_enabled s) (current_history_index s) (page s) (token s) (navigating s)
    (location s) (base_uri s) (history s) (window_scroll s) (clock s) (timers s)
    (session_subs s) (next_ref s) (rendered s) (native_navigations s)
    (after_navigate_calls s).

Definition set_session v (s : Store) : Store :=
  Build_Store
    (scroll_positions s) (cache s) (invalidated s) (load_cache s) (before_navigate s)
    (current s) (started s) (autoscroll s) (updating s) (session_id s) (invalidating s) v
    (router_enabled s) (current_history_index s) (page s) (token s) (navigating s)
    (location s) (base_uri s) (history s) (window_scroll s) (clock s) (timers s)
    (session_subs s) (next_ref s) (rendered s) (native_navigations s)
    (after_navigate_calls s).

Definition set_router_enabled v (s : Store) : Store :=
  Build_Store
    (scroll_positions s) (cache s) (invalidated s) (load_cache s) (before_navigate s)
    (current s) (started s) (autoscroll s) (updating s) (session_id s) (invalidating s)
    (session s) v (current_history_index s) (page s) (token s) (navigating s)
    (location s) (base_uri s) (history s) (window_scroll s) (clock s) (timers s)
    (session_subs s) (next_ref s) (rendered s) (native_navigations s)
    (after_navigate_calls s).

Definition set_current_history_index v (s : Store) : Store :=
  Build_Store
    (scroll_positions s) (cache s) (invalidated s) (load_cache s) (before_navigate s)
    (current s) (started s) (autoscroll s) (updating s) (session_id s) (invalidating s)
    (session s) (router_enabled s) v (page s) (token s) (navigating s) (location s)
    (base_uri s) (history s) (window_scroll s) (clock s) (timers s) (session_subs s)
    (next_ref s) (rendered s) (native_navigations s) (after_navigate_calls s).

Definition set_page v (s : Store) : Store :=
  Build_Store
    (scroll_positions s) (cache s) (invalidated s) (load_cache s) (before_navigate s)
    (current s) (started s) (autoscroll s) (updating s) (session_id s) (invalidating s)
    (session s) (router_enabled s) (current_history_index s) v (token s) (navigating s)
    (location s) (base_uri s) (history s) (window_scroll s) (clock s) (timers s)
    (session_subs s) (next_ref s) (rendered s) (native_navigations s)
    (after_navigate_calls s).

Definition set_token v (s : Store) : Store :=
  Build_Store
    (scroll_positions s) (cache s) (invalidated s) (load_cache s) (before_navigate s)
    (current s) (started s) (autoscroll s) (updating s) (session_id s) (invalidating s)
    (session s) (router_enabled s) (current_history_index s) (page s) v (navigating s)
    (location s) (base_uri s) (history s) (window_scroll s) (clock s) (timers s)
    (session_subs s) (next_ref s) (rendered s) (native_navigations s)
    (after_navigate_calls s).

Definition set_navigating v (s : Store) : Store :=
  Build_Store
    (scroll_positions s) (cache s) (invalidated s) (load_cache s) (before_navigate s)
    (current s) (started s) (autoscroll s) (updating s) (session_id s) (invalidating s)
    (session s) (router_enabled s) (current_history_index s) (page s) (token s) v
    (location s) (base_uri s) (history s) (window_scroll s) (clock s) (timers s)
    (session_subs s) (next_ref s) (rendered s) (native_navigations s)
    (after_navigate_calls s).

Definition set_location v (s : Store) : Store :=
  Build_Store
    (scroll_positions s) (cache s) (invalidated s) (load_cache s) (before_navigate s)
    (current s) (started s) (autoscroll s) (updating s) (session_id s) (invalidating s)
    (session s) (router_enabled s) (current_history_index s) (page s) (token s)
    (navigating s) v (base_uri s) (history s) (window_scroll s) (clock s) (timers s)
    (session_subs s) (next_ref s) (rendered s) (native_navigations s)
    (after_navigate_calls s).

Definition set_history v (s : Store) : Store :=
  Build_Store
    (scroll_positions s) (cache s) (invalidated s) (load_cache s) (before_navigate s)
    (current s) (started s) (autoscroll s) (updating s) (session_id s) (invalidating s)
    (session s) (router_enabled s) (current_history_index s) (page s) (token s)
    (navigating s) (location s) (base_uri s) v (window_scroll s) (clock s) (timers s)
    (session_subs s) (next_ref s) (rendered s) (native_navigations s)
    (after_navigate_calls s).

Definition set_window_scroll v (s : Store) : Store :=
  Build_Store
    (scroll_positions s) (cache s) (invalidated s) (load_cache s) (before_navigate s)
    (current s) (started s) (autoscroll s) (updating s) (session_id s) (invalidating s)
    (session s) (router_enabled s) (current_history_index s) (page s) (token s)
    (navigating s) (location s) (base_uri s) (history s) v (clock s) (timers s)
    (session_subs s) (next_ref s) (rendered s) (native_navigations s)
    (after_navigate_calls s).

Definition set_clock v (s : Store) : Store :=
  Build_Store
    (scroll_positions s) (cache s) (invalidated s) (load_cache s) (before_navigate s)
    (current s) (started s) (autoscroll s) (updating s) (session_id s) (invalidating s)
    (session s) (router_enabled s) (current_history_index s) (page s) (token s)
    (navigating s) (location s) (base_uri s) (history s) (window_scroll s) v (timers s)
    (session_subs s) (next_ref s) (rendered s) (native_navigations s)
    (after_navigate_calls s).

Definition set_timers v (s : Store) : Store :=
  Build_Store
    (scroll_positions s) (cache s) (invalidated s) (load_cache s) (before_navigate s)
    (current s) (started s) (autoscroll s) (updating s) (session_id s) (invalidating s)
    (session s) (router_enabled s) (current_history_index s) (page s) (token s)
    (navigating s) (location s) (base_uri s) (history s) (window_scroll s) (clock s) v
    (session_subs s) (next_ref s) (rendered s) (native_navigations s)
    (after_navigate_calls s).

Definition set_session_subs v (s : Store) : Store :=
  Build_Store
    (scroll_positions s) (cache s) (invalidated s) (load_cache s) (before_navigate s)
    (current s) (started s) (autoscroll s) (updating s) (session_id s) (invalidating s)
    (session s) (router_enabled s) (current_history_index s) (page s) (token s)
    (navigating s) (location s) (base_uri s) (history s) (window_scroll s) (clock s)
    (timers s) v (next_ref s) (rendered s) (native_navigations s)
    (after_navigate_calls s).

Definition set_next_ref v (s : Store) : Store :=
  Build_Store
    (scroll_positions s) (cache s) (invalidated s) (load_cache s) (before_navigate s)
    (current s) (started s) (autoscroll s) (updating s) (session_id s) (invalidating s)
    (session s) (router_enabled s) (current_history_index s) (page s) (token s)
    (navigating s) (location s) (base_uri s) (history s) (window_scroll s) (clock s)
    (timers s) (session_subs s) v (rendered s) (native_navigations s)
    (after_navigate_calls s).

Definition set_rendered v (s : Store) : Store :=
  Build_Store
    (scroll_positions s) (cache s) (invalidated s) (load_cache s) (before_navigate s)
    (current s) (started s) (autoscroll s) (updating s) (session_id s) (invalidating s)
    (session s) (router_enabled s) (current_history_index s) (page s) (token s)
    (navigating s) (location s) (base_uri s) (history s) (window_scroll s) (clock s)
    (timers s) (session_subs s) (next_ref s) v (native_navigations s)
    (after_navigate_calls s).

Definition set_native_navigations v (s : Store) : Store :=
  Build_Store
    (scroll_positions s) (cache s) (invalidated s) (load_cache s) (before_navigate s)
    (current s) (started s) (autoscroll s) (updating s) (session_id s) (invalidating s)
    (session s) (router_enabled s) (current_history_index s) (page s) (token s)
    (navigating s) (location s) (base_uri s) (history s) (window_scroll s) (clock s)
    (timers s) (session_subs s) (next_ref s) (rendered s) v (after_navigate_calls s).

Definition set_after_navigate_calls v (s : Store) : Store :=
  Build_Store
    (scroll_positions s) (cache s) (invalidated s) (load_cache s) (before_navigate s)
    (current s) (started s) (autoscroll s) (updating s) (session_id s) (invalidating s)
    (session s) (router_enabled s) (current_history_index s) (page s) (token s)
    (navigating s) (location s) (base_uri s) (history s) (window_scroll s) (clock s)
    (timers s) (session_subs s) (next_ref s) (rendered s) (native_navigations s) v.

(** ** Events on which an async function is suspended *)

(** The [load_input] a [load] function is called with. *)
Record LoadInput := {
  li_routeId : option string;
  li_params : gmap string string;
  li_props : gmap string string;
  li_url : URL;
  li_session : string;
  li_stuff : gmap string string;
  li_status : option Z;
  li_error : option JsError
}.

(** One call of a [load] function, as its caller sees it: which tracked
    getters it touched ([params] by key, [url], [session], [stuff]), which
    resources it passed to the scoped [fetch], and what it threw or
    returned ([None] for a falsy return value). *)
Record LoadRun := {
  run_params : list string;
  run_url : bool;
  run_session : bool;
  run_stuff : bool;
  run_fetched : list string;
  run_result : JsError + option LoadOutput
}.

(** The response of the shadow endpoint.  [res_json] is what
    [res.json()] gives: [inl e] when it rejects with [e], [inr None] for a
    falsy JSON value, [inr (Some o)] for an object. *)
Record Response := {
  res_ok : bool;
  res_status : Z;
  res_location : option string;
  res_json : JsError + option (gmap string string)
}.

Inductive Wait :=
| WImport (l : LoaderRef)
| WLoad (m : Module) (input : LoadInput)
| WFetch (resource : string)
| WUpdatedCheck
| WTick
| WMicrotask.

Definition answer_of (w : Wait) : Type :=
  match w with
  | WImport _ => (JsError + Module)%type
  | WLoad _ _ => LoadRun
  | WFetch _ => (JsError + Response)%type
  | WUpdatedCheck => (JsError + bool)%type
  | WTick => unit
  | WMicrotask => unit
  end.

(** ** Tasks *)

Inductive Task (R : Type) : Type :=
| Ret (r : R)
| Throw (e : JsError)
| Forever
| Upd (f : Store -> Store) (k : Task R)
| Get (k : Store -> Task R)
| Await (w : Wait) (k : answer_of w -> Task R)
| Fork (t : Task Val) (k : PromiseId -> Task R)
| Join (p : PromiseId) (k : Settled -> Task R).

Arguments Ret {R} r.
Arguments Throw {R} e.
Arguments Forever {R}.
Arguments Upd {R} f k.
Arguments Get {R} k.
Arguments Await {R} w k.
Arguments Fork {R} t k.
Arguments Join {R} p k.

Fixpoint bind {A B : Type} (t : Task A) (f : A -> Task B) : Task B :=
  match t with
  | Ret r => f r
  | Throw e => Throw e
  | Forever => Forever
  | Upd g k => Upd g (bind k f)
  | Get k => Get (fun s => bind (k s) f)
  | Await w k => Await w (fun x => bind (k x) f)
  | Fork t k => Fork t (fun p => bind (k p) f)
  | Join p k => Join p (fun x => bind (k x) f)
  end.

#[global] Instance task_fmap : FMap Task := fun A B f t => bind t (fun x => Ret (f x)).

Declare Scope task_scope.
Delimit Scope task_scope with task.
Bind Scope task_scope with Task.
Notation "x ← y ; z" := (bind y (fun x => z))
  (at level 20, y at level 100, z at level 200, only parsing) : task_scope.
Notation "y ;; z" := (bind y (fun _ => z))
  (at level 100, z at level 200, only parsing, right associativity) : task_scope.
Open Scope task_scope.

(** [try { t } catch (e) { h e }]: an exception raised by [t] itself is
    handled; one raised inside a task [t] only forks is not. *)
Fixpoint try_catch {A : Type} (t : Task A) (h : JsError -> Task A) : Task A :=
  match t with
  | Ret r => Ret r
  | Throw e => h e
  | Forever => Forever
  | Upd g k => Upd g (try_catch k h)
  | Get k => Get (fun s => try_catch (k s) h)
  | Await w k => Await w (fun x => try_catch (k x) h)
  | Fork t k => Fork t (fun p => try_catch (k p) h)
  | Join p k => Join p (fun x => try_catch (k x) h)
  end.

Definition get : Task Store := Get Ret.
Definition upd (f : Store -> Store) : Task unit := Upd f (Ret tt).
Definition await (w : Wait) : Task (answer_of w) := Await w Ret.

(** Awaiting a promise-returning event: a rejection is thrown. *)
Definition or_throw {A : Type} (r : JsError + A) : Task A :=
  match r with
  | inl e => Throw e
  | inr a => Ret a
  end.

(** A fresh object identity. *)
Definition alloc : Task Ref :=
  Get (fun s => Upd (set_next_ref (S (next_ref s))) (Ret (next_ref s))).

(** [new Error(message)] *)
Definition new_error (message : string) : Task JsError :=
  r ← alloc; Ret {| err_ref := r; err_message := message |}.

(** An object literal or spread that makes a new [stuff] object. *)
Definition new_stuff (fields : gmap string string) : Task Stuff :=
  r ← alloc; Ret {| stuff_ref := r; stuff_fields := fields |}.

(** [const root_stuff = {}] *)
Definition root_stuff : Stuff := {| stuff_ref := 0%nat; stuff_fields := ∅ |}.

(** ** What the client is created with and what it imports *)

(** [base] and [trailing_slash] are the options of [create_client];
    [routes], [default_layout] and [default_error] come from the generated
    manifest.  [normalize] (of [../load.js]), [normalize_path] (of
    [../../utils/url.js]), [decodeURI] and [new URL(relative, base)] are
    imported or built in: their code is not part of the client, so they are
    taken as they are given.  [element_offset] answers
    [document.getElementById]: where the element with that id is, if there
    is one. *)
Class Env := {
  base : string;
  trailing_slash : TrailingSlash;
  routes : list Route;
  default_layout : LoaderRef;
  default_error : LoaderRef;
  normalize : LoadOutput -> JsError + LoadOutput;
  normalize_path : string -> TrailingSlash -> string;
  decodeURI : string -> option string;
  url_resolve : string -> URL -> URL;
  element_offset : string -> option ScrollPosition
}.

(** [s.slice(n)] *)
Definition slice_from (n : nat) (s : string) : string :=
  String.substring n (String.length s - n)%nat s.

(** [s.endsWith('/')] *)
Definition ends_with_slash (s : string) : bool :=
  bool_decide (String.get (String.length s - 1)%nat s = Some "/"%char)
  && negb (bool_decide (s = "")).

Record Details := {
  details_replaceState : bool;
  details_state : gmap string string
}.

Record UpdateOpts := {
  opt_scroll : option ScrollPosition;
  opt_keepfocus : bool;
  opt_details : option Details
}.

Record GotoOpts := {
  noscroll : bool;
  goto_replaceState : bool;
  keepfocus : bool;
  goto_state : gmap string string
}.

(** The defaults of the destructured second parameter of [goto]. *)
Definition goto_defaults : GotoOpts :=
  {| noscroll := false; goto_replaceState := false; keepfocus := false; goto_state := ∅ |}.

Definition empty_props : NavProps :=
  {| components := []; node_props := []; props_page := None |}.

(** [update_scroll_positions(index)], with [scroll_state()] read from the
    window. *)
Definition update_scroll_positions (index : Z) (s : Store) : Store :=
  set_scroll_positions (<[index := window_scroll s]> (scroll_positions s)) s.

(** The closure [clear]: drop the cache entry if it still is the result
    this closure was made for, unsubscribe, cancel the timer. *)
Definition remove_handle {A : Type} (h : nat) (l : list (nat * A)) : list (nat * A) :=
  filter (fun p => fst p ≠ h) l.

Definition clear (cc : CacheClear) (s : Store) : Store :=
  let s1 :=
    match cache s !! cc_key cc with
    | Some r =>
        if bool_decide (res_ref r = cc_result cc)
        then set_cache (delete (cc_key cc) (cache s)) s
        else s
    | None => s
    end in
  let s2 := set_session_subs (remove_handle (cc_sub cc) (session_subs s1)) s1 in
  set_timers (remove_handle (cc_timer cc) (timers s2)) s2.

(** What the session store does to the [clear] closures subscribed to it
    when it is set, and what the timer queue does with the timers that are
    due. *)
Definition run_session_subscribers (s : Store) : Store :=
  fold_left (fun s sub => clear (snd sub) s) (session_subs s) s.

Definition fire_timers (s : Store) : Store :=
  fold_left
    (fun s' timer =>
       if bool_decide (fst (snd timer) ≤ clock s) then clear (snd (snd timer)) s' else s')
    (timers s) s.

(** [changed_since_last_render] for a previous node, once [changed] is
    known to be an object. *)
Definition changed_since_last_render (previous : option BranchNode) (module : Module)
    (changed : Changed) (invalidated : list (string -> bool)) (stuff_changed : bool) : bool :=
  match previous with
  | None => true
  | Some previous =>
      negb (bool_decide (mod_ref module = mod_ref (node_module previous)))
      || (changed_url changed && uses_url (node_uses previous))
      || existsb (fun param => bool_decide (param ∈ uses_params (node_uses previous)))
           (changed_params changed)
      || (changed_session changed && uses_session (node_uses previous))
      || existsb (fun dep => existsb (fun fn => fn dep) invalidated)
           (elements (uses_dependencies (node_uses previous)))
      || (stuff_changed && uses_stuff (node_uses previous))
  end.

(** The whole expression [changed_since_last_render]: [changed] is [null]
    while nothing has been rendered, and reading [changed.url] then throws
    ([None]); the [||] chain gets that far only for a previous node of the
    same module. *)
Definition reload_decision (previous : option BranchNode) (module : Module)
    (changed : option Changed) (invalidated : list (string -> bool)) (stuff_changed : bool)
    : option bool :=
  match previous, changed with
  | Some previous', None =>
      if bool_decide (mod_ref module = mod_ref (node_module previous')) then None
      else Some true
  | _, Some changed =>
      Some (changed_since_last_render previous module changed invalidated stuff_changed)
  | None, None => Some true
  end.

(** The search [while (!(node_loaded = branch[j])) j -= 1]; [None] when it
    runs below index 0, where the JavaScript loop never ends. *)
Fixpoint find_loaded (branch : list (option BranchNode)) (j : nat) : option (nat * BranchNode) :=
  match j with
  | O =>
      match branch !! O with
      | Some (Some n) => Some (O, n)
      | _ => None
      end
  | S j' =>
      match branch !! j with
      | Some (Some n) => Some (j, n)
      | _ => find_loaded branch j'
      end
  end.

Fixpoint find_route (rs : list Route) (path : string) : option (Route * gmap string string) :=
  match rs with
  | [] => None
  | route :: rs' =>
      match route_exec route path with
      | Some params => Some (route, params)
      | None => find_route rs' path
      end
  end.

Definition loaded_redirect (n : BranchNode) : option string :=
  node_loaded n ≫= lo_redirect.

Inductive TryOutcome :=
| TryReturn (r : NavigationResult)
| TryNext (node : option BranchNode) (status : option Z) (error : option JsError)
    (stuff_changed : bool).

Inductive ShadowOutcome :=
| ShadowRedirect (redirect : string)
| ShadowProps (props : option (gmap string string)) (status : option Z)
    (error : option JsError).

Definition status_ge_400 (r : NavigationResult) : bool :=
  match props_page (res_props r) ≫= page_status with
  | Some st => bool_decide (400 ≤ st)
  | None => false
  end.

Definition set_page_url (url : URL) (r : NavigationResult) : NavigationResult :=
  match props_page (res_props r) with
  | Some p =>
      {| res_ref := res_ref r; res_redirect := res_redirect r; res_state := res_state r;
         res_props :=
           {| components := components (res_props r);
              node_props := node_props (res_props r);
              props_page :=
                Some {| page_error := page_error p; page_params := page_params p;
                        page_routeId := page_routeId p; page_status := page_status p;
                        page_stuff := page_stuff p; page_url := url |} |} |}
  | None => r
  end.

Definition with_uses_url (n : BranchNode) : BranchNode :=
  {| node_module := node_module n;
     node_uses :=
       {| uses_params := uses_params (node_uses n); uses_url := true;
          uses_session := uses_session (node_uses n); uses_stuff := uses_stuff (node_uses n);
          uses_dependencies := uses_dependencies (node_uses n) |};
     node_loaded := node_loaded n;
     node_stuff := node_stuff n |}.

Definition val_of_result (r : option NavigationResult) : Val :=
  match r with
  | Some r => VResult r
  | None => VUndefined
  end.

Definition val_of_bool (r : option bool) : Val :=
  match r with
  | Some b => VBool b
  | None => VUndefined
  end.

(** What [await promise] gives for a promise of a navigation result. *)
Definition result_of_settled (x : Settled) : Task (option NavigationResult) :=
  match x with
  | Fulfilled (VResult r) => Ret (Some r)
  | Fulfilled _ => Ret None
  | Rejected e => Throw e
  end.

(** ** The client *)

Section Client.
Context `{E : Env}.

(** [native_navigation(url)]: assigns [location.href] (the page is about
    to be left; the assignment is recorded) and returns a promise that
    never resolves. *)
Definition native_navigation {A : Type} (url : URL) : Task A :=
  Upd (fun s => set_native_navigations (native_navigations s ++ [url]) s) Forever.

Definition get_navigation_intent (url : URL) : Task (option NavigationIntent) :=
  s ← get;
  if negb (bool_decide (origin url = origin (location s)))
     || negb (String.prefix base (pathname url))
  then Ret None
  else
    let stripped := slice_from (String.length base) (pathname url) in
    match decodeURI (if bool_decide (stripped = "") then "/" else stripped) with
    | None => e ← new_error "URI malformed"; Throw e
    | Some path =>
        match find_route routes path with
        | Some (route, params) =>
            Ret (Some {| intent_id := normalize_path (pathname url) trailing_slash +:+ search url;
                          intent_route := route;
                          intent_params := params;
                          intent_url := url |})
        | None => Ret None
        end
    end.

Definition load_node (status : option Z) (error : option JsError) (module : Module)
    (url : URL) (params : gmap string string) (stuff : Stuff)
    (props : option (gmap string string)) (routeId : option string) : Task BranchNode :=
  let dependencies0 : gset string :=
    match props with
    | Some _ => {[ href url ]}
    | None => ∅
    end in
  let add_dependency (dep : string) : string := href (url_resolve dep url) in
  s ← get;
  if mod_has_load module then
    let load_input :=
      {| li_routeId := routeId; li_params := params; li_props := default ∅ props;
         li_url := url; li_session := session s; li_stuff := stuff_fields stuff;
         li_status := status; li_error := error |} in
    run ← await (WLoad module load_input);
    match run_result run with
    | inl e => Throw e
    | inr None => e ← new_error "load function must return a value"; Throw e
    | inr (Some loaded) =>
        match normalize loaded with
        | inl e => Throw e
        | inr loaded =>
            Ret {| node_module := module;
                    node_uses :=
                      {| uses_params :=
                           list_to_set (filter (fun key => is_Some (params !! key)) (run_params run));
                         uses_url := run_url run;
                         uses_session := run_session run;
                         uses_stuff := run_stuff run;
                         uses_dependencies :=
                           dependencies0
                           ∪ list_to_set
                               (map (fun requested =>
                                       add_dependency (href (url_resolve requested url)))
                                  (run_fetched run))
                           ∪ list_to_set (map add_dependency (default [] (lo_dependencies loaded))) |};
                    node_loaded := Some loaded;
                    node_stuff := default stuff (lo_stuff loaded) |}
        end
    end
  else
    let uses0 :=
      {| uses_params := ∅; uses_url := false; uses_session := false; uses_stuff := false;
         uses_dependencies := dependencies0 |} in
    match props with
    | Some props =>
        match normalize {| lo_status := None; lo_error := None; lo_redirect := None;
                           lo_props := Some props; lo_stuff := None; lo_cache := None;
                           lo_dependencies := None |} with
        | inl e => Throw e
        | inr loaded =>
            Ret {| node_module := module; node_uses := uses0; node_loaded := Some loaded;
                    node_stuff := stuff |}
        end
    | None =>
        Ret {| node_module := module; node_uses := uses0; node_loaded := None;
                node_stuff := stuff |}
    end.

Definition get_navigation_result_from_branch (url : URL) (params : gmap string string)
    (stuff : Stuff) (branch : list (option BranchNode)) (status : option Z)
    (error : option JsError) (routeId : option string) : Task NavigationResult :=
  let filtered : list BranchNode := omap (fun node : option BranchNode => node) branch in
  let redirect := List.find (fun f => truthy (loaded_redirect f)) filtered in
  ref ← alloc;
  s ← get;
  let page_changed :=
    match st_url (current s) with
    | None => true
    | Some current_url =>
        negb (bool_decide (href url = href current_url))
        || negb (same_error (st_error (current s)) error)
        || negb (same_stuff (st_stuff (current s)) stuff)
    end in
  let result :=
    {| res_ref := ref;
       res_redirect := redirect ≫= loaded_redirect;
       res_state :=
         {| st_url := Some url; st_params := params; st_branch := branch; st_error := error;
            st_stuff := stuff; st_session_id := session_id s |};
       res_props :=
         {| components := map (fun node => mod_default (node_module node)) filtered;
            node_props := map (fun node => node_loaded node ≫= lo_props) filtered;
            props_page :=
              if page_changed
              then Some {| page_error := error; page_params := params; page_routeId := routeId;
                           page_status := status; page_stuff := stuff; page_url := url |}
              else None |} |} in
  match (last filtered ≫= node_loaded) ≫= lo_cache with
  | Some load_cache =>
      let key := pathname url +:+ search url in
      timeout ← alloc;
      unsubscribe ← alloc;
      let cc := {| cc_key := key; cc_result := ref; cc_sub := unsubscribe; cc_timer := timeout |} in
      upd (fun s => set_timers (timers s ++ [(timeout, (clock s + maxage load_cache * 1000, cc))]) s);;
      upd (fun s => set_session_subs (session_subs s ++ [(unsubscribe, cc)]) s);;
      upd (fun s => set_cache (<[key := result]> (cache s)) s);;
      Ret result
  | None => Ret result
  end.

Definition load_root_error_page (status : option Z) (error : JsError) (url : URL)
    (routeId : option string) : Task NavigationResult :=
  let params : gmap string string := ∅ in
  layout_module ← bind (await (WImport default_layout)) or_throw;
  stuff0 ← new_stuff ∅;
  root_layout ← load_node None None layout_module url params stuff0 None routeId;
  error_module ← bind (await (WImport default_error)) or_throw;
  stuff1 ← match node_loaded root_layout ≫= lo_stuff with
           | Some st => Ret st
           | None => new_stuff ∅
           end;
  root_error ← load_node status (Some error) error_module url params stuff1 None routeId;
  stuff ← new_stuff
             (default ∅ (stuff_fields <$> (node_loaded root_error ≫= lo_stuff))
              ∪ default ∅ (stuff_fields <$> (node_loaded root_layout ≫= lo_stuff)));
  get_navigation_result_from_branch url params stuff [Some root_layout; Some root_error]
    status (Some error) routeId.

(** *** [load_route] *)

Section LoadRoute.
Variables (id : string) (url : URL) (params : gmap string string) (route : Route).

Definition shadow_resource : string :=
  pathname url +:+ (if ends_with_slash (pathname url) then "" else "/")
  +:+ "__data.json" +:+ search url.

(** [{ redirect, props: {}, state: current }] *)
Definition redirect_result (redirect : string) : Task NavigationResult :=
  s ← get;
  ref ← alloc;
  Ret {| res_ref := ref; res_redirect := Some redirect; res_state := current s;
          res_props := empty_props |}.

(** The request to the shadow endpoint of a shadow page; [status] is the
    local variable of [load_route], which a response that is not OK sets. *)
Definition fetch_shadow (status : option Z) : Task ShadowOutcome :=
  res ← bind (await (WFetch shadow_resource)) or_throw;
  if res_ok res then
    if truthy (res_location res) then Ret (ShadowRedirect (default "" (res_location res)))
    else if bool_decide (res_status res = 204) then Ret (ShadowProps (Some ∅) status None)
    else
      match res_json res with
      | inl e => Throw e
      | inr props => Ret (ShadowProps props status None)
      end
  else
    match res_json res with
    | inl _ =>
        e ← new_error "Failed to load data";
        Ret (ShadowProps (Some ∅) (Some (res_status res)) (Some e))
    | inr None => Ret (ShadowProps (Some ∅) (Some (res_status res)) None)
    | inr (Some body) =>
        ref ← alloc;
        Ret (ShadowProps (Some ∅) (Some (res_status res))
               (Some {| err_ref := ref; err_message := default "" (body !! "message") |}))
    end.

Definition is_shadow_page (i : nat) : bool :=
  has_shadow route && bool_decide (i = (length (route_a route) - 1)%nat).

(** The [try] block of the iteration at position [i], once
    [await a[i]()] has given [module]. *)
Definition try_module (module : Module) (i : nat) (changed : option Changed)
    (stuff : Stuff) (stuff_changed : bool) (status : option Z) : Task TryOutcome :=
  s ← get;
  let previous := mjoin (st_branch (current s) !! i) in
  changed_since_last_render ←
    match reload_decision previous module changed (invalidated s) stuff_changed with
    | Some b => Ret b
    | None => e ← new_error "Cannot read properties of null (reading 'url')"; Throw e
    end;
  if changed_since_last_render : bool then
    shadow ← (if is_shadow_page i then fetch_shadow status
              else Ret (ShadowProps (Some ∅) status None));
    match shadow with
    | ShadowRedirect redirect => TryReturn <$> redirect_result redirect
    | ShadowProps props status error =>
        node ← match error with
               | None =>
                   Some <$> load_node None None module url params stuff props
                              (Some (route_id route))
               | Some _ => Ret None
               end;
        match node with
        | None => Ret (TryNext None status error stuff_changed)
        | Some node =>
            let node := if is_shadow_page i then with_uses_url node else node in
            match node_loaded node with
            | None => Ret (TryNext (Some node) status error stuff_changed)
            | Some loaded =>
                let status' := if defined (lo_error loaded) then lo_status loaded else status in
                let error' := if defined (lo_error loaded) then lo_error loaded else error in
                if truthy (lo_redirect loaded)
                then TryReturn <$> redirect_result (default "" (lo_redirect loaded))
                else Ret (TryNext (Some node) status' error'
                            (if defined (lo_stuff loaded) then true else stuff_changed))
            end
        end
    end
  else Ret (TryNext previous status None stuff_changed).

(** The whole [try] block of the iteration at position [i] whose loader
    [a[i]] is there. *)
Definition try_body (loader : LoaderRef) (i : nat) (changed : option Changed)
    (stuff : Stuff) (stuff_changed : bool) (status : option Z) : Task TryOutcome :=
  module ← bind (await (WImport loader)) or_throw;
  try_module module i changed stuff stuff_changed status.

(** [{ ...stuff, ...more }]: the keys of [more] override. *)
Definition spread_stuff (stuff : Stuff) (more : option Stuff) : Task Stuff :=
  match more with
  | Some more => new_stuff (stuff_fields more ∪ stuff_fields stuff)
  | None => Ret stuff
  end.

(** The walk [while (i--)] up the error boundaries after a failure at
    position [i], down to the root error page. *)
Fixpoint recover (i : nat) (branch : list (option BranchNode)) (stuff : Stuff)
    (status : option Z) (error : JsError) : Task NavigationResult :=
  match i with
  | O => load_root_error_page status error url (Some (route_id route))
  | S i =>
      match mjoin (route_b route !! i) with
      | Some boundary =>
          match find_loaded branch i with
          | None => Forever
          | Some (j, node_loaded') =>
              recovered ←
                try_catch
                  (module ← bind (await (WImport boundary)) or_throw;
                   error_loaded ← load_node status (Some error) module url params
                                    (node_stuff node_loaded') None (Some (route_id route));
                   if defined (node_loaded error_loaded ≫= lo_error) then Ret None
                   else
                     stuff' ← spread_stuff stuff (node_loaded error_loaded ≫= lo_stuff);
                     Ret (Some (stuff', take (S j) branch ++ [Some error_loaded])))
                  (fun _ => Ret None);
              match recovered with
              | Some (stuff', branch') =>
                  get_navigation_result_from_branch url params stuff' branch' status
                    (Some error) (Some (route_id route))
              | None => recover i branch stuff status error
              end
          end
      | None => recover i branch stuff status error
      end
  end.

(** The loop [load: for (let i = 0; i < a.length; i += 1)], entered at
    position [i] with [rest] the loaders from there on.  The local [error]
    is falsy whenever an iteration starts. *)
Fixpoint load_loop (rest : list (option LoaderRef)) (i : nat) (changed : option Changed)
    (branch : list (option BranchNode)) (stuff : Stuff) (stuff_changed : bool)
    (status : option Z) : Task NavigationResult :=
  match rest with
  | [] =>
      get_navigation_result_from_branch url params stuff branch status None
        (Some (route_id route))
  | None :: rest => load_loop rest (S i) changed branch stuff stuff_changed status
  | Some loader :: rest =>
      outcome ←
        try_catch (try_body loader i changed stuff stuff_changed status)
          (fun e => Ret (TryNext None (Some 500) (Some e) stuff_changed));
      match outcome with
      | TryReturn result => Ret result
      | TryNext node status error stuff_changed =>
          match error with
          | Some error => recover i branch stuff status error
          | None =>
              stuff ← spread_stuff stuff ((node ≫= node_loaded) ≫= lo_stuff);
              load_loop rest (S i) changed (branch ++ [node]) stuff stuff_changed status
          end
      end
  end.

Definition compute_changed (s : Store) : option Changed :=
  match st_url (current s) with
  | None => None
  | Some current_url =>
      Some {| changed_url := negb (bool_decide (id = pathname current_url +:+ search current_url));
              changed_params :=
                filter (fun key => st_params (current s) !! key ≠ params !! key)
                  (elements (dom params));
              changed_session := negb (bool_decide (session_id s = st_session_id (current s))) |}
  end.

(** The modules are preloaded ([a.forEach((loader) => loader().catch(...))])
    before the loop; the imports started there are the ones the loop
    awaits, and a failure counts only where it is awaited. *)
Definition load_route_body (no_cache : bool) : Task (option NavigationResult) :=
  s ← get;
  if bool_decide (lc_id (load_cache s) = Some id) && bool_decide (is_Some (lc_promise (load_cache s)))
  then
    match lc_promise (load_cache s) with
    | Some promise => Join promise result_of_settled
    | None => Ret None
    end
  else
    match (if no_cache then None else cache s !! id) with
    | Some cached => Ret (Some cached)
    | None =>
        Some <$> load_loop (route_a route) 0 (compute_changed s) [] root_stuff false (Some 200)
    end.

End LoadRoute.

Definition load_route (intent : NavigationIntent) (no_cache : bool)
    : Task (option NavigationResult) :=
  load_route_body (intent_id intent) (intent_url intent) (intent_params intent)
    (intent_route intent) no_cache.

(** *** [initialize] and [update] *)

Definition initialize (result : NavigationResult) : Task unit :=
  upd (set_current (res_state result));;
  upd (set_page (props_page (res_props result)));;
  upd (fun s => set_rendered (rendered s ++ [res_props result]) s);;
  s ← get;
  (if router_enabled s
   then upd (fun s => set_after_navigate_calls (after_navigate_calls s ++ [(None, location s)]) s)
   else Ret tt);;
  upd (set_started true).

(** [const current_token = (token = {})] *)
Definition alloc_token : Task Ref :=
  current_token ← alloc;
  upd (set_token current_token);;
  Ret current_token.

Definition scrollTo (p : ScrollPosition) : Task unit := upd (set_window_scroll p).

(** The end of [update], after the render target has been given the
    props: scroll handling, then the bookkeeping.  [callback] is the
    closure [navigate] passes, given by the [from] and [to] of its
    navigation. *)
Definition update_finish (url : URL) (opts : option UpdateOpts)
    (callback : option (option URL * URL)) (navigation_result : NavigationResult)
    : Task (option bool) :=
  match opts with
  | Some opts =>
      (* the focus reset of [!keepfocus] touches the document only *)
      await WTick;;
      s ← get;
      if autoscroll s then
        match opt_scroll opts with
        | Some scroll => scrollTo scroll
        | None =>
            match (if negb (bool_decide (hash url = "")) then element_offset (slice_from 1 (hash url))
                   else None) with
            | Some deep_linked => scrollTo deep_linked
            | None => scrollTo {| scroll_x := 0; scroll_y := 0 |}
            end
        end
      else Ret tt
  | None => await WTick
  end;;
  upd (set_load_cache {| lc_id := None; lc_promise := None |});;
  upd (set_autoscroll true);;
  match props_page (res_props navigation_result) with
  | Some p => upd (set_page (Some p))
  | None => Ret tt
  end;;
  let leaf_node := mjoin (last (st_branch (res_state navigation_result))) in
  upd (set_router_enabled
         (negb (bool_decide ((leaf_node ≫= fun n => mod_router (node_module n)) = Some false))));;
  match callback with
  | Some navigation =>
      upd (fun s => set_after_navigate_calls (after_navigate_calls s ++ [navigation]) s);;
      upd (set_navigating None)
  | None => Ret tt
  end;;
  upd (set_updating false);;
  Ret None.

(** [update] from [updating = true] on: the commit of a navigation result
    to the history, to [current] and to the render target, then
    [update_finish]. *)
Definition update_commit (url : URL) (opts : option UpdateOpts)
    (callback : option (option URL * URL)) (navigation_result : NavigationResult)
    : Task (option bool) :=
  upd (set_updating true);;
  match opts ≫= opt_details with
  | Some details =>
      upd (fun s =>
             set_current_history_index
               (current_history_index s + (if details_replaceState details then 0 else 1)) s);;
      upd (fun s =>
             let entry := {| he_state := details_state details;
                             he_index := Some (current_history_index s);
                             he_url := url |} in
             set_location url
               (set_history
                  ((if details_replaceState details then replaceState else pushState)
                     entry (history s)) s))
  | None => Ret tt
  end;;
  s ← get;
  navigation_result ←
    (if started s then
       upd (set_current (res_state navigation_result));;
       let navigation_result := set_page_url url navigation_result in
       upd (fun s => set_rendered (rendered s ++ [res_props navigation_result]) s);;
       Ret navigation_result
     else
       initialize navigation_result;;
       Ret navigation_result);
  update_finish url opts callback navigation_result.

(** [update] from [invalidated.length = 0] on, that is once the token
    check has passed.  [follow href chain] is the call
    [goto(href, {}, chain)]. *)
Definition update_checked (follow : string -> list string -> Task Val) (url : URL)
    (redirect_chain : list string) (opts : option UpdateOpts)
    (callback : option (option URL * URL)) (navigation_result : NavigationResult)
    : Task (option bool) :=
  upd (set_invalidated []);;
  if truthy (res_redirect navigation_result) then
    if bool_decide (10 < length redirect_chain)%nat
       || bool_decide (pathname url ∈ redirect_chain)
    then
      error ← new_error "Redirect loop";
      navigation_result ← load_root_error_page (Some 500) error url None;
      update_commit url opts callback navigation_result
    else
      s ← get;
      if router_enabled s then
        Fork (follow (href (url_resolve (default "" (res_redirect navigation_result)) url))
                (redirect_chain ++ [pathname url]))
          (fun _ => Ret (Some false))
      else
        native_navigation (url_resolve (default "" (res_redirect navigation_result)) (location s))
  else if status_ge_400 navigation_result then
    updated ← bind (await WUpdatedCheck) or_throw;
    (if updated : bool then native_navigation url else Ret tt);;
    update_commit url opts callback navigation_result
  else update_commit url opts callback navigation_result.

(** [update] from the point where [await load_route(...)] has given
    [navigation_result]; [current_token] is the token this call of
    [update] allocated. *)
Definition update_loaded (follow : string -> list string -> Task Val) (current_token : Ref)
    (url : URL) (redirect_chain : list string) (opts : option UpdateOpts)
    (callback : option (option URL * URL)) (navigation_result : option NavigationResult)
    : Task (option bool) :=
  s ← get;
  navigation_result ←
    match navigation_result with
    | None =>
        if bool_decide (origin url = origin (location s))
           && bool_decide (pathname url = pathname (location s))
        then
          error ← new_error ("Not found: " +:+ pathname url);
          Some <$> load_root_error_page (Some 404) error url None
        else Ret None
    | Some r => Ret (Some r)
    end;
  match navigation_result with
  | None => native_navigation url
  | Some navigation_result =>
      s ← get;
      if negb (bool_decide (token s = current_token)) then Ret (Some false)
      else update_checked follow url redirect_chain opts callback navigation_result
  end.

(** [update] up to the point where [await load_route(...)] has given the
    navigation result: the intent, the new token, the branch load. *)
Definition update_begin (url : URL) (no_cache : bool) : Task (Ref * option NavigationResult) :=
  intent ← get_navigation_intent url;
  current_token ← alloc_token;
  navigation_result ←
    match intent with
    | Some intent => load_route intent no_cache
    | None => Ret None
    end;
  Ret (current_token, navigation_result).

Definition update_with (follow : string -> list string -> Task Val) (url : URL)
    (redirect_chain : list string) (no_cache : bool) (opts : option UpdateOpts)
    (callback : option (option URL * URL)) : Task (option bool) :=
  begun ← update_begin url no_cache;
  update_loaded follow (fst begun) url redirect_chain opts callback (snd begun).

Section Navigate.
Variable update :
  URL -> list string -> bool -> option UpdateOpts -> option (option URL * URL)
  -> Task (option bool).

(** [accepted] and [blocked] are the two callbacks of the caller. *)
Definition navigate_with (url : URL) (scroll : option ScrollPosition) (keepfocus : bool)
    (redirect_chain : list string) (details : option Details)
    (accepted blocked : Store -> Store) : Task unit :=
  s ← get;
  let from := st_url (current s) in
  let should_block := existsb (fun fn => fn from url) (before_navigate s) in
  if should_block then upd blocked
  else
    let pathname' := normalize_path (pathname url) trailing_slash in
    let normalized :=
      {| origin := origin url; pathname := pathname'; search := search url; hash := hash url |} in
    upd (fun s => update_scroll_positions (current_history_index s) s);;
    upd accepted;;
    s ← get;
    (if started s then upd (set_navigating (Some (st_url (current s), normalized))) else Ret tt);;
    update normalized redirect_chain false
      (Some {| opt_scroll := scroll; opt_keepfocus := keepfocus; opt_details := details |})
      (Some (from, normalized));;
    Ret tt.

Definition goto_with (url : string) (opts : GotoOpts) (redirect_chain : list string)
    : Task unit :=
  s ← get;
  let url := url_resolve url (base_uri s) in
  if router_enabled s then
    navigate_with url (if noscroll opts then Some (window_scroll s) else None)
      (keepfocus opts) redirect_chain
      (Some {| details_replaceState := goto_replaceState opts;
               details_state := goto_state opts |})
      (fun s => s) (fun s => s)
  else native_navigation url.

End Navigate.

(** [update] calls [goto], which calls [navigate], which calls [update]:
    the recursion ends because a redirect is followed only while the chain
    has at most 10 entries and the chain grows by one at every hop.
    [update_rec n] is [update] for a chain that [n] more hops would bring
    above that bound; with no hop left the redirect branch is never
    entered. *)
Fixpoint update_rec (hops : nat) (url : URL) (redirect_chain : list string) (no_cache : bool)
    (opts : option UpdateOpts) (callback : option (option URL * URL)) : Task (option bool) :=
  update_with
    (match hops with
     | O => fun _ _ => Forever
     | S hops =>
         fun href chain => (fun _ => VUndefined) <$> goto_with (update_rec hops) href goto_defaults chain
     end)
    url redirect_chain no_cache opts callback.

Definition update (url : URL) (redirect_chain : list string) (no_cache : bool)
    (opts : option UpdateOpts) (callback : option (option URL * URL)) : Task (option bool) :=
  update_rec (11 - length redirect_chain) url redirect_chain no_cache opts callback.

Definition navigate := navigate_with update.

Definition goto (url : string) (opts : GotoOpts) (redirect_chain : list string) : Task unit :=
  goto_with update url opts redirect_chain.

(** *** The rest of the client's interface *)

(** [prefetch(url)] *)
Definition prefetch (url : URL) : Task (option NavigationResult) :=
  intent ← get_navigation_intent url;
  match intent with
  | None =>
      e ← new_error "Attempted to prefetch a URL that does not belong to this app";
      Throw e
  | Some intent =>
      Fork (val_of_result <$> load_route intent false)
        (fun promise =>
           upd (fun s => set_load_cache {| lc_id := lc_id (load_cache s);
                                           lc_promise := Some promise |} s);;
           upd (fun s => set_load_cache {| lc_id := Some (intent_id intent);
                                           lc_promise := lc_promise (load_cache s) |} s);;
           Join promise result_of_settled)
  end.

Inductive Resource :=
| ResourceFn (fn : string -> bool)
| ResourceHref (resource : string).

(** [invalidate(resource)]; it returns the promise [invalidating]. *)
Definition invalidate (resource : Resource) : Task (option PromiseId) :=
  match resource with
  | ResourceFn fn => upd (fun s => set_invalidated (invalidated s ++ [fn]) s)
  | ResourceHref resource =>
      upd (fun s =>
             let h := href (url_resolve resource (location s)) in
             set_invalidated (invalidated s ++ [fun dep => bool_decide (dep = h)]) s)
  end;;
  s ← get;
  match invalidating s with
  | None =>
      Fork (await WMicrotask;;
            s ← get;
            update (location s) [] true None None;;
            upd (set_invalidating None);;
            Ret VUndefined)
        (fun promise => upd (set_invalidating (Some promise)))
  | Some _ => Ret tt
  end;;
  s ← get;
  Ret (invalidating s).

(** The subscribers of the session store run when it is set: first the
    one [create_client] registered, then the [clear] closures of the cached
    results, each with its [ready] flag already true. *)
Definition session_set (value : string) : Task unit :=
  upd (set_session value);;
  upd (fun s => set_session_id (S (session_id s)) s);;
  s ← get;
  Fork (val_of_bool <$> update (location s) [] true None None)
    (fun _ => upd run_session_subscribers).

(** Time passes: the timers that have become due fire. *)
Definition advance_clock (ms : Z) : Task unit :=
  upd (fun s => fire_timers (set_clock (clock s + ms) s)).

(** *** Hydration and what else the client hands out *)

(** [disable_scroll_handling()]; [dev] is [import.meta.env.DEV]. *)
Definition disable_scroll_handling (dev : bool) : Task unit :=
  s ← get;
  if dev && started s && negb (updating s) then
    e ← new_error "Can only disable scroll handling during navigation";
    Throw e
  else if updating s || negb (started s) then upd (set_autoscroll false)
  else Ret tt.

(** What [_hydrate] does to the node of a leaf that came with serialized
    props: [node.uses.dependencies.add(url.href); node.uses.url = true]. *)
Definition with_page_dependency (url : URL) (n : BranchNode) : BranchNode :=
  {| node_module := node_module n;
     node_uses :=
       {| uses_params := uses_params (node_uses n); uses_url := true;
          uses_session := uses_session (node_uses n); uses_stuff := uses_stuff (node_uses n);
          uses_dependencies := uses_dependencies (node_uses n) ∪ {[ href url ]} |};
     node_loaded := node_loaded n;
     node_stuff := node_stuff n |}.

(** The loop of [_hydrate] over [nodes], entered with the nodes still to
    load.  [serialized] is the script element with the props of the leaf:
    [None] when there is none, otherwise what [JSON.parse] makes of its
    text (an exception, a falsy value, or the props).  [error_args] is the
    local of that name. *)
Fixpoint hydrate_loop (status : option Z) (error : option JsError) (url : URL)
    (params : gmap string string) (routeId : option string)
    (serialized : option (JsError + option (gmap string string)))
    (nodes : list LoaderRef) (branch : list (option BranchNode)) (stuff : Stuff)
    (error_args : option (option Z * JsError))
    : Task (list (option BranchNode) * Stuff * option (option Z * JsError)) :=
  match nodes with
  | [] => Ret (branch, stuff, error_args)
  | n :: rest =>
      let is_leaf := bool_decide (rest = []) in
      props ←
        (if is_leaf then
           match serialized with
           | None => Ret None
           | Some parsed => or_throw parsed
           end
         else Ret None);
      module ← bind (await (WImport n)) or_throw;
      node ← load_node (if is_leaf then status else None) (if is_leaf then error else None)
                module url params stuff props routeId;
      let node := if defined props then with_page_dependency url node else node in
      match node_loaded node with
      | Some loaded =>
          match lo_error loaded with
          | Some e =>
              if defined error then Throw e
              else hydrate_loop status error url params routeId serialized rest
                     (branch ++ [Some node]) stuff (Some (lo_status loaded, e))
          | None =>
              stuff ← spread_stuff stuff (lo_stuff loaded);
              hydrate_loop status error url params routeId serialized rest
                (branch ++ [Some node]) stuff error_args
          end
      | None =>
          hydrate_loop status error url params routeId serialized rest
            (branch ++ [Some node]) stuff error_args
      end
  end.

(** [_hydrate({ status, error, nodes, params, routeId })] *)
Definition hydrate (status : option Z) (error : option JsError) (nodes : list LoaderRef)
    (params : gmap string string) (routeId : option string)
    (serialized : option (JsError + option (gmap string string))) : Task unit :=
  s ← get;
  let url := location s in
  stuff ← new_stuff ∅;
  result ←
    try_catch
      (loaded ← hydrate_loop status error url params routeId serialized nodes [] stuff None;
       match loaded with
       | (_, _, Some (error_status, e)) => load_root_error_page error_status e url routeId
       | (branch, stuff, None) =>
           get_navigation_result_from_branch url params stuff branch status error routeId
       end)
      (fun e =>
         if defined error then Throw e
         else load_root_error_page (Some 500) e url routeId);
  (if truthy (res_redirect result) then
     s ← get;
     native_navigation (url_resolve (default "" (res_redirect result)) (location s))
   else Ret tt);;
  initialize result.

(** The listener of [popstate].  [state] is [event.state]: [None] for
    [null], [Some index] for a state that carries [index] under
    [sveltekit:index], as every entry this client has written does.
    [go] is [history.go], which is the browser's.  The listener does not
    await [navigate]. *)
Definition popstate (go : Z -> Store -> Store) (state : option Z) : Task unit :=
  s ← get;
  match state with
  | Some index =>
      if router_enabled s then
        if bool_decide (index = current_history_index s) then Ret tt
        else
          Fork ((fun _ => VUndefined) <$>
                  navigate (location s) (scroll_positions s !! index) false [] None
                    (set_current_history_index index)
                    (fun s => go (current_history_index s - index) s))
            (fun _ => Ret tt)
      else Ret tt
  | None => Ret tt
  end.

End Client.

(** ** Running tasks *)

(** Where a task stands: finished, failed, waiting for the environment,
    or waiting for another task's promise. *)
Inductive Paused (R : Type) : Type :=
| PDone (r : R)
| PThrew (e : JsError)
| PNever
| PWait (w : Wait) (k : answer_of w -> Task R)
| PJoin (p : PromiseId) (k : Settled -> Task R).

Arguments PDone {R} r.
Arguments PThrew {R} e.
Arguments PNever {R}.
Arguments PWait {R} w k.
Arguments PJoin {R} p k.

(** The store, the promises of the async calls made so far (a promise is
    its index in [procs]), and the events awaited so far, oldest first. *)
#[projections(primitive)]
Record Machine := {
  store : Store;
  procs : list (Paused Val);
  trace : list Wait
}.

Definition settled (ps : list (Paused Val)) (p : PromiseId) : option Settled :=
  match ps !! p with
  | Some (PDone v) => Some (Fulfilled v)
  | Some (PThrew e) => Some (Rejected e)
  | _ => None
  end.

(** Who answers an awaited event right away, if anybody. *)
Definition Answerer := forall w : Wait, option (answer_of w).

Fixpoint exec {R : Type} (ans : Answerer) (t : Task R) (m : Machine) : Machine * Paused R :=
  match t with
  | Ret r => (m, PDone r)
  | Throw e => (m, PThrew e)
  | Forever => (m, PNever)
  | Upd f k => exec ans k {| store := f (store m); procs := procs m; trace := trace m |}
  | Get k => exec ans (k (store m)) m
  | Await w k =>
      let m' := {| store := store m; procs := procs m; trace := trace m ++ [w] |} in
      match ans w with
      | Some a => exec ans (k a) m'
      | None => (m', PWait w k)
      end
  | Fork t k =>
      let '(m1, p) := exec ans t m in
      exec ans (k (length (procs m1)))
        {| store := store m1; procs := procs m1 ++ [p]; trace := trace m1 |}
  | Join p k =>
      match settled (procs m) p with
      | Some x => exec ans (k x) m
      | None => (m, PJoin p k)
      end
  end.

(** The environment: what every awaited event is answered with. *)
Definition World := forall w : Wait, answer_of w.

(** [advance]: run to the next suspension.  [run W]: run to the end with
    nothing else in between, every event answered by [W]. *)
Definition advance {R : Type} (t : Task R) (m : Machine) : Machine * Paused R :=
  exec (fun _ => None) t m.

Definition run {R : Type} (W : World) (t : Task R) (m : Machine) : Machine * Paused R :=
  exec (fun w => Some (W w)) t m.

(** A call of an async function from the outside: it runs to its first
    suspension and its promise is the new last entry of [procs]. *)
Definition call (t : Task Val) (m : Machine) : Machine :=
  let '(m1, p) := advance t m in
  {| store := store m1; procs := procs m1 ++ [p]; trace := trace m1 |}.

(** The task behind promise [pid] goes on, if what it waits for is there:
    the answer of the world, or the outcome of the promise it joined. *)
Definition resume (W : World) (pid : PromiseId) (m : Machine) : Machine :=
  match procs m !! pid with
  | Some (PWait w k) =>
      let '(m1, p) := advance (k (W w)) m in
      {| store := store m1; procs := <[pid := p]> (procs m1); trace := trace m1 |}
  | Some (PJoin q k) =>
      match settled (procs m) q with
      | Some x =>
          let '(m1, p) := advance (k x) m in
          {| store := store m1; procs := <[pid := p]> (procs m1); trace := trace m1 |}
      | None => m
      end
  | _ => m
  end.

(** The calls of [load] functions among the awaited events. *)
Definition load_calls (tr : list Wait) : list Module :=
  omap (fun w => match w with WLoad m _ => Some m | _ => None end) tr.

(** ** Vocabulary of the statements *)

(** The machine after some more events have been awaited, and after [n]
    more objects have been allocated. *)
Definition logged (tr : list Wait) (m : Machine) : Machine :=
  {| store := store m; procs := procs m; trace := trace m ++ tr |}.

Definition allocated (n : nat) (m : Machine) : Machine :=
  {| store := set_next_ref (n + next_ref (store m))%nat (store m);
     procs := procs m; trace := trace m |}.

(** [keeps R t]: every assignment [t] makes to the store, and every one a
    task it forks makes, relates the store before to the store after by
    [R]. *)
Inductive keeps (R : Store -> Store -> Prop) : forall A : Type, Task A -> Prop :=
| keeps_Ret (A : Type) (r : A) : keeps R A (Ret r)
| keeps_Throw (A : Type) (e : JsError) : keeps R A (Throw e)
| keeps_Forever (A : Type) : keeps R A Forever
| keeps_Upd (A : Type) (f : Store -> Store) (k : Task A) :
    (forall s, R s (f s)) -> keeps R A k -> keeps R A (Upd f k)
| keeps_Get (A : Type) (k : Store -> Task A) :
    (forall s, keeps R A (k s)) -> keeps R A (Get k)
| keeps_Await (A : Type) (w : Wait) (k : answer_of w -> Task A) :
    (forall x, keeps R A (k x)) -> keeps R A (Await w k)
| keeps_Fork (A : Type) (t : Task Val) (k : PromiseId -> Task A) :
    keeps R Val t -> (forall p, keeps R A (k p)) -> keeps R A (Fork t k)
| keeps_Join (A : Type) (p : PromiseId) (k : Settled -> Task A) :
    (forall x, keeps R A (k x)) -> keeps R A (Join p k).

Arguments keeps R {A} t.

(** [forkless t]: [t] calls no async function without awaiting it. *)
Inductive forkless : forall A : Type, Task A -> Prop :=
| forkless_Ret (A : Type) (r : A) : forkless A (Ret r)
| forkless_Throw (A : Type) (e : JsError) : forkless A (Throw e)
| forkless_Forever (A : Type) : forkless A Forever
| forkless_Upd (A : Type) (f : Store -> Store) (k : Task A) :
    forkless A k -> forkless A (Upd f k)
| forkless_Get (A : Type) (k : Store -> Task A) :
    (forall s, forkless A (k s)) -> forkless A (Get k)
| forkless_Await (A : Type) (w : Wait) (k : answer_of w -> Task A) :
    (forall x, forkless A (k x)) -> forkless A (Await w k)
| forkless_Join (A : Type) (p : PromiseId) (k : Settled -> Task A) :
    (forall x, forkless A (k x)) -> forkless A (Join p k).

Arguments forkless {A} t.

(** The same for the continuation of a suspended task. *)
Definition paused_keeps (R : Store -> Store -> Prop) {A : Type} (p : Paused A) : Prop :=
  match p with
  | PWait w k => forall x, keeps R (k x)
  | PJoin _ k => forall x, keeps R (k x)
  | _ => True
  end.

(** What a branch load may change: the result cache with its timers and
    session subscriptions, and the allocation counter.  Everything else
    is as before. *)
Definition loader_frame (s s' : Store) : Prop :=
  s' = set_cache (cache s')
         (set_timers (timers s')
            (set_session_subs (session_subs s')
               (set_next_ref (next_ref s') s))).

(** What the end of [update] may change: scroll position, [load_cache],
    [autoscroll], [page], [router_enabled], the observers' log,
    [navigating] and [updating]. *)
Definition finish_frame (s s' : Store) : Prop :=
  s' = set_window_scroll (window_scroll s')
         (set_load_cache (load_cache s')
            (set_autoscroll (autoscroll s')
               (set_page (page s')
                  (set_router_enabled (router_enabled s')
                     (set_after_navigate_calls (after_navigate_calls s')
                        (set_navigating (navigating s')
                           (set_updating (updating s') s))))))).

(** The list of invalidation predicates is as before. *)
Definition same_invalidated (s s' : Store) : Prop :=
  invalidated s' = invalidated s.

(** The history after the commit of [update] for [url] with [opts]. *)
Definition committed_history (url : URL) (opts : option UpdateOpts) (s : Store) : History :=
  match opts ≫= opt_details with
  | Some details =>
      (if details_replaceState details then replaceState else pushState)
        {| he_state := details_state details;
           he_index := Some (current_history_index s
                             + (if details_replaceState details then 0 else 1));
           he_url := url |} (history s)
  | None => history s
  end.

(** The [load_input] of a loader of the forward loop: no [status], no
    [error]. *)
Definition forward_input (url : URL) (params : gmap string string) (route : Route)
    (s : Store) (stuff : Stuff) (props : gmap string string) : LoadInput :=
  {| li_routeId := Some (route_id route); li_params := params; li_props := props;
     li_url := url; li_session := session s; li_stuff := stuff_fields stuff;
     li_status := None; li_error := None |}.

(** The object [{ redirect, props: {}, state: current }] made in store
    [s]. *)
Definition redirected (s : Store) (redirect : string) : NavigationResult :=
  {| res_ref := next_ref s; res_redirect := Some redirect;
     res_state := current s; res_props := empty_props |}.

(** The reuse condition in the words of the specification: the module is
    the same, no input the usage set marks is in the changed set, no
    recorded dependency matches an invalidation predicate, and no earlier
    node's stuff contribution changed in this pass. *)
Definition spec_reuse_condition (previous : BranchNode) (module : Module)
    (changed : Changed) (invalidated : list (string -> bool)) (stuff_changed : bool) : Prop :=
  mod_ref module = mod_ref (node_module previous)
  /\ (uses_url (node_uses previous) = true -> changed_url changed = false)
  /\ (forall param, param ∈ uses_params (node_uses previous) ->
         param ∉ changed_params changed)
  /\ (uses_session (node_uses previous) = true -> changed_session changed = false)
  /\ (uses_stuff (node_uses previous) = true -> stuff_changed = false)
  /\ (forall dep fn, dep ∈ uses_dependencies (node_uses previous) ->
         fn ∈ invalidated -> fn dep = false)
  /\ stuff_changed = false.

(** The result object [ref] is no longer what the result cache holds
    under [key]. *)
Definition gone (key : string) (ref : Ref) (s : Store) : Prop :=
  forall r, cache s !! key = Some r -> res_ref r ≠ ref.

(** Once the list of invalidation predicates is empty it stays empty. *)
Definition stays_cleared (s s' : Store) : Prop :=
  invalidated s = [] -> invalidated s' = [].

(** [runs R t]: whoever answers the events [t] awaits, [t] takes the store
    to one that [R] relates to the store it started from, wherever it
    stops. *)
Definition runs (R : Store -> Store -> Prop) {A : Type} (t : Task A) : Prop :=
  forall (ans : Answerer) (m : Machine), R (store m) (store (fst (exec ans t m))).

(** The history and its index are as before, and the scroll position
    map has no new slot other than the one of that index. *)
Definition slot_saved (s s' : Store) : Prop :=
  current_history_index s' = current_history_index s
  /\ dom (scroll_positions s') ⊆ dom (scroll_positions s) ∪ {[current_history_index s]}
  /\ history s' = history s.

(** The history index and the scroll position map are as before, and the
    history has as many entries as before. *)
Definition index_kept (s s' : Store) : Prop :=
  current_history_index s' = current_history_index s
  /\ scroll_positions s' = scroll_positions s
  /\ history_length (history s') = history_length (history s).

(** The history index has grown by one at most and the history by one
    entry at most, and the scroll position map has no new slot other than
    the one of the old index. *)
Definition one_step (s s' : Store) : Prop :=
  current_history_index s <= current_history_index s' <= current_history_index s + 1
  /\ dom (scroll_positions s') ⊆ dom (scroll_positions s) ∪ {[current_history_index s]}
  /\ (history_length (history s') <= history_length (history s) + 1)%nat.

(** Where the window is scrolled at the end of an update for [url] with
    options [o], scroll handling not being disabled: to the position asked
    for, else to the element the hash names, else to the top. *)
Definition scroll_target `{E : Env} (url : URL) (o : UpdateOpts) : ScrollPosition :=
  match opt_scroll o with
  | Some p => p
  | None =>
      match (if negb (bool_decide (hash url = "")) then element_offset (slice_from 1 (hash url))
             else None) with
      | Some deep_linked => deep_linked
      | None => {| scroll_x := 0; scroll_y := 0 |}
      end
  end.

(** The predicate [invalidate(resource)] registers, called in store
    [s]. *)
Definition registered `{E : Env} (resource : Resource) (s : Store) : string -> bool :=
  match resource with
  | ResourceFn fn => fn
  | ResourceHref resource =>
      fun dep => bool_decide (dep = href (url_resolve resource (location s)))
  end.

(** Every cached result has the subscription of its [clear] closure, and
    every timer the subscription of its own: the handles of the
    subscriptions are distinct, and so are those of the timers; all are
    older than the next identity; each is the one its closure cancels; and
    what the cache holds under a key is the result of a subscribed closure
    for that key. *)
Definition cache_backed (s : Store) : Prop :=
  NoDup (map fst (session_subs s))
  /\ NoDup (map fst (timers s))
  /\ (forall sub cc, (sub, cc) ∈ session_subs s -> cc_sub cc = sub /\ (sub < next_ref s)%nat)
  /\ (forall timer due cc, (timer, (due, cc)) ∈ timers s ->
        cc_timer cc = timer /\ (timer < next_ref s)%nat
        /\ (cc_sub cc, cc) ∈ session_subs s)
  /\ (forall key r, cache s !! key = Some r ->
        exists cc, (cc_sub cc, cc) ∈ session_subs s
                   /\ cc_key cc = key /\ cc_result cc = res_ref r).

(** The cache is still backed if it was. *)
Definition backed_kept (s s' : Store) : Prop := cache_backed s -> cache_backed s'.

(** Nothing has been shown or committed: what is rendered, [current],
    [page], [started], the history with its index and the log of the
    [after_navigate] callbacks are as before. *)
Definition unrendered (s s' : Store) : Prop :=
  started s' = started s /\ rendered s' = rendered s /\ current s' = current s
  /\ page s' = page s /\ history s' = history s
  /\ current_history_index s' = current_history_index s
  /\ after_navigate_calls s' = after_navigate_calls s
  /\ location s' = location s.

(** ** A small application

    An instance of everything above, on which the statements below are
    tried: an application at [http://app] with a root layout (loader 0),
    a root error component (loader 1) and a few pages. *)

Module Demo.

Definition app_origin : string := "http://app".

Definition app_url (path : string) : URL :=
  {| origin := app_origin; pathname := path; search := ""; hash := "" |}.

Definition search_url (path query : string) : URL :=
  {| origin := app_origin; pathname := path; search := query; hash := "" |}.

(** Absolute hrefs of the application and root-relative paths only. *)
Definition resolve (relative : string) (against : URL) : URL :=
  if String.prefix app_origin relative
  then app_url (slice_from (String.length app_origin) relative)
  else app_url relative.

Definition strip_trailing_slash (path : string) (policy : TrailingSlash) : string :=
  match policy with
  | Never =>
      if ends_with_slash path && negb (bool_decide (path = "/"))
      then String.substring 0 (String.length path - 1) path
      else path
  | Always =>
      if ends_with_slash path then path else path +:+ "/"
  | Ignore => path
  end.

Definition exact_route (path : string) (a b : list (option LoaderRef)) : Route :=
  {| route_id := path;
     route_exec := fun p => if bool_decide (p = path) then Some ∅ else None;
     route_a := a; route_b := b; has_shadow := false |}.

Definition route_a_page : Route := exact_route "/a" [Some 0; Some 2]%nat [].
Definition route_b_page : Route := exact_route "/b" [Some 0; Some 3]%nat [].
Definition route_ok : Route := exact_route "/ok" [Some 0; Some 4]%nat [].
Definition route_bad : Route := exact_route "/bad" [Some 0; Some 5]%nat [Some 6]%nat.
Definition route_broken : Route := exact_route "/broken" [Some 0; Some 5]%nat [].

Definition app : Env := {|
  base := "";
  trailing_slash := Never;
  routes := [route_a_page; route_b_page; route_ok; route_bad; route_broken];
  default_layout := 0%nat;
  default_error := 1%nat;
  normalize := inr;
  normalize_path := strip_trailing_slash;
  decodeURI := Some;
  url_resolve := resolve;
  element_offset := fun _ => None
|}.

Definition intent_of (route : Route) : NavigationIntent :=
  {| intent_id := route_id route; intent_route := route; intent_params := ∅;
     intent_url := app_url (route_id route) |}.

(** The page [/] has been rendered, with an empty branch. *)
Definition home : NavigationState :=
  {| st_url := Some (app_url "/"); st_params := ∅; st_branch := []; st_error := None;
     st_stuff := root_stuff; st_session_id := 1 |}.

Definition store0 : Store := {|
  scroll_positions := ∅;
  cache := ∅;
  invalidated := [];
  load_cache := {| lc_id := None; lc_promise := None |};
  before_navigate := [];
  current := home;
  started := true;
  autoscroll := true;
  updating := false;
  session_id := 1;
  invalidating := None;
  session := "";
  router_enabled := true;
  current_history_index := 1000;
  page := None;
  token := 0%nat;
  navigating := None;
  location := app_url "/";
  base_uri := app_url "/";
  history :=
    {| hist_back := [];
       hist_cur := {| he_state := ∅; he_index := Some 1000; he_url := app_url "/" |};
       hist_fwd := [] |};
  window_scroll := {| scroll_x := 0; scroll_y := 0 |};
  clock := 0;
  timers := [];
  session_subs := [];
  next_ref := 1%nat;
  rendered := [];
  native_navigations := [];
  after_navigate_calls := []
|}.

Definition machine0 : Machine := {| store := store0; procs := []; trace := [] |}.

Definition imported (l : LoaderRef) : Module :=
  {| mod_ref := (100 + l)%nat;
     mod_has_load := bool_decide (2 ≤ l ≤ 5)%nat;
     mod_router := None;
     mod_default := l |}.

Definition output (redirect : option string) (ttl : option CacheSpec) : LoadOutput :=
  {| lo_status := if defined redirect then Some 302 else None;
     lo_error := None;
     lo_redirect := redirect;
     lo_props := Some ∅;
     lo_stuff := None;
     lo_cache := ttl;
     lo_dependencies := None |}.

Definition returned (r : option LoadOutput) : LoadRun :=
  {| run_params := []; run_url := false; run_session := false; run_stuff := false;
     run_fetched := []; run_result := inr r |}.

(** Page [/a] redirects to [/b] and [/b] back to [/a]; [/ok] loads and
    asks to be cached for 5 seconds; the [load] of [/bad] and of [/broken]
    returns nothing.  The version check finds no new version. *)
Definition world : World := fun w =>
  match w with
  | WImport l => inr (imported l)
  | WLoad m _ =>
      if bool_decide (mod_ref m = 102%nat) then returned (Some (output (Some "/b") None))
      else if bool_decide (mod_ref m = 103%nat) then returned (Some (output (Some "/a") None))
      else if bool_decide (mod_ref m = 104%nat)
           then returned (Some (output None (Some {| maxage := 5 |})))
      else returned None
  | WFetch _ => inl {| err_ref := 0%nat; err_message := "Failed to fetch" |}
  | WUpdatedCheck => inr false
  | WTick => tt
  | WMicrotask => tt
  end.

(** A node of a page [/posts/[id]] whose [load] read [params.id] and
    nothing else, and the state in which [/posts/1?x=1] is rendered with
    it. *)
Definition post_module : Module :=
  {| mod_ref := 107%nat; mod_has_load := true; mod_router := None; mod_default := 7%nat |}.

Definition post_node : BranchNode :=
  {| node_module := post_module;
     node_uses :=
       {| uses_params := {[ "id" ]}; uses_url := false; uses_session := false;
          uses_stuff := false; uses_dependencies := ∅ |};
     node_loaded := Some (output None None);
     node_stuff := root_stuff |}.

Definition post_route : Route :=
  {| route_id := "/posts/[id]";
     route_exec := fun p =>
       if String.prefix "/posts/" p then Some {[ "id" := slice_from 7 p ]} else None;
     route_a := [Some 7%nat]; route_b := []; has_shadow := false |}.

Definition post_state : NavigationState :=
  {| st_url := Some (search_url "/posts/1" "?x=1"); st_params := {[ "id" := "1" ]};
     st_branch := [Some post_node]; st_error := None; st_stuff := root_stuff;
     st_session_id := 1 |}.

Definition post_machine : Machine :=
  {| store := set_current post_state store0; procs := []; trace := [] |}.

(** The same page once a prefetch of [/ok] has been started: the load is
    promise 0 and is recorded in [load_cache]. *)
Definition prefetching : Machine :=
  call (val_of_result <$> @prefetch app (app_url "/ok")) machine0.

(** The prefetch has settled: its result is in the result cache, and
    [load_cache] still holds its promise.  Then 5 seconds pass. *)
Definition prefetched : Machine :=
  resume world 1%nat (Nat.iter 3 (resume world 0%nat) prefetching).

Definition expired : Machine := fst (advance (advance_clock 5000) prefetched).

(** A URL of another origin. *)
Definition elsewhere : URL :=
  {| origin := "http://elsewhere"; pathname := "/ok"; search := ""; hash := "" |}.

(** The node of the root layout, as [load_node] makes it for [url]. *)
Definition layout_node (url : URL) : option BranchNode :=
  match snd (run world (@load_node app None None (imported 0%nat) url ∅ root_stuff (Some ∅)
                          None) machine0) with
  | PDone node => Some node
  | _ => None
  end.

(** What has changed from [/posts/1?x=1] to [/posts/1?x=2], to
    [/posts/2?x=1], and to itself. *)
Definition search_changed : Changed :=
  {| changed_url := true; changed_params := []; changed_session := false |}.

Definition id_changed : Changed :=
  {| changed_url := true; changed_params := ["id"]; changed_session := false |}.

Definition nothing_changed : Changed :=
  {| changed_url := false; changed_params := []; changed_session := false |}.

(** [goto(path)], called from the page. *)
Definition goto_page (path : string) : Task Val :=
  (fun _ => VUndefined) <$> @goto app path goto_defaults [].

(** Two navigations that overlap.  [goto("/broken")] is called first; its
    branch load ends with the error page (status 500), its update passes
    the token check and waits for the version check.  Then [goto("/ok")]
    is called and runs up to its commit.  Then the version check of the
    first navigation is answered. *)
Definition overtaken : Machine :=
  Nat.iter 5 (resume world 0%nat) (call (goto_page "/broken") machine0).

Definition overtaking : Machine :=
  Nat.iter 3 (resume world 1%nat) (call (goto_page "/ok") overtaken).

Definition late_commit : Machine := resume world 0%nat overtaking.

(** The pathnames of the pages rendered so far, and of the entries of the
    history with their indices. *)
Definition rendered_paths (m : Machine) : list (option string) :=
  map (fun props => option_map (fun p => pathname (page_url p)) (props_page props))
    (rendered (store m)).

Definition history_paths (m : Machine) : list (option Z * string) :=
  map (fun e => (he_index e, pathname (he_url e)))
    (rev (hist_back (history (store m))) ++ hist_cur (history (store m))
       :: hist_fwd (history (store m))).

(** The result of the branch load of [/ok] from the page [/], and its
    branch. *)
Definition ok_result : NavigationResult :=
  match snd (run world (@load_route app (intent_of route_ok) false) machine0) with
  | PDone (Some r) => r
  | _ => redirected store0 ""
  end.

Definition ok_branch : list (option BranchNode) := st_branch (res_state ok_result).

(** [update] for [/a] at the end of the chain [/a; /b], up to the result
    of its branch load, which redirects to [/b]. *)
Definition a_begun : Machine * Paused (Ref * option NavigationResult) :=
  run world (@update_begin app (app_url "/a") false) machine0.

Definition a_result : NavigationResult :=
  match snd a_begun with
  | PDone (_, Some r) => r
  | _ => redirected store0 ""
  end.

(** [goto("/a")] from the page, run to its end: [/a] redirects to [/b]
    and [/b] back to [/a]. *)
Definition looped : Machine := fst (run world (@goto app "/a" goto_defaults []) machine0).

(** A redirect chain of 11 pathnames, none of them [/a]. *)
Definition long_chain : list string :=
  ["/1"; "/2"; "/3"; "/4"; "/5"; "/6"; "/7"; "/8"; "/9"; "/10"; "/11"].

(** [goto("/ok", { replaceState: true })], called twice from the page,
    each run to its end. *)
Definition replacing : GotoOpts :=
  {| noscroll := false; goto_replaceState := true; keepfocus := false; goto_state := ∅ |}.

Definition replaced_once : Machine :=
  fst (run world (@goto app "/ok" replacing []) machine0).

Definition replaced_twice : Machine :=
  fst (run world (@goto app "/ok" replacing []) replaced_once).

Definition replace_details : Details :=
  {| details_replaceState := true; details_state := ∅ |}.

Definition replace_opts : option UpdateOpts :=
  Some {| opt_scroll := None; opt_keepfocus := false; opt_details := Some replace_details |}.

(** The page once [invalidate("/api")] has registered its predicate, and
    a node whose [load] fetched [/api]. *)
Definition api_invalidated : Machine :=
  {| store := set_invalidated [fun dep => bool_decide (dep = "http://app/api")] store0;
     procs := []; trace := [] |}.

Definition api_node : BranchNode :=
  {| node_module := post_module;
     node_uses :=
       {| uses_params := ∅; uses_url := false; uses_session := false;
          uses_stuff := false; uses_dependencies := {[ "http://app/api" ]} |};
     node_loaded := Some (output None None);
     node_stuff := root_stuff |}.

(** The page with a [before_navigate] callback that cancels every
    navigation; with the router disabled; in the middle of an update. *)
Definition guarded : Machine :=
  {| store :=
       Build_Store
         (scroll_positions store0) (cache store0) (invalidated store0) (load_cache store0)
         [fun _ _ => true] (current store0) (started store0) (autoscroll store0)
         (updating store0) (session_id store0) (invalidating store0) (session store0)
         (router_enabled store0) (current_history_index store0) (page store0) (token store0)
         (navigating store0) (location store0) (base_uri store0) (history store0)
         (window_scroll store0) (clock store0) (timers store0) (session_subs store0)
         (next_ref store0) (rendered store0) (native_navigations store0)
         (after_navigate_calls store0);
     procs := []; trace := [] |}.

Definition router_off : Machine :=
  {| store := set_router_enabled false store0; procs := []; trace := [] |}.

Definition mid_update : Machine :=
  {| store := set_updating true store0; procs := []; trace := [] |}.

(** The same application with a [decodeURI] that rejects the path [/%]. *)
Definition picky : Env := {|
  base := "";
  trailing_slash := Never;
  routes := [route_a_page; route_b_page; route_ok; route_bad; route_broken];
  default_layout := 0%nat;
  default_error := 1%nat;
  normalize := inr;
  normalize_path := strip_trailing_slash;
  decodeURI := fun path => if bool_decide (path = "/%") then None else Some path;
  url_resolve := resolve;
  element_offset := fun _ => None
|}.

(** [invalidate("/api")] has been called from the page: its update waits
    for the microtask. *)
Definition api_pending : Machine :=
  fst (advance (@invalidate app (ResourceHref "/api")) machine0).

(** The root error page for the address of the page itself, which no
    route matches, as [update] asks for it. *)
Definition not_found_error : JsError := {| err_ref := 2%nat; err_message := "Not found: /" |}.

Definition not_found : Machine * Paused NavigationResult :=
  run world (@load_root_error_page app (Some 404) not_found_error (app_url "/") None)
    {| store := set_next_ref 3%nat (set_token 1%nat store0); procs := []; trace := [] |}.

Definition not_found_result : NavigationResult :=
  match snd not_found with
  | PDone r => r
  | _ => redirected store0 ""
  end.

(** A [load] that returns an error, a world in which every [load] does,
    and answers in which the import of the error boundary of [/bad] is
    rejected. *)
Definition boom : JsError := {| err_ref := 0%nat; err_message := "boom" |}.

Definition failed : LoadOutput :=
  {| lo_status := Some 500; lo_error := Some boom; lo_redirect := None; lo_props := None;
     lo_stuff := None; lo_cache := None; lo_dependencies := None |}.

Definition failing : World := fun w =>
  match w with
  | WImport l => inr (imported 4%nat)
  | WLoad _ _ => returned (Some failed)
  | WFetch request => world (WFetch request)
  | WUpdatedCheck => inr false
  | WTick => tt
  | WMicrotask => tt
  end.

Definition rejecting : Answerer := fun w =>
  match w with
  | WImport _ => Some (inl boom)
  | _ => None
  end.

(** The client before hydration, on the address [/ok]. *)
Definition blank : NavigationState :=
  {| st_url := None; st_params := ∅; st_branch := []; st_error := None;
     st_stuff := root_stuff; st_session_id := 0 |}.

Definition booting : Machine :=
  {| store := set_started false (set_current blank (set_location (app_url "/ok") store0));
     procs := []; trace := [] |}.

(** The browser has gone to an entry of the history for [/ok]: the
    address has changed already, and [popstate] is about to be delivered. *)
Definition traversed : Machine :=
  {| store := set_location (app_url "/ok") store0; procs := []; trace := [] |}.

(** Answers to the version check alone: a new version has been deployed;
    the check fails. *)
Definition new_version : Answerer := fun w =>
  match w with
  | WUpdatedCheck => Some (inr true)
  | _ => None
  end.

Definition check_fails : Answerer := fun w =>
  match w with
  | WUpdatedCheck => Some (inl boom)
  | _ => None
  end.

(** A node whose [load] read the session. *)
Definition session_node : BranchNode :=
  {| node_module := post_module;
     node_uses :=
       {| uses_params := ∅; uses_url := false; uses_session := true;
          uses_stuff := false; uses_dependencies := ∅ |};
     node_loaded := Some (output None None);
     node_stuff := root_stuff |}.

End Demo.

(** * Properties *)

(** ** Running a task step by step *)

Lemma exec_bind (ans : Answerer) :
  forall (A : Type) (t : Task A) (B : Type) (f : A -> Task B) (m : Machine),
  exec ans (bind t f) m =
  match exec ans t m with
  | (m', PDone r) => exec ans (f r) m'
  | (m', PThrew e) => (m', PThrew e)
  | (m', PNever) => (m', PNever)
  | (m', PWait w k) => (m', PWait w (fun x => bind (k x) f))
  | (m', PJoin p k) => (m', PJoin p (fun x => bind (k x) f))
  end.
Proof.
  induction t as [A r|A e|A|A g k IH|A k IH|A w k IH|A t IHt k IHk|A p k IH];
    intros B f m; cbn [bind exec]; try reflexivity.
  - apply IH.
  - apply IH.
  - destruct (ans w); [apply IH | reflexivity].
  - destruct (exec ans t m) as [m1 p1]. apply IHk.
  - destruct (settled (procs m) p); [apply IH | reflexivity].
Qed.

Lemma exec_try_catch (ans : Answerer) :
  forall (A : Type) (t : Task A) (h : JsError -> Task A) (m : Machine),
  exec ans (try_catch t h) m =
  match exec ans t m with
  | (m', PThrew e) => exec ans (h e) m'
  | (m', PWait w k) => (m', PWait w (fun x => try_catch (k x) h))
  | (m', PJoin p k) => (m', PJoin p (fun x => try_catch (k x) h))
  | other => other
  end.
Proof.
  induction t as [A r|A e|A|A g k IH|A k IH|A w k IH|A t IHt k IHk|A p k IH];
    intros h m; cbn [try_catch exec]; try reflexivity.
  - apply IH.
  - apply IH.
  - destruct (ans w); [apply IH | reflexivity].
  - destruct (exec ans t m) as [m1 p1]. apply IHk.
  - destruct (settled (procs m) p); [apply IH | reflexivity].
Qed.

(** The projections of the store, through the assignments. *)
Ltac fields :=
  cbn [scroll_positions cache invalidated load_cache before_navigate current started
       autoscroll updating session_id invalidating session router_enabled
       current_history_index page token navigating location base_uri history
       window_scroll clock timers session_subs next_ref rendered native_navigations
       after_navigate_calls set_scroll_positions set_cache set_invalidated set_load_cache
       set_current set_started set_autoscroll set_updating set_session_id
       set_invalidating set_session set_router_enabled set_current_history_index set_page
       set_token set_navigating set_location set_history set_window_scroll set_clock
       set_timers set_session_subs set_next_ref set_rendered set_native_navigations
       set_after_navigate_calls
       store procs trace].

(** One step of symbolic execution: the task primitives and the machine
    projections are unfolded, the client's functions are not. *)
Ltac step :=
  cbn [exec bind try_catch get upd await alloc new_error new_stuff or_throw fmap task_fmap
       store procs trace];
  fields.

Lemma existsb_false_iff {A : Type} (f : A -> bool) (l : list A) :
  existsb f l = false <-> forall x, x ∈ l -> f x = false.
Proof.
  induction l as [|a l IH]; simpl.
  - split; [intros _ x Hx; inversion Hx | reflexivity].
  - rewrite orb_false_iff, IH. split.
    + intros [Ha Hl] x Hx. apply elem_of_cons in Hx as [->|Hx]; auto.
    + intros H. split; [apply H; left | intros x Hx; apply H; right; exact Hx].
Qed.

Lemma find_route_none (rs : list Route) (path : string) :
  Forall (fun route => route_exec route path = None) rs -> find_route rs path = None.
Proof.
  induction 1 as [|route rs H _ IH]; simpl; [reflexivity|]. rewrite H. exact IH.
Qed.

(** ** Frames *)

Lemma keeps_bind (R : Store -> Store -> Prop) :
  forall (A : Type) (t : Task A) (B : Type) (f : A -> Task B),
  keeps R t -> (forall x, keeps R (f x)) -> keeps R (bind t f).
Proof.
  intros A t B f H. revert B f.
  induction H; intros B g Hg; cbn [bind]; try (constructor; auto; fail).
  apply Hg.
Qed.

Lemma keeps_try_catch (R : Store -> Store -> Prop) :
  forall (A : Type) (t : Task A) (h : JsError -> Task A),
  keeps R t -> (forall e, keeps R (h e)) -> keeps R (try_catch t h).
Proof.
  intros A t h H. revert h.
  induction H; intros h Hh; cbn [try_catch]; try (constructor; auto; fail).
  apply Hh.
Qed.

Lemma keeps_weaken (R R' : Store -> Store -> Prop) :
  (forall s s', R s s' -> R' s s') ->
  forall (A : Type) (t : Task A), keeps R t -> keeps R' t.
Proof. intros HR A t H. induction H; constructor; auto. Qed.

(** A task that keeps a preorder is run from a store to a related store,
    wherever it stops, and what is left of it keeps the preorder too. *)
Lemma keeps_exec (R : Store -> Store -> Prop) (ans : Answerer) :
  (forall s, R s s) -> (forall s1 s2 s3, R s1 s2 -> R s2 s3 -> R s1 s3) ->
  forall (A : Type) (t : Task A), keeps R t ->
  forall m, R (store m) (store (fst (exec ans t m))) /\ paused_keeps R (snd (exec ans t m)).
Proof.
  intros Hrefl Htrans A t H.
  induction H as [A r|A e|A|A f k Hf Hk IH|A k Hk IH|A w k Hk IH|A t k Ht IHt Hk IHk|A p k Hk IH];
    intros m; cbn [exec].
  - split; [apply Hrefl|exact I].
  - split; [apply Hrefl|exact I].
  - split; [apply Hrefl|exact I].
  - destruct (IH {| store := f (store m); procs := procs m; trace := trace m |}) as [H1 H2].
    split; [|exact H2]. eapply Htrans; [apply Hf | exact H1].
  - apply IH.
  - destruct (ans w) as [a|].
    + apply (IH a {| store := store m; procs := procs m; trace := trace m ++ [w] |}).
    + split; [apply Hrefl | exact Hk].
  - destruct (IHt m) as [H1 _]. destruct (exec ans t m) as [m1 p1]. cbn [fst] in H1.
    destruct (IHk (length (procs m1))
                {| store := store m1; procs := procs m1 ++ [p1]; trace := trace m1 |})
      as [H2 H3].
    split; [|exact H3]. eapply Htrans; [exact H1 | exact H2].
  - destruct (settled (procs m) p) as [x|].
    + apply IH.
    + split; [apply Hrefl | exact Hk].
Qed.

Lemma loader_frame_refl (s : Store) : loader_frame s s.
Proof. destruct s. reflexivity. Qed.

Lemma loader_frame_trans (s1 s2 s3 : Store) :
  loader_frame s1 s2 -> loader_frame s2 s3 -> loader_frame s1 s3.
Proof. unfold loader_frame. intros H1 H2. rewrite H2 at 1. rewrite H1 at 1. reflexivity. Qed.

Lemma finish_frame_refl (s : Store) : finish_frame s s.
Proof. destruct s. reflexivity. Qed.

Lemma finish_frame_trans (s1 s2 s3 : Store) :
  finish_frame s1 s2 -> finish_frame s2 s3 -> finish_frame s1 s3.
Proof. unfold finish_frame. intros H1 H2. rewrite H2 at 1. rewrite H1 at 1. reflexivity. Qed.

Create HintDb keeps discriminated.

(** Walks down a task: binds, handlers, the constructors, case analyses
    on the data; an assignment is left to [tac]. *)
Ltac keeps_walk tac :=
  repeat first
    [ solve [eauto 2 with keeps]
    | apply keeps_bind
    | apply keeps_try_catch
    | apply keeps_Ret | apply keeps_Throw | apply keeps_Forever
    | apply keeps_Get | apply keeps_Await | apply keeps_Join | apply keeps_Fork
    | apply keeps_Upd; [intros ?; tac|]
    | match goal with
      | |- keeps _ (match ?x with _ => _ end) => destruct x
      | |- keeps _ (let _ := _ in _) => cbv zeta
      | |- forall _, _ => intros ?
      end ].

Ltac frame_upd := unfold loader_frame; reflexivity.

Lemma loader_frame_fields (s s' : Store) :
  loader_frame s s' ->
  started s' = started s /\ native_navigations s' = native_navigations s
  /\ invalidated s' = invalidated s /\ current s' = current s
  /\ rendered s' = rendered s /\ history s' = history s
  /\ current_history_index s' = current_history_index s
  /\ scroll_positions s' = scroll_positions s /\ token s' = token s
  /\ load_cache s' = load_cache s /\ session_id s' = session_id s.
Proof. intros H. rewrite H. repeat split. Qed.

Lemma forkless_bind :
  forall (A : Type) (t : Task A) (B : Type) (f : A -> Task B),
  forkless t -> (forall x, forkless (f x)) -> forkless (bind t f).
Proof.
  intros A t B f H. revert B f.
  induction H; intros B g Hg; cbn [bind]; try (constructor; auto; fail).
  apply Hg.
Qed.

Lemma forkless_try_catch :
  forall (A : Type) (t : Task A) (h : JsError -> Task A),
  forkless t -> (forall e, forkless (h e)) -> forkless (try_catch t h).
Proof.
  intros A t h H. revert h.
  induction H; intros h Hh; cbn [try_catch]; try (constructor; auto; fail).
  apply Hh.
Qed.

(** A forkless task leaves the promises as they are. *)
Lemma forkless_exec (ans : Answerer) :
  forall (A : Type) (t : Task A), forkless t ->
  forall m, procs (fst (exec ans t m)) = procs m.
Proof.
  intros A t H.
  induction H as [A r|A e|A|A f k Hk IH|A k Hk IH|A w k Hk IH|A p k Hk IH];
    intros m; cbn [exec]; try reflexivity.
  - apply (IH {| store := f (store m); procs := procs m; trace := trace m |}).
  - apply IH.
  - destruct (ans w) as [a|]; [|reflexivity].
    apply (IH a {| store := store m; procs := procs m; trace := trace m ++ [w] |}).
  - destruct (settled (procs m) p) as [x|]; [apply IH | reflexivity].
Qed.

Create HintDb forkless discriminated.

Ltac forkless_walk :=
  repeat first
    [ solve [eauto 2 with forkless]
    | apply forkless_bind
    | apply forkless_try_catch
    | apply forkless_Ret | apply forkless_Throw | apply forkless_Forever
    | apply forkless_Get | apply forkless_Await | apply forkless_Join
    | apply forkless_Upd
    | match goal with
      | |- forkless (match ?x with _ => _ end) => destruct x
      | |- forkless (let _ := _ in _) => cbv zeta
      | |- forall _, _ => intros ?
      end ].

Section Properties.
Context `{E : Env}.

(** *** What a branch load leaves alone *)

Lemma keeps_alloc : keeps loader_frame alloc.
Proof. unfold alloc. keeps_walk frame_upd. Qed.
#[local] Hint Resolve keeps_alloc : keeps.

Lemma keeps_new_error (message : string) : keeps loader_frame (new_error message).
Proof. unfold new_error. keeps_walk frame_upd. Qed.
#[local] Hint Resolve keeps_new_error : keeps.

Lemma keeps_new_stuff (fields : gmap string string) : keeps loader_frame (new_stuff fields).
Proof. unfold new_stuff. keeps_walk frame_upd. Qed.
#[local] Hint Resolve keeps_new_stuff : keeps.

Lemma keeps_or_throw (A : Type) (r : JsError + A) : keeps loader_frame (or_throw r).
Proof. unfold or_throw. keeps_walk frame_upd. Qed.
#[local] Hint Resolve keeps_or_throw : keeps.

Lemma keeps_get_navigation_intent (url : URL) :
  keeps loader_frame (get_navigation_intent url).
Proof. unfold get_navigation_intent, get. keeps_walk frame_upd. Qed.
#[local] Hint Resolve keeps_get_navigation_intent : keeps.

Lemma keeps_load_node status error module url params stuff props routeId :
  keeps loader_frame (load_node status error module url params stuff props routeId).
Proof. unfold load_node, get, await. keeps_walk frame_upd. Qed.
#[local] Hint Resolve keeps_load_node : keeps.

Lemma keeps_result_from_branch url params stuff branch status error routeId :
  keeps loader_frame
    (get_navigation_result_from_branch url params stuff branch status error routeId).
Proof. unfold get_navigation_result_from_branch, get, upd. keeps_walk frame_upd. Qed.
#[local] Hint Resolve keeps_result_from_branch : keeps.

Lemma keeps_load_root_error_page status error url routeId :
  keeps loader_frame (load_root_error_page status error url routeId).
Proof. unfold load_root_error_page, await. keeps_walk frame_upd. Qed.
#[local] Hint Resolve keeps_load_root_error_page : keeps.

Lemma keeps_try_body url params route loader i changed stuff stuff_changed status :
  keeps loader_frame (try_body url params route loader i changed stuff stuff_changed status).
Proof.
  unfold try_body, try_module, fetch_shadow, redirect_result, await, get, fmap, task_fmap.
  keeps_walk frame_upd.
Qed.
#[local] Hint Resolve keeps_try_body : keeps.

Lemma keeps_spread_stuff stuff more : keeps loader_frame (spread_stuff stuff more).
Proof. unfold spread_stuff. keeps_walk frame_upd. Qed.
#[local] Hint Resolve keeps_spread_stuff : keeps.

Lemma keeps_recover url params route i branch stuff status error :
  keeps loader_frame (recover url params route i branch stuff status error).
Proof.
  induction i as [|i IH]; cbn [recover]; [auto with keeps|].
  unfold await. keeps_walk frame_upd.
Qed.
#[local] Hint Resolve keeps_recover : keeps.

Lemma keeps_load_loop url params route rest :
  forall i changed branch stuff stuff_changed status,
  keeps loader_frame
    (load_loop url params route rest i changed branch stuff stuff_changed status).
Proof.
  induction rest as [|[loader|] rest IH]; intros; cbn [load_loop]; keeps_walk frame_upd.
Qed.
#[local] Hint Resolve keeps_load_loop : keeps.

Lemma keeps_load_route intent no_cache : keeps loader_frame (load_route intent no_cache).
Proof.
  unfold load_route, load_route_body, result_of_settled, get, fmap, task_fmap.
  keeps_walk frame_upd.
Qed.
#[local] Hint Resolve keeps_load_route : keeps.

Lemma keeps_update_finish url opts callback navigation_result :
  keeps finish_frame (update_finish url opts callback navigation_result).
Proof.
  unfold update_finish, scrollTo, await, get, upd.
  keeps_walk ltac:(unfold finish_frame; reflexivity).
Qed.

(** *** What the pieces return *)

(** [get_navigation_result_from_branch] always returns, and what it
    returns carries the branch, the error and the status it was given. *)
Lemma result_from_branch_done (ans : Answerer) (m : Machine) url params stuff branch status
    error routeId :
  exists m' r,
    exec ans (get_navigation_result_from_branch url params stuff branch status error routeId) m
    = (m', PDone r)
    /\ res_state r = {| st_url := Some url; st_params := params; st_branch := branch;
                        st_error := error; st_stuff := stuff;
                        st_session_id := session_id (store m) |}
    /\ res_ref r = next_ref (store m)
    /\ (forall p, props_page (res_props r) = Some p ->
          page_status p = status /\ page_error p = error /\ page_url p = url)
    /\ procs m' = procs m /\ trace m' = trace m.
Proof.
  unfold get_navigation_result_from_branch. step.
  destruct ((last _ ≫= node_loaded) ≫= lo_cache) as [c|]; step;
    (eexists _, _; split; [reflexivity|]); cbn; repeat split; auto.
  all: match goal with
       | H : (if ?b then _ else _) = Some _ |- _ => destruct b; inversion H; reflexivity
       end.
Qed.

Lemma spread_stuff_done (ans : Answerer) (m : Machine) (stuff : Stuff) (more : option Stuff) :
  exists m' st, exec ans (spread_stuff stuff more) m = (m', PDone st).
Proof. destruct more; unfold spread_stuff; step; eexists _, _; reflexivity. Qed.

Lemma exec_bind_done (ans : Answerer) (A B : Type) (t : Task A) (f : A -> Task B)
    (m m' : Machine) (r : B) :
  exec ans (bind t f) m = (m', PDone r) ->
  exists m1 x, exec ans t m = (m1, PDone x) /\ exec ans (f x) m1 = (m', PDone r).
Proof.
  rewrite exec_bind. destruct (exec ans t m) as [m1 [x|e| |w k|p k]]; intros H;
    try discriminate. eauto.
Qed.

Lemma alloc_token_fresh (ans : Answerer) (m m' : Machine) (current_token : Ref) :
  exec ans alloc_token m = (m', PDone current_token) ->
  current_token = next_ref (store m)
  /\ next_ref (store m') = S current_token
  /\ token (store m') = current_token.
Proof. unfold alloc_token. step. intros [= <- <-]. repeat split. Qed.

(** When [update] gets the result of its branch load without having been
    interrupted, the token is still its own. *)
Lemma update_begin_token (ans : Answerer) (url : URL) (no_cache : bool) (m m' : Machine)
    (current_token : Ref) (navigation_result : option NavigationResult) :
  exec ans (update_begin url no_cache) m = (m', PDone (current_token, navigation_result)) ->
  token (store m') = current_token.
Proof.
  unfold update_begin. intros H.
  apply exec_bind_done in H as (m1 & intent & _ & H).
  apply exec_bind_done in H as (m2 & tok & Htok & H).
  apply alloc_token_fresh in Htok as (_ & _ & Htok).
  apply exec_bind_done in H as (m3 & r & Hload & H).
  cbn [exec] in H. injection H as <- <- _.
  assert (Hframe : loader_frame (store m2) (store m3)).
  { destruct intent as [intent|].
    - pose proof (keeps_exec loader_frame ans loader_frame_refl loader_frame_trans _ _
                    (keeps_load_route intent no_cache) m2) as [Hf _].
      rewrite Hload in Hf. exact Hf.
    - cbn [exec] in Hload. injection Hload as <- _. apply loader_frame_refl. }
  apply loader_frame_fields in Hframe.
  destruct Hframe as (_ & _ & _ & _ & _ & _ & _ & _ & Ht & _). rewrite Ht. exact Htok.
Qed.

(** An update whose token is no longer the current one returns [false]
    and leaves the store as it is. *)
Lemma stale_update_returns (ans : Answerer) follow current_token url redirect_chain opts
    callback navigation_result (m : Machine) :
  token (store m) ≠ current_token ->
  exec ans (update_loaded follow current_token url redirect_chain opts callback
              (Some navigation_result)) m
  = (m, PDone (Some false)).
Proof.
  intros H. unfold update_loaded. step.
  rewrite bool_decide_eq_false_2 by exact H. reflexivity.
Qed.

(** Wherever [update_commit] stops, the result has been committed. *)
Lemma update_commit_commits (ans : Answerer) url opts callback navigation_result
    (m : Machine) :
  started (store m) = true ->
  let m' := fst (exec ans (update_commit url opts callback navigation_result) m) in
  current (store m') = res_state navigation_result
  /\ rendered (store m')
     = rendered (store m) ++ [res_props (set_page_url url navigation_result)]
  /\ history (store m') = committed_history url opts (store m)
  /\ native_navigations (store m') = native_navigations (store m).
Proof.
  intros Hs. unfold update_commit, committed_history.
  destruct (opts ≫= opt_details) as [details|]; step; rewrite Hs; step.
  all: match goal with |- context [exec ?a ?t ?m0] =>
         destruct (keeps_exec finish_frame a finish_frame_refl finish_frame_trans _ t
                     (keeps_update_finish _ _ _ _) m0) as [-> _] end.
  all: repeat split; reflexivity.
Qed.

(** ** Prefetching *)


(** ** In-flight loads *)

(** C7 (as the code has it): when [load_cache] records a promise for the
    id of the intent, [load_route] awaits that promise and returns what it
    settles to, whether [no_cache] is false or true; no loader is run and
    the store is left as it is.  [no_cache] only decides whether the result
    cache is consulted afterwards. *)
Theorem in_flight_load_is_shared (ans : Answerer) (m : Machine) (intent : NavigationIntent)
    (no_cache : bool) (promise : PromiseId) :
  lc_id (load_cache (store m)) = Some (intent_id intent) ->
  lc_promise (load_cache (store m)) = Some promise ->
  exec ans (load_route intent no_cache) m =
  match settled (procs m) promise with
  | Some outcome => exec ans (result_of_settled outcome) m
  | None => (m, PJoin promise result_of_settled)
  end.
Proof.
  intros Hid Hp. unfold load_route, load_route_body. step.
  rewrite Hid, Hp. rewrite bool_decide_eq_true_2 by reflexivity.
  rewrite bool_decide_eq_true_2 by (eexists; reflexivity).
  step. reflexivity.
Qed.

(** ** Reuse of branch nodes *)

Lemma reuse_condition (previous : BranchNode) (module : Module) (changed : Changed)
    (invalidated : list (string -> bool)) (stuff_changed : bool) :
  changed_since_last_render (Some previous) module changed invalidated stuff_changed = false
  <-> mod_ref module = mod_ref (node_module previous)
      /\ ~ (changed_url changed = true /\ uses_url (node_uses previous) = true)
      /\ (forall param, param ∈ changed_params changed ->
            param ∉ uses_params (node_uses previous))
      /\ ~ (changed_session changed = true /\ uses_session (node_uses previous) = true)
      /\ (forall dep fn, dep ∈ uses_dependencies (node_uses previous) ->
            fn ∈ invalidated -> fn dep = false)
      /\ ~ (stuff_changed = true /\ uses_stuff (node_uses previous) = true).
Proof.
  unfold changed_since_last_render.
  rewrite !orb_false_iff, negb_false_iff, bool_decide_eq_true, !andb_false_iff,
    !existsb_false_iff.
  split.
  - intros (((((Hm & Hu) & Hp) & Hs) & Hd) & Hst). repeat split.
    + exact Hm.
    + intros [H1 H2]. destruct Hu; congruence.
    + intros param Hin. specialize (Hp _ Hin). apply bool_decide_eq_false in Hp. exact Hp.
    + intros [H1 H2]. destruct Hs; congruence.
    + intros dep fn Hdep Hfn. apply elem_of_elements in Hdep.
      specialize (Hd _ Hdep). rewrite existsb_false_iff in Hd. exact (Hd _ Hfn).
    + intros [H1 H2]. destruct Hst; congruence.
  - intros (Hm & Hu & Hp & Hs & Hd & Hst). repeat split.
    + exact Hm.
    + destruct (changed_url changed), (uses_url (node_uses previous)); auto. exfalso; auto.
    + intros param Hin. apply bool_decide_eq_false. exact (Hp _ Hin).
    + destruct (changed_session changed), (uses_session (node_uses previous)); auto.
      exfalso; auto.
    + intros dep Hdep. apply existsb_false_iff. intros fn Hfn.
      apply (Hd dep fn); [apply elem_of_elements; exact Hdep | exact Hfn].
    + destruct stuff_changed, (uses_stuff (node_uses previous)); auto. exfalso; auto.
Qed.

(** A parameter whose value differs from the rendered one is in the
    changed set. *)
Lemma changed_param_is_listed (id : string) (params : gmap string string) (s : Store)
    (current_url : URL) (key : string) :
  st_url (current s) = Some current_url ->
  is_Some (params !! key) ->
  st_params (current s) !! key ≠ params !! key ->
  exists changed,
    compute_changed id params s = Some changed /\ key ∈ changed_params changed.
Proof.
  intros Hu Hk Hne. unfold compute_changed. rewrite Hu. eexists. split; [reflexivity|].
  cbn [changed_params]. apply list_elem_of_filter. split; [exact Hne|].
  apply elem_of_elements, elem_of_dom. exact Hk.
Qed.


(** ** Redirects during a branch load *)


(** ** A [load] function that returns nothing *)


(** ** Navigations that overlap *)


(** ** Redirect loops *)

Lemma forkless_load_node status error module url params stuff props routeId :
  forkless (load_node status error module url params stuff props routeId).
Proof. unfold load_node, new_error, alloc, get, await. forkless_walk. Qed.
#[local] Hint Resolve forkless_load_node : forkless.

Lemma forkless_result_from_branch url params stuff branch status error routeId :
  forkless (get_navigation_result_from_branch url params stuff branch status error routeId).
Proof. unfold get_navigation_result_from_branch, alloc, get, upd. forkless_walk. Qed.
#[local] Hint Resolve forkless_result_from_branch : forkless.

Lemma forkless_load_root_error_page status error url routeId :
  forkless (load_root_error_page status error url routeId).
Proof. unfold load_root_error_page, new_stuff, alloc, or_throw, await. forkless_walk. Qed.
#[local] Hint Resolve forkless_load_root_error_page : forkless.

Lemma forkless_update_commit url opts callback navigation_result :
  forkless (update_commit url opts callback navigation_result).
Proof.
  unfold update_commit, update_finish, initialize, scrollTo, await, get, upd. forkless_walk.
Qed.
#[local] Hint Resolve forkless_update_commit : forkless.

(** What [load_root_error_page] returns carries the error and the status
    it was given. *)
Lemma load_root_error_page_result (ans : Answerer) status error url routeId
    (m m' : Machine) (r : NavigationResult) :
  exec ans (load_root_error_page status error url routeId) m = (m', PDone r) ->
  st_error (res_state r) = Some error
  /\ st_url (res_state r) = Some url
  /\ (forall p, props_page (res_props r) = Some p ->
        page_status p = status /\ page_error p = Some error)
  /\ loader_frame (store m) (store m').
Proof.
  intros H.
  pose proof (keeps_exec loader_frame ans loader_frame_refl loader_frame_trans _ _
                (keeps_load_root_error_page status error url routeId) m) as [Hf _].
  rewrite H in Hf. cbn [fst] in Hf.
  unfold load_root_error_page in H.
  do 7 (apply exec_bind_done in H as (? & ? & _ & H)).
  match type of H with
  | exec _ (get_navigation_result_from_branch ?u ?p ?s ?b ?st ?e ?rid) ?m0 = _ =>
      destruct (result_from_branch_done ans m0 u p s b st e rid)
        as (m2 & r2 & Hr & Hst & _ & Hp & _)
  end.
  rewrite Hr in H. injection H as <- <-.
  rewrite Hst. cbn. split; [reflexivity|]. split; [reflexivity|]. split; [|exact Hf].
  intros p Hpage. destruct (Hp p Hpage) as (? & ? & ?). split; assumption.
Qed.

(** C2: when the branch load of a navigation that has not been
    superseded has given a result with a redirect, and the redirect chain
    has more than 10 entries or already holds the pathname of the URL,
    [update] does not call [goto]: it clears the invalidations, makes the
    error "Redirect loop" and goes on as [load_root_error_page] with
    status 500 and that error, followed by the commit of its result.  No
    promise is created on the way, the result of the root error page
    carries that error and, in [page], status 500, and in a started
    application it is what [current] holds afterwards, with no native
    navigation.  This is also what the whole of [update] does when its
    branch load gives that result without interruption, the token being
    its own then.  A chain of 11 pathnames is longer than 10; and in
    [/a → /b → /a] the chain at the second load of [/a] is [/a; /b],
    which holds [/a]. *)
Theorem redirect_loop_guard (ans : Answerer) (follow : string -> list string -> Task Val)
    (url : URL) (redirect_chain : list string) (opts : option UpdateOpts)
    (callback : option (option URL * URL)) (navigation_result : NavigationResult)
    (current_token : Ref) (m : Machine) :
  token (store m) = current_token ->
  truthy (res_redirect navigation_result) = true ->
  (10 < length redirect_chain)%nat \/ pathname url ∈ redirect_chain ->
  let error := {| err_ref := next_ref (store m); err_message := "Redirect loop" |} in
  let m0 := allocated 1 {| store := set_invalidated [] (store m); procs := procs m;
                           trace := trace m |} in
  let final := exec ans (update_loaded follow current_token url redirect_chain opts callback
                           (Some navigation_result)) m in
  final = exec ans (bind (load_root_error_page (Some 500) error url None)
                      (update_commit url opts callback)) m0
  /\ procs (fst final) = procs m
  /\ (forall m1 r,
        exec ans (load_root_error_page (Some 500) error url None) m0 = (m1, PDone r) ->
        st_error (res_state r) = Some error
        /\ (forall p, props_page (res_props r) = Some p ->
              page_status p = Some 500 /\ page_error p = Some error)
        /\ (started (store m) = true ->
            current (store (fst final)) = res_state r
            /\ native_navigations (store (fst final)) = native_navigations (store m)))
  /\ (forall m_start no_cache,
        exec ans (update_begin url no_cache) m_start
        = (m, PDone (current_token, Some navigation_result)) ->
        exec ans (update_with follow url redirect_chain no_cache opts callback) m_start
        = final).
Proof.
  intros Htoken Hred Hguard error m0 final.
  assert (Hfinal : final = exec ans (bind (load_root_error_page (Some 500) error url None)
                      (update_commit url opts callback)) m0).
  { unfold final, update_loaded. step.
    rewrite bool_decide_eq_true_2 by exact Htoken. cbn [negb].
    unfold update_checked. step. rewrite Hred.
    replace (bool_decide (10 < length redirect_chain)%nat
             || bool_decide (pathname url ∈ redirect_chain)) with true.
    2:{ symmetry. apply orb_true_iff. destruct Hguard as [H|H];
          [left|right]; apply bool_decide_eq_true_2; exact H. }
    step. reflexivity. }
  split; [exact Hfinal|]. split; [|split].
  - rewrite Hfinal. rewrite forkless_exec; [reflexivity|].
    apply forkless_bind; auto with forkless.
  - intros m1 r Hload.
    destruct (load_root_error_page_result ans _ _ _ _ _ _ _ Hload) as (He & _ & Hp & Hf).
    split; [exact He|]. split; [exact Hp|].
    intros Hstarted. rewrite Hfinal, exec_bind, Hload.
    apply loader_frame_fields in Hf as (Hs & Hn & _).
    assert (Hs1 : started (store m1) = true) by (rewrite Hs; exact Hstarted).
    destruct (update_commit_commits ans url opts callback r m1 Hs1) as (H1 & _ & _ & H4).
    split; [exact H1|]. rewrite H4, Hn. reflexivity.
  - intros m_start no_cache Hbegin. unfold update_with. rewrite exec_bind, Hbegin.
    reflexivity.
Qed.

(** ** The result cache (claim C4) *)

Lemma clear_session_subs cc s :
  session_subs (clear cc s) = remove_handle (cc_sub cc) (session_subs s).
Proof.
  unfold clear. destruct (cache s !! cc_key cc) as [r|]; [destruct (bool_decide _)|]; reflexivity.
Qed.

Lemma clear_timers cc s : timers (clear cc s) = remove_handle (cc_timer cc) (timers s).
Proof.
  unfold clear. destruct (cache s !! cc_key cc) as [r|]; [destruct (bool_decide _)|]; reflexivity.
Qed.

Lemma clear_cache cc s :
  cache (clear cc s) =
  match cache s !! cc_key cc with
  | Some r => if bool_decide (res_ref r = cc_result cc) then delete (cc_key cc) (cache s)
              else cache s
  | None => cache s
  end.
Proof.
  unfold clear. destruct (cache s !! cc_key cc) as [r|]; [destruct (bool_decide _)|]; reflexivity.
Qed.

Lemma clear_gone cc s : gone (cc_key cc) (cc_result cc) (clear cc s).
Proof.
  intros r. rewrite clear_cache. destruct (cache s !! cc_key cc) as [r0|] eqn:Hc.
  - destruct (bool_decide (res_ref r0 = cc_result cc)) eqn:Hb.
    + rewrite lookup_delete_eq. discriminate.
    + rewrite Hc. intros [= ->]. apply bool_decide_eq_false in Hb. exact Hb.
  - rewrite Hc. discriminate.
Qed.

Lemma clear_gone_preserved key ref cc s : gone key ref s -> gone key ref (clear cc s).
Proof.
  intros H r. rewrite clear_cache. destruct (cache s !! cc_key cc) as [r0|] eqn:Hc.
  - destruct (bool_decide (res_ref r0 = cc_result cc)).
    + destruct (decide (cc_key cc = key)) as [Hk|Hne].
      * rewrite Hk, lookup_delete_eq. discriminate.
      * rewrite lookup_delete_ne by exact Hne. apply H.
    + apply H.
  - apply H.
Qed.

Lemma clear_cache_keeps cc s key r :
  cache s !! key = Some r -> res_ref r ≠ cc_result cc ->
  cache (clear cc s) !! key = Some r.
Proof.
  intros H Hne. rewrite clear_cache. destruct (cache s !! cc_key cc) as [r0|] eqn:Hc; [|exact H].
  destruct (bool_decide (res_ref r0 = cc_result cc)) eqn:Hb; [|exact H].
  apply bool_decide_eq_true in Hb.
  destruct (decide (cc_key cc = key)) as [Hk|Hk].
  - rewrite Hk, H in Hc. injection Hc as ->. contradiction.
  - rewrite lookup_delete_ne by exact Hk. exact H.
Qed.

Lemma remove_handle_absent {A : Type} (h : nat) (l : list (nat * A)) :
  h ∉ map fst (remove_handle h l).
Proof.
  unfold remove_handle. intros Hin. apply list_elem_of_fmap in Hin as ([h' a] & -> & Hin).
  apply list_elem_of_filter in Hin as [Hne _]. apply Hne. reflexivity.
Qed.

Lemma remove_handle_absent_preserved {A : Type} (h h' : nat) (l : list (nat * A)) :
  h ∉ map fst l -> h ∉ map fst (remove_handle h' l).
Proof.
  unfold remove_handle. intros Hn Hin. apply Hn.
  apply list_elem_of_fmap in Hin as (p & -> & Hin).
  apply list_elem_of_filter in Hin as [_ Hin]. apply list_elem_of_fmap. eauto.
Qed.

(** A property that one step of a fold establishes and every step keeps
    holds after the fold. *)
Lemma fold_left_establishes {X : Type} (P : Store -> Prop) (f : Store -> X -> Store)
    (x0 : X) (l : list X) :
  (forall s x, P s -> P (f s x)) -> (forall s, P (f s x0)) -> x0 ∈ l ->
  forall s, P (fold_left f l s).
Proof.
  intros Hkeep Hest Hin.
  assert (Hall : forall l' s, P s -> P (fold_left f l' s)).
  { induction l' as [|x l' IH]; intros s Hs; cbn; [exact Hs|]. apply IH, Hkeep, Hs. }
  induction l as [|x l IH]; [inversion Hin|]. intros s. cbn.
  apply elem_of_cons in Hin as [<-|Hin].
  - apply Hall, Hest.
  - apply IH, Hin.
Qed.

Lemma fold_left_keeps {X : Type} (P : Store -> Prop) (f : Store -> X -> Store) (l : list X) :
  (forall s x, x ∈ l -> P s -> P (f s x)) ->
  forall s, P s -> P (fold_left f l s).
Proof.
  induction l as [|x l IH]; intros Hkeep s Hs; cbn; [exact Hs|].
  apply IH.
  - intros s' x' Hin. apply Hkeep. right. exact Hin.
  - apply Hkeep; [left | exact Hs].
Qed.

Lemma session_change_evicts (s : Store) (sub : nat) (cc : CacheClear) :
  ((sub, cc) ∈ session_subs s) -> cc_sub cc = sub ->
  let s' := run_session_subscribers s in
  gone (cc_key cc) (cc_result cc) s'
  /\ (sub ∉ map fst (session_subs s'))
  /\ (cc_timer cc ∉ map fst (timers s')).
Proof.
  intros Hin Hsub s'. unfold s', run_session_subscribers. repeat split.
  - apply (fold_left_establishes (gone (cc_key cc) (cc_result cc)) _ (sub, cc));
      [intros; apply clear_gone_preserved; assumption | intros; apply clear_gone | exact Hin].
  - apply (fold_left_establishes (fun s => sub ∉ map fst (session_subs s)) _ (sub, cc));
      [ | | exact Hin].
    + intros s0 x H. rewrite clear_session_subs. apply remove_handle_absent_preserved, H.
    + intros s0. rewrite clear_session_subs. cbn [snd]. rewrite Hsub. apply remove_handle_absent.
  - apply (fold_left_establishes (fun s => cc_timer cc ∉ map fst (timers s)) _ (sub, cc));
      [ | | exact Hin].
    + intros s0 x H. rewrite clear_timers. apply remove_handle_absent_preserved, H.
    + intros s0. rewrite clear_timers. apply remove_handle_absent.
Qed.

Lemma due_timer_evicts (s : Store) (timer : nat) (due : Z) (cc : CacheClear) :
  (timer, (due, cc)) ∈ timers s -> due ≤ clock s ->
  gone (cc_key cc) (cc_result cc) (fire_timers s).
Proof.
  intros Hin Hdue. unfold fire_timers.
  apply (fold_left_establishes (gone (cc_key cc) (cc_result cc)) _ (timer, (due, cc)));
    [ | | exact Hin].
  - intros s0 x H. destruct (bool_decide _); [apply clear_gone_preserved|]; exact H.
  - intros s0. cbn [fst snd]. rewrite bool_decide_eq_true_2 by exact Hdue. apply clear_gone.
Qed.

Lemma timers_not_due_keep (s : Store) (key : string) (r : NavigationResult) :
  cache s !! key = Some r ->
  (forall timer due cc, (timer, (due, cc)) ∈ timers s -> due ≤ clock s ->
     cc_result cc ≠ res_ref r) ->
  cache (fire_timers s) !! key = Some r.
Proof.
  intros Hc Hother. unfold fire_timers.
  apply (fold_left_keeps (fun s0 => cache s0 !! key = Some r)); [|exact Hc].
  intros s0 [timer [due cc]] Hin H. cbn [fst snd].
  destruct (bool_decide (due ≤ clock s)) eqn:Hb; [|exact H].
  apply bool_decide_eq_true in Hb.
  apply clear_cache_keeps; [exact H|]. intros Heq. apply (Hother timer due cc Hin Hb). congruence.
Qed.

Lemma clear_only_deletes cc s key r :
  cache (clear cc s) !! key = Some r -> cache s !! key = Some r.
Proof.
  rewrite clear_cache. destruct (cache s !! cc_key cc) as [r0|]; [|auto].
  destruct (bool_decide _); [|auto].
  intros H. apply lookup_delete_Some in H as [_ H]. exact H.
Qed.

Lemma fire_timers_only_deletes s key r :
  cache (fire_timers s) !! key = Some r -> cache s !! key = Some r.
Proof.
  unfold fire_timers. revert key r.
  apply (fold_left_keeps (fun s0 => forall key r, cache s0 !! key = Some r -> cache s !! key = Some r));
    [|auto].
  intros s0 x _ H key r. destruct (bool_decide _); [|apply H].
  intros Hc. apply H. eapply clear_only_deletes, Hc.
Qed.

Lemma subscribers_only_delete s key r :
  cache (run_session_subscribers s) !! key = Some r -> cache s !! key = Some r.
Proof.
  unfold run_session_subscribers. revert key r.
  apply (fold_left_keeps (fun s0 => forall key r, cache s0 !! key = Some r -> cache s !! key = Some r));
    [|auto].
  intros s0 x _ H key r Hc. apply H. eapply clear_only_deletes, Hc.
Qed.

Lemma clear_load_cache cc s : load_cache (clear cc s) = load_cache s.
Proof.
  unfold clear. destruct (cache s !! cc_key cc) as [r|]; [destruct (bool_decide _)|]; reflexivity.
Qed.

Lemma fire_timers_load_cache s : load_cache (fire_timers s) = load_cache s.
Proof.
  unfold fire_timers.
  apply (fold_left_keeps (fun s0 => load_cache s0 = load_cache s)); [|reflexivity].
  intros s0 x _ H. destruct (bool_decide _); [|exact H]. rewrite clear_load_cache. exact H.
Qed.

Lemma load_route_consults_cache (ans : Answerer) (intent : NavigationIntent) (no_cache : bool) (m : Machine) :
  lc_id (load_cache (store m)) ≠ Some (intent_id intent)
  \/ lc_promise (load_cache (store m)) = None ->
  exec ans (load_route intent no_cache) m =
  match (if no_cache then None else cache (store m) !! intent_id intent) with
  | Some cached => (m, PDone (Some cached))
  | None =>
      exec ans
        (Some <$> load_loop (intent_url intent) (intent_params intent) (intent_route intent)
                    (route_a (intent_route intent)) 0
                    (compute_changed (intent_id intent) (intent_params intent) (store m))
                    [] root_stuff false (Some 200)) m
  end.
Proof.
  intros Hmiss. unfold load_route, load_route_body. step.
  replace (bool_decide (lc_id (load_cache (store m)) = Some (intent_id intent))
           && bool_decide (is_Some (lc_promise (load_cache (store m))))) with false.
  2:{ symmetry. apply andb_false_iff. destruct Hmiss as [H|H].
      - left. apply bool_decide_eq_false_2. exact H.
      - right. apply bool_decide_eq_false_2. rewrite H. intros [? ?]. discriminate. }
  destruct (if no_cache then None else cache (store m) !! intent_id intent); reflexivity.
Qed.


(** ** The invalidation predicates *)

Lemma loader_frame_same_invalidated (s s' : Store) :
  loader_frame s s' -> same_invalidated s s'.
Proof. intros H. apply loader_frame_fields in H. unfold same_invalidated. tauto. Qed.

Lemma finish_frame_same_invalidated (s s' : Store) :
  finish_frame s s' -> same_invalidated s s'.
Proof. intros H. unfold same_invalidated. rewrite H. reflexivity. Qed.

Lemma same_invalidated_stays_cleared (s s' : Store) :
  same_invalidated s s' -> stays_cleared s s'.
Proof. unfold same_invalidated, stays_cleared. congruence. Qed.

Lemma keeps_alloc_token : keeps same_invalidated alloc_token.
Proof. unfold alloc_token, alloc, get, upd. keeps_walk ltac:(reflexivity). Qed.

Lemma keeps_update_begin (url : URL) (no_cache : bool) :
  keeps same_invalidated (update_begin url no_cache).
Proof.
  unfold update_begin.
  apply keeps_bind;
    [apply (keeps_weaken _ _ loader_frame_same_invalidated), keeps_get_navigation_intent|].
  intros intent. apply keeps_bind; [apply keeps_alloc_token|]. intros current_token.
  apply keeps_bind; [|intros; constructor].
  destruct intent; [|constructor].
  apply (keeps_weaken _ _ loader_frame_same_invalidated), keeps_load_route.
Qed.

Lemma stays_cleared_refl (s : Store) : stays_cleared s s.
Proof. intros H. exact H. Qed.

Lemma stays_cleared_trans (s1 s2 s3 : Store) :
  stays_cleared s1 s2 -> stays_cleared s2 s3 -> stays_cleared s1 s3.
Proof. unfold stays_cleared. auto. Qed.

Ltac cleared_upd := unfold stays_cleared; fields; auto.

Lemma cleared_of_loader (A : Type) (t : Task A) :
  keeps loader_frame t -> keeps stays_cleared t.
Proof.
  apply keeps_weaken. intros s s' H.
  apply same_invalidated_stays_cleared, loader_frame_same_invalidated, H.
Qed.

Lemma cleared_update_finish url opts callback navigation_result :
  keeps stays_cleared (update_finish url opts callback navigation_result).
Proof.
  apply (keeps_weaken finish_frame); [|apply keeps_update_finish].
  intros s s' H. apply same_invalidated_stays_cleared, finish_frame_same_invalidated, H.
Qed.
#[local] Hint Resolve cleared_update_finish : keeps.

Lemma cleared_load_root_error_page status error url routeId :
  keeps stays_cleared (load_root_error_page status error url routeId).
Proof. apply cleared_of_loader, keeps_load_root_error_page. Qed.
#[local] Hint Resolve cleared_load_root_error_page : keeps.

Lemma cleared_new_error message : keeps stays_cleared (new_error message).
Proof. apply cleared_of_loader, keeps_new_error. Qed.
#[local] Hint Resolve cleared_new_error : keeps.

Lemma cleared_update_begin url no_cache : keeps stays_cleared (update_begin url no_cache).
Proof.
  apply (keeps_weaken same_invalidated); [|apply keeps_update_begin].
  apply same_invalidated_stays_cleared.
Qed.
#[local] Hint Resolve cleared_update_begin : keeps.

Lemma cleared_update_commit url opts callback navigation_result :
  keeps stays_cleared (update_commit url opts callback navigation_result).
Proof.
  unfold update_commit, initialize, get, upd. keeps_walk cleared_upd.
Qed.
#[local] Hint Resolve cleared_update_commit : keeps.

Lemma cleared_update_checked follow url redirect_chain opts callback navigation_result :
  (forall href chain, keeps stays_cleared (follow href chain)) ->
  keeps stays_cleared (update_checked follow url redirect_chain opts callback navigation_result).
Proof.
  intros Hfollow.
  unfold update_checked, native_navigation, await, get, upd, or_throw.
  keeps_walk cleared_upd.
Qed.

Lemma cleared_update_with follow url redirect_chain no_cache opts callback :
  (forall href chain, keeps stays_cleared (follow href chain)) ->
  keeps stays_cleared (update_with follow url redirect_chain no_cache opts callback).
Proof.
  intros Hfollow. pose proof (cleared_update_checked follow) as Hchecked.
  unfold update_with, update_loaded, native_navigation, get, fmap, task_fmap.
  keeps_walk cleared_upd.
Qed.

Lemma cleared_goto_with update url opts redirect_chain :
  (forall url chain no_cache opts callback,
      keeps stays_cleared (update url chain no_cache opts callback)) ->
  keeps stays_cleared (goto_with update url opts redirect_chain).
Proof.
  intros Hupdate.
  unfold goto_with, navigate_with, native_navigation, update_scroll_positions, get, upd.
  keeps_walk cleared_upd.
Qed.

Lemma cleared_update_rec (hops : nat) :
  forall url redirect_chain no_cache opts callback,
  keeps stays_cleared (update_rec hops url redirect_chain no_cache opts callback).
Proof.
  induction hops as [|hops IH]; intros; cbn [update_rec]; apply cleared_update_with.
  - intros; constructor.
  - intros href chain. unfold fmap, task_fmap. apply keeps_bind; [|intros; constructor].
    apply cleared_goto_with, IH.
Qed.

Lemma cleared_goto url opts redirect_chain :
  keeps stays_cleared (goto url opts redirect_chain).
Proof. apply cleared_goto_with. intros. apply cleared_update_rec. Qed.


(** ** The history index *)

Lemma slot_saved_refl (s : Store) : slot_saved s s.
Proof. split; [reflexivity | split; [apply union_subseteq_l | reflexivity]]. Qed.

Lemma slot_saved_trans (s1 s2 s3 : Store) :
  slot_saved s1 s2 -> slot_saved s2 s3 -> slot_saved s1 s3.
Proof.
  intros (Hi & Hd & Hh) (Hi' & Hd' & Hh'). split; [congruence|]. split; [|congruence].
  rewrite Hi in Hd'.
  intros i Hin. apply Hd' in Hin. apply elem_of_union in Hin as [Hin|Hin]; [auto|].
  apply elem_of_union. right. exact Hin.
Qed.

Lemma index_kept_refl (s : Store) : index_kept s s.
Proof. repeat split. Qed.

Lemma index_kept_trans (s1 s2 s3 : Store) :
  index_kept s1 s2 -> index_kept s2 s3 -> index_kept s1 s3.
Proof. intros (Hi & Hd & Hh) (Hi' & Hd' & Hh'). repeat split; congruence. Qed.

Lemma slot_saved_one_step (s s' : Store) : slot_saved s s' -> one_step s s'.
Proof. intros (Hi & Hd & Hh). split; [lia | split; [exact Hd | rewrite Hh; lia]]. Qed.

Lemma saved_then_step (s1 s2 s3 : Store) :
  slot_saved s1 s2 -> one_step s2 s3 -> one_step s1 s3.
Proof.
  intros (Hi & Hd & Hh) (Hi' & Hd' & Hh'). rewrite Hi in Hi', Hd'. rewrite Hh in Hh'.
  split; [lia|]. split; [|exact Hh'].
  intros i Hin. apply Hd' in Hin. apply elem_of_union in Hin as [Hin|Hin]; [auto|].
  apply elem_of_union. right. exact Hin.
Qed.

Lemma step_then_kept (s1 s2 s3 : Store) :
  one_step s1 s2 -> index_kept s2 s3 -> one_step s1 s3.
Proof.
  intros (Hi & Hd & Hh) (Hi' & Hd' & Hh'). unfold one_step. rewrite Hi', Hd', Hh'.
  split; [exact Hi | split; [exact Hd | exact Hh]].
Qed.

Lemma runs_weaken (R R' : Store -> Store -> Prop) (A : Type) (t : Task A) :
  (forall s s', R s s' -> R' s s') -> runs R t -> runs R' t.
Proof. intros HR H ans m. apply HR, H. Qed.

Lemma runs_keeps (R : Store -> Store -> Prop) (A : Type) (t : Task A) :
  (forall s, R s s) -> (forall s1 s2 s3, R s1 s2 -> R s2 s3 -> R s1 s3) ->
  keeps R t -> runs R t.
Proof. intros Hrefl Htrans H ans m. apply (keeps_exec R ans Hrefl Htrans _ t H m). Qed.

Lemma runs_bind (R1 R2 R3 : Store -> Store -> Prop) (A B : Type) (t : Task A)
    (f : A -> Task B) :
  (forall s s', R1 s s' -> R3 s s') ->
  (forall s1 s2 s3, R1 s1 s2 -> R2 s2 s3 -> R3 s1 s3) ->
  runs R1 t -> (forall x, runs R2 (f x)) -> runs R3 (bind t f).
Proof.
  intros Hincl Hcomp Ht Hf ans m. rewrite exec_bind. specialize (Ht ans m).
  destruct (exec ans t m) as [m1 [x|e| |w k|p k]]; cbn [fst] in *;
    [eapply Hcomp; [exact Ht | apply Hf] | apply Hincl, Ht ..].
Qed.

Lemma runs_Fork (R1 R2 R3 : Store -> Store -> Prop) (A : Type) (t : Task Val)
    (k : PromiseId -> Task A) :
  (forall s1 s2 s3, R1 s1 s2 -> R2 s2 s3 -> R3 s1 s3) ->
  runs R1 t -> (forall p, runs R2 (k p)) -> runs R3 (Fork t k).
Proof.
  intros Hcomp Ht Hk ans m. cbn [exec]. specialize (Ht ans m).
  destruct (exec ans t m) as [m1 p1]. cbn [fst] in Ht.
  eapply Hcomp; [exact Ht|].
  apply (Hk _ ans {| store := store m1; procs := procs m1 ++ [p1]; trace := trace m1 |}).
Qed.

Lemma runs_Get (R : Store -> Store -> Prop) (A : Type) (k : Store -> Task A) :
  (forall s, runs R (k s)) -> runs R (Get k).
Proof. intros H ans m. apply H. Qed.

Ltac saved_upd :=
  unfold slot_saved, update_scroll_positions; fields;
  split;
    [ reflexivity
    | split;
      [ first [ apply union_subseteq_l
              | rewrite dom_insert; apply union_least;
                [apply union_subseteq_r | apply union_subseteq_l] ]
      | reflexivity ] ].

Lemma saved_of_loader (A : Type) (t : Task A) : keeps loader_frame t -> keeps slot_saved t.
Proof.
  apply keeps_weaken. intros s s' H. apply loader_frame_fields in H.
  destruct H as (_ & _ & _ & _ & _ & Hh & Hi & Hs & _).
  split; [exact Hi | split; [rewrite Hs; apply union_subseteq_l | exact Hh]].
Qed.

Lemma kept_update_finish url opts callback navigation_result :
  keeps index_kept (update_finish url opts callback navigation_result).
Proof.
  apply (keeps_weaken finish_frame); [|apply keeps_update_finish].
  intros s s' H. rewrite H. repeat split.
Qed.

(** The commit: the index grows by one for a pushed entry and not at all
    for a replaced one or without details; the scroll position map is
    not touched, and what is left to do after the commit touches
    neither. *)
Lemma update_commit_index (ans : Answerer) url opts callback navigation_result (m : Machine) :
  let m' := fst (exec ans (update_commit url opts callback navigation_result) m) in
  current_history_index (store m')
  = current_history_index (store m)
    + match opts ≫= opt_details with
      | Some details => if details_replaceState details then 0 else 1
      | None => 0
      end
  /\ scroll_positions (store m') = scroll_positions (store m)
  /\ history (store m') = committed_history url opts (store m)
  /\ paused_keeps index_kept
       (snd (exec ans (update_commit url opts callback navigation_result) m)).
Proof.
  unfold update_commit, committed_history, initialize.
  destruct (opts ≫= opt_details) as [details|]; step;
    destruct (started (store m)); step;
    try destruct (router_enabled (store m)); step.
  all: match goal with |- context [exec ?a ?t ?m0] =>
         destruct (keeps_exec index_kept a index_kept_refl index_kept_trans _ t
                     (kept_update_finish _ _ _ _) m0) as [(-> & -> & _) Hp];
         destruct (keeps_exec finish_frame a finish_frame_refl finish_frame_trans _ t
                     (keeps_update_finish _ _ _ _) m0) as [-> _]
       end.
  all: repeat split; fields; try reflexivity; try exact Hp; try lia.
Qed.

Lemma commit_is_one_step url opts callback navigation_result :
  runs one_step (update_commit url opts callback navigation_result).
Proof.
  intros ans m.
  destruct (update_commit_index ans url opts callback navigation_result m)
    as (Hi & Hs & Hh & _).
  split; [|split; [rewrite Hs; apply union_subseteq_l|]].
  - rewrite Hi. destruct (opts ≫= opt_details) as [details|];
      [destruct (details_replaceState details)|]; lia.
  - rewrite Hh. unfold committed_history, history_length.
    destruct (opts ≫= opt_details) as [details|];
      [destruct (details_replaceState details)|]; cbn; lia.
Qed.

Lemma saved_runs (A : Type) (t : Task A) : keeps slot_saved t -> runs slot_saved t.
Proof. apply runs_keeps; [apply slot_saved_refl | apply slot_saved_trans]. Qed.

Lemma saved_then_runs (A B : Type) (t : Task A) (f : A -> Task B) :
  keeps slot_saved t -> (forall x, runs one_step (f x)) -> runs one_step (bind t f).
Proof.
  intros Ht. apply (runs_bind slot_saved one_step one_step);
    [apply slot_saved_one_step | apply saved_then_step | apply saved_runs, Ht].
Qed.

Lemma saved_is_step (A : Type) (t : Task A) : keeps slot_saved t -> runs one_step t.
Proof. intros H. eapply runs_weaken; [apply slot_saved_one_step | apply saved_runs, H]. Qed.

Lemma saved_alloc_token : keeps slot_saved alloc_token.
Proof. unfold alloc_token, alloc, get, upd. keeps_walk saved_upd. Qed.

Lemma saved_update_begin url no_cache : keeps slot_saved (update_begin url no_cache).
Proof.
  unfold update_begin.
  apply keeps_bind; [apply saved_of_loader, keeps_get_navigation_intent|].
  intros intent. apply keeps_bind; [apply saved_alloc_token|]. intros current_token.
  apply keeps_bind; [|intros; constructor].
  destruct intent; [|constructor]. apply saved_of_loader, keeps_load_route.
Qed.

Lemma saved_native_navigation (A : Type) (url : URL) :
  keeps slot_saved (@native_navigation A url).
Proof. unfold native_navigation. keeps_walk saved_upd. Qed.

Lemma step_update_checked follow url redirect_chain opts callback navigation_result :
  (forall href chain, runs one_step (follow href chain)) ->
  runs one_step (update_checked follow url redirect_chain opts callback navigation_result).
Proof.
  intros Hfollow. unfold update_checked.
  apply saved_then_runs; [unfold upd; keeps_walk saved_upd|]. intros _.
  destruct (truthy (res_redirect navigation_result)).
  - destruct (_ || _).
    + apply saved_then_runs; [apply saved_of_loader, keeps_new_error|]. intros error.
      apply saved_then_runs; [apply saved_of_loader, keeps_load_root_error_page|].
      intros r. apply commit_is_one_step.
    + apply runs_Get. intros s. destruct (router_enabled s).
      * apply (runs_Fork one_step index_kept one_step);
          [apply step_then_kept | apply Hfollow |].
        intros p ans m. apply index_kept_refl.
      * apply saved_is_step, saved_native_navigation.
  - destruct (status_ge_400 navigation_result); [|apply commit_is_one_step].
    apply saved_then_runs.
    { unfold await, or_throw. keeps_walk saved_upd. }
    intros updated. apply saved_then_runs; [|intros; apply commit_is_one_step].
    destruct updated; [apply saved_native_navigation | constructor].
Qed.

Lemma step_update_with follow url redirect_chain no_cache opts callback :
  (forall href chain, runs one_step (follow href chain)) ->
  runs one_step (update_with follow url redirect_chain no_cache opts callback).
Proof.
  intros Hfollow. unfold update_with.
  apply saved_then_runs; [apply saved_update_begin|]. intros [current_token result].
  cbn [fst snd]. unfold update_loaded. apply runs_Get. intros s.
  apply saved_then_runs.
  { destruct result; [constructor|]. destruct (_ && _); [|constructor].
    apply keeps_bind; [apply saved_of_loader, keeps_new_error|]. intros error.
    unfold fmap, task_fmap.
    apply keeps_bind; [apply saved_of_loader, keeps_load_root_error_page|].
    intros; constructor. }
  intros [r|]; [|apply saved_is_step, saved_native_navigation].
  apply runs_Get. intros s'. destruct (negb _).
  - intros ans m. apply slot_saved_one_step, slot_saved_refl.
  - apply step_update_checked, Hfollow.
Qed.

Lemma step_goto_with update url opts redirect_chain :
  (forall url chain no_cache opts callback,
      runs one_step (update url chain no_cache opts callback)) ->
  runs one_step (goto_with update url opts redirect_chain).
Proof.
  intros Hupdate. unfold goto_with. apply runs_Get. intros s.
  destruct (router_enabled s); [|apply saved_is_step, saved_native_navigation].
  unfold navigate_with. apply runs_Get. intros s1.
  destruct (existsb _ _).
  { apply saved_is_step. unfold upd. keeps_walk saved_upd. }
  cbv zeta.
  apply saved_then_runs; [unfold upd; keeps_walk saved_upd|]. intros _.
  apply saved_then_runs; [unfold upd; keeps_walk saved_upd|]. intros _.
  apply runs_Get. intros s2.
  apply saved_then_runs; [destruct (started s2); unfold upd; keeps_walk saved_upd|].
  intros _.
  apply (runs_bind one_step index_kept one_step);
    [auto | apply step_then_kept | apply Hupdate |].
  intros x ans m. apply index_kept_refl.
Qed.

Lemma step_update_rec (hops : nat) :
  forall url redirect_chain no_cache opts callback,
  runs one_step (update_rec hops url redirect_chain no_cache opts callback).
Proof.
  induction hops as [|hops IH]; intros; cbn [update_rec]; apply step_update_with.
  - intros href chain ans m. apply slot_saved_one_step, slot_saved_refl.
  - intros href chain. unfold fmap, task_fmap.
    apply (runs_bind one_step index_kept one_step);
      [auto | apply step_then_kept | apply step_goto_with, IH |].
    intros x ans m. apply index_kept_refl.
Qed.

Lemma kept_runs (A : Type) (t : Task A) : keeps index_kept t -> runs index_kept t.
Proof. apply runs_keeps; [apply index_kept_refl | apply index_kept_trans]. Qed.

Lemma kept_then_runs (A B : Type) (t : Task A) (f : A -> Task B) :
  keeps index_kept t -> (forall x, runs index_kept (f x)) -> runs index_kept (bind t f).
Proof.
  intros Ht. apply (runs_bind index_kept index_kept index_kept);
    [auto | apply index_kept_trans | apply kept_runs, Ht].
Qed.

Lemma kept_of_loader (A : Type) (t : Task A) : keeps loader_frame t -> keeps index_kept t.
Proof.
  apply keeps_weaken. intros s s' H. apply loader_frame_fields in H.
  destruct H as (_ & _ & _ & _ & _ & Hh & Hi & Hs & _).
  split; [exact Hi | split; [exact Hs | rewrite Hh; reflexivity]].
Qed.

Lemma kept_native_navigation (A : Type) (url : URL) :
  keeps index_kept (@native_navigation A url).
Proof. unfold native_navigation. keeps_walk ltac:(repeat split). Qed.

Lemma replace_commit_keeps_index url opts callback navigation_result details :
  opts ≫= opt_details = Some details -> details_replaceState details = true ->
  runs index_kept (update_commit url opts callback navigation_result).
Proof.
  intros Hd Hr ans m.
  destruct (update_commit_index ans url opts callback navigation_result m)
    as (Hi & Hs & Hh & _).
  rewrite Hd, Hr in Hi. split; [rewrite Hi; lia | split; [exact Hs|]].
  rewrite Hh. unfold committed_history. rewrite Hd, Hr. reflexivity.
Qed.

(** Claim C8.  A call of [goto], with [replaceState] or without, moves
    the history index up by one step at most, redirects it follows
    included, and adds no slot to the scroll position map other than the
    one of the index it started from.  At the commit the index grows by
    one for a pushed entry and not at all for a replaced one, the entry
    written carries that index, a replaced entry leaves the length of the
    history as it is, and nothing after the commit touches the index or
    the map.  So an update with [replaceState] details whose result is
    not a redirect leaves the index and the map as they were, and the
    slot the next navigation saves its scroll position to is the one the
    previous navigation wrote. *)
Theorem replace_state_keeps_history_index (ans : Answerer) (m : Machine) (url : URL)
    (opts : option UpdateOpts) (callback : option (option URL * URL))
    (navigation_result : NavigationResult) (details : Details) :
  (forall href goto_opts chain,
      one_step (store m) (store (fst (exec ans (goto href goto_opts chain) m))))
  /\ (opts ≫= opt_details = Some details ->
      let m' := fst (exec ans (update_commit url opts callback navigation_result) m) in
      current_history_index (store m')
      = current_history_index (store m) + (if details_replaceState details then 0 else 1)
      /\ scroll_positions (store m') = scroll_positions (store m)
      /\ history (store m')
         = (if details_replaceState details then replaceState else pushState)
             {| he_state := details_state details;
                he_index := Some (current_history_index (store m'));
                he_url := url |} (history (store m))
      /\ (details_replaceState details = true ->
           history_length (history (store m')) = history_length (history (store m)))
      /\ paused_keeps index_kept
           (snd (exec ans (update_commit url opts callback navigation_result) m)))
  /\ (opts ≫= opt_details = Some details ->
      details_replaceState details = true ->
      truthy (res_redirect navigation_result) = false ->
      forall follow current_token redirect_chain,
      index_kept (store m)
        (store (fst (exec ans (update_loaded follow current_token url redirect_chain opts
                                 callback (Some navigation_result)) m))))
  /\ (forall s s',
        index_kept (update_scroll_positions (current_history_index s) s) s' ->
        dom (scroll_positions (update_scroll_positions (current_history_index s') s'))
        = dom (scroll_positions (update_scroll_positions (current_history_index s) s))).
Proof.
  split; [|split; [|split]].
  - intros href goto_opts chain. apply step_goto_with. intros. apply step_update_rec.
  - intros Hd m'.
    destruct (update_commit_index ans url opts callback navigation_result m)
      as (Hi & Hs & Hh & Hp).
    fold m' in Hi, Hs, Hh. rewrite Hd in Hi.
    split; [exact Hi|]. split; [exact Hs|]. split; [|split; [|exact Hp]].
    + rewrite Hh, Hi. unfold committed_history. rewrite Hd. reflexivity.
    + intros Hr. rewrite Hh. unfold committed_history. rewrite Hd, Hr. reflexivity.
  - intros Hd Hr Hredirect follow current_token redirect_chain.
    assert (K : runs index_kept
                  (update_loaded follow current_token url redirect_chain opts callback
                     (Some navigation_result))); [|apply K].
    unfold update_loaded. apply runs_Get. intros s. cbn [bind].
    apply runs_Get. intros s'. destruct (negb _); [intros a m0; apply index_kept_refl|].
    unfold update_checked.
    apply kept_then_runs; [unfold upd; keeps_walk ltac:(repeat split)|]. intros _.
    rewrite Hredirect.
    destruct (status_ge_400 navigation_result);
      [|eapply replace_commit_keeps_index; eassumption].
    apply kept_then_runs.
    { unfold await, or_throw. keeps_walk ltac:(repeat split). }
    intros updated. apply kept_then_runs;
      [|intros; eapply replace_commit_keeps_index; eassumption].
    destruct updated; [apply kept_native_navigation | constructor].
  - intros s s' (Hi & Hs & _). unfold update_scroll_positions in *. revert Hi Hs. fields.
    intros Hi Hs. rewrite Hi, Hs, !dom_insert_L.
    apply set_eq. intros i. rewrite !elem_of_union. tauto.
Qed.

(** ** Navigations that do not happen *)

(** No intent: another origin, a path outside [base], or a path no route
    matches. *)
Lemma intent_none (ans : Answerer) (m : Machine) (url : URL) :
  origin url ≠ origin (location (store m))
  \/ String.prefix base (pathname url) = false
  \/ (exists path,
        decodeURI (if bool_decide (slice_from (String.length base) (pathname url) = "")
                   then "/" else slice_from (String.length base) (pathname url)) = Some path
        /\ Forall (fun route => route_exec route path = None) routes) ->
  exec ans (get_navigation_intent url) m = (m, PDone None).
Proof.
  intros H. unfold get_navigation_intent. step.
  destruct H as [H|[H|(path & Hd & Hr)]].
  - rewrite bool_decide_eq_false_2 by exact H. reflexivity.
  - rewrite H. rewrite orb_true_r. reflexivity.
  - destruct (negb _ || negb _); [reflexivity|].
    rewrite Hd. rewrite (find_route_none _ _ Hr). reflexivity.
Qed.

(** A navigation a [before_navigate] callback cancels changes nothing but
    what [blocked] does: the scroll position is not saved, [accepted] is
    not called, no token is taken, nothing is awaited.  For [goto], whose
    [blocked] does nothing, the machine is as before. *)
Theorem cancelled_navigation_changes_nothing (ans : Answerer) (m : Machine) (url : URL)
    (scroll : option ScrollPosition) (keepfocus : bool) (redirect_chain : list string)
    (details : option Details) (accepted blocked : Store -> Store) (href : string)
    (opts : GotoOpts) :
  (existsb (fun fn => fn (st_url (current (store m))) url) (before_navigate (store m)) = true ->
   exec ans (navigate url scroll keepfocus redirect_chain details accepted blocked) m
   = ({| store := blocked (store m); procs := procs m; trace := trace m |}, PDone tt))
  /\ (router_enabled (store m) = true ->
      existsb (fun fn => fn (st_url (current (store m)))
                           (url_resolve href (base_uri (store m))))
        (before_navigate (store m)) = true ->
      exec ans (goto href opts redirect_chain) m = (m, PDone tt)).
Proof.
  split.
  - intros Hb. unfold navigate, navigate_with. step. rewrite Hb. step. reflexivity.
  - intros Hr Hb. unfold goto, goto_with. step. rewrite Hr.
    unfold navigate_with. step. rewrite Hb. step. reflexivity.
Qed.

(** The full page load: [goto] with the router disabled, and [update] for
    a URL that is not the app's and is not the page's own address, assign
    [location.href] and never resolve; nothing is committed: no history
    entry, nothing rendered, [current] as it was.  [update] has taken a
    token by then. *)
Theorem full_page_load_commits_nothing (ans : Answerer) (m : Machine) (url : URL)
    (href : string) (opts : GotoOpts) (redirect_chain : list string) (no_cache : bool)
    (update_opts : option UpdateOpts) (callback : option (option URL * URL))
    (follow : string -> list string -> Task Val) :
  (router_enabled (store m) = false ->
   exec ans (goto href opts redirect_chain) m
   = ({| store := set_native_navigations
                    (native_navigations (store m) ++ [url_resolve href (base_uri (store m))])
                    (store m);
         procs := procs m; trace := trace m |}, PNever))
  /\ ((origin url ≠ origin (location (store m))
       \/ String.prefix base (pathname url) = false
       \/ (exists path,
             decodeURI (if bool_decide (slice_from (String.length base) (pathname url) = "")
                        then "/" else slice_from (String.length base) (pathname url))
             = Some path
             /\ Forall (fun route => route_exec route path = None) routes)) ->
      ~ (origin url = origin (location (store m))
         /\ pathname url = pathname (location (store m))) ->
      exec ans (update_with follow url redirect_chain no_cache update_opts callback) m
      = ({| store := set_native_navigations (native_navigations (store m) ++ [url])
                       (set_token (next_ref (store m))
                          (set_next_ref (S (next_ref (store m))) (store m)));
            procs := procs m; trace := trace m |}, PNever)).
Proof.
  split.
  - intros Hr. unfold goto, goto_with. step. rewrite Hr. reflexivity.
  - intros Hnone Hother. unfold update_with, update_begin.
    rewrite !exec_bind, (intent_none ans m url Hnone).
    unfold alloc_token. step. unfold update_loaded. step.
    replace (bool_decide (origin url = origin (location (store m)))
             && bool_decide (pathname url = pathname (location (store m)))) with false.
    2:{ symmetry. apply andb_false_iff.
        destruct (decide (origin url = origin (location (store m)))) as [Ho|Ho].
        - right. apply bool_decide_eq_false_2. intros Hp. apply Hother. split; assumption.
        - left. apply bool_decide_eq_false_2. exact Ho. }
    step. reflexivity.
Qed.

(** ** The end of an update *)

(** Where the window is scrolled to at the end of an update for [url]
    with [opts], when scroll handling has not been disabled. *)
Lemma update_finish_completes (ans : Answerer) url opts callback navigation_result
    (m : Machine) :
  ans WTick = Some tt ->
  exists m',
    exec ans (update_finish url opts callback navigation_result) m = (m', PDone None)
    /\ updating (store m') = false
    /\ autoscroll (store m') = true
    /\ load_cache (store m') = {| lc_id := None; lc_promise := None |}
    /\ router_enabled (store m')
       = negb (bool_decide
                 ((mjoin (last (st_branch (res_state navigation_result)))
                     ≫= fun n => mod_router (node_module n)) = Some false))
    /\ page (store m')
       = match props_page (res_props navigation_result) with
         | Some p => Some p
         | None => page (store m)
         end
    /\ window_scroll (store m')
       = (if autoscroll (store m) then
            match opts with
            | Some o => scroll_target url o
            | None => window_scroll (store m)
            end
          else window_scroll (store m))
    /\ after_navigate_calls (store m')
       = after_navigate_calls (store m) ++ match callback with Some n => [n] | None => [] end
    /\ (is_Some callback -> navigating (store m') = None)
    /\ procs m' = procs m
    /\ trace m' = trace m ++ [WTick].
Proof.
  intros Htick. unfold update_finish, scroll_target, scrollTo.
  destruct opts as [o|]; step; rewrite Htick; step.
  - destruct (autoscroll (store m)) eqn:Ha; step.
    + destruct (opt_scroll o) as [p|]; step.
      * destruct (props_page (res_props navigation_result)) as [p'|], callback as [n|]; step;
          (eexists; split; [reflexivity|]); fields;
          repeat split; try reflexivity; try (rewrite app_nil_r; reflexivity);
          try (intros [? ?]; discriminate).
      * destruct (if negb (bool_decide (hash url = "")) then _ else None) as [d|]; step;
          destruct (props_page (res_props navigation_result)) as [p'|], callback as [n|]; step;
          (eexists; split; [reflexivity|]); fields;
          repeat split; try reflexivity; try (rewrite app_nil_r; reflexivity);
          try (intros [? ?]; discriminate).
    + destruct (props_page (res_props navigation_result)) as [p'|], callback as [n|]; step;
        (eexists; split; [reflexivity|]); fields;
        repeat split; try reflexivity; try (rewrite app_nil_r; reflexivity);
        try (intros [? ?]; discriminate).
  - destruct (props_page (res_props navigation_result)) as [p'|], callback as [n|]; step;
      (eexists; split; [reflexivity|]); fields;
      repeat split; try reflexivity; try (rewrite app_nil_r; reflexivity);
      try (destruct (autoscroll (store m)); reflexivity);
      try (intros [? ?]; discriminate).
Qed.

Lemma finish_frame_fields (s s' : Store) :
  finish_frame s s' ->
  started s' = started s /\ current s' = current s /\ rendered s' = rendered s
  /\ history s' = history s /\ current_history_index s' = current_history_index s
  /\ token s' = token s /\ cache s' = cache s /\ invalidated s' = invalidated s.
Proof. intros H. rewrite H. repeat split. Qed.

Lemma set_page_url_state (url : URL) (r : NavigationResult) :
  res_state (set_page_url url r) = res_state r.
Proof. unfold set_page_url. destruct (props_page (res_props r)); reflexivity. Qed.

(** When the commit of an update is through, the application is started
    and shows the state of the result; no update is in progress any more,
    the record of the load in flight is dropped, scroll handling is on
    again, and the router is enabled unless the module of the leaf has
    [router = false].  The result has been rendered once, and the only
    event awaited on the way is the [tick]. *)
Theorem completed_update_resets (ans : Answerer) (url : URL) (opts : option UpdateOpts)
    (callback : option (option URL * URL)) (navigation_result : NavigationResult)
    (m : Machine) :
  ans WTick = Some tt ->
  exists m',
    exec ans (update_commit url opts callback navigation_result) m = (m', PDone None)
    /\ started (store m') = true
    /\ current (store m') = res_state navigation_result
    /\ updating (store m') = false
    /\ autoscroll (store m') = true
    /\ load_cache (store m') = {| lc_id := None; lc_promise := None |}
    /\ router_enabled (store m')
       = negb (bool_decide
                 ((mjoin (last (st_branch (res_state navigation_result)))
                     ≫= fun n => mod_router (node_module n)) = Some false))
    /\ (is_Some callback -> navigating (store m') = None)
    /\ length (rendered (store m')) = S (length (rendered (store m)))
    /\ procs m' = procs m
    /\ trace m' = trace m ++ [WTick].
Proof.
  intros Htick. unfold update_commit, initialize.
  destruct (opts ≫= opt_details) as [details|]; step;
    destruct (started (store m)) eqn:Hs; step;
    try destruct (router_enabled (store m)); step.
  all: match goal with |- context [exec ?a (update_finish ?u ?o ?c ?r) ?m0] =>
         destruct (update_finish_completes a u o c r m0 Htick)
           as (m' & Heq & Hu & Ha & Hl & Hr & _ & _ & _ & Hn & Hp & Ht);
         destruct (keeps_exec finish_frame a finish_frame_refl finish_frame_trans _ _
                     (keeps_update_finish u o c r) m0) as [Hf _];
         rewrite Heq in Hf |- *; cbn [fst] in Hf;
         apply finish_frame_fields in Hf; destruct Hf as (Hst & Hc & Hrd & _);
         rewrite ?set_page_url_state in Hr; cbn [procs trace] in Hp, Ht
       end.
  all: exists m'; split; [reflexivity|]; rewrite Hst, Hc, Hrd.
  all: split; [fields; first [reflexivity | exact Hs]|].
  all: split; [reflexivity|]; split; [exact Hu|].
  all: split; [exact Ha|]; split; [exact Hl|]; split; [exact Hr|].
  all: split; [exact Hn|]; split; [fields; rewrite length_app; cbn; lia|].
  all: split; [exact Hp | exact Ht].
Qed.

(** [disable_scroll_handling] takes effect while an update is in
    progress and before the application has started: scroll handling is
    then off, and the end of the update leaves the window where it is and
    turns scroll handling on again.  With scroll handling on, it scrolls
    to the position asked for, else to the element the hash names, else to
    the top.  Called at another time it does nothing, and in development
    throws. *)
Theorem disabled_scroll_lasts_one_update (ans : Answerer) (dev : bool) (url : URL)
    (opts : UpdateOpts) (callback : option (option URL * URL))
    (navigation_result : NavigationResult) (m : Machine) :
  (updating (store m) = true \/ started (store m) = false ->
   exec ans (disable_scroll_handling dev) m
   = ({| store := set_autoscroll false (store m); procs := procs m; trace := trace m |},
      PDone tt))
  /\ (updating (store m) = false -> started (store m) = true ->
      exec ans (disable_scroll_handling dev) m
      = if dev
        then (allocated 1 m,
              PThrew {| err_ref := next_ref (store m);
                        err_message := "Can only disable scroll handling during navigation" |})
        else (m, PDone tt))
  /\ (ans WTick = Some tt ->
      let m' := fst (exec ans (update_finish url (Some opts) callback navigation_result) m) in
      window_scroll (store m')
      = (if autoscroll (store m) then scroll_target url opts else window_scroll (store m))
      /\ autoscroll (store m') = true).
Proof.
  split; [|split].
  - intros H. unfold disable_scroll_handling. step.
    destruct H as [H|H]; rewrite H.
    + rewrite andb_false_r. reflexivity.
    + rewrite andb_false_r. rewrite orb_true_r. reflexivity.
  - intros Hu Hs. unfold disable_scroll_handling. step. rewrite Hu, Hs.
    destruct dev; reflexivity.
  - intros Htick m'.
    destruct (update_finish_completes ans url (Some opts) callback navigation_result m Htick)
      as (m1 & Heq & _ & Ha & _ & _ & _ & Hw & _).
    unfold m'. rewrite Heq. split; [exact Hw | exact Ha].
Qed.

(** ** Intents, prefetching and invalidation *)

Lemma find_route_first (earlier later : list Route) (route : Route) (path : string)
    (params : gmap string string) :
  Forall (fun r => route_exec r path = None) earlier ->
  route_exec route path = Some params ->
  find_route (earlier ++ route :: later) path = Some (route, params).
Proof.
  intros He Hr. induction He as [|r earlier H _ IH]; cbn.
  - rewrite Hr. reflexivity.
  - rewrite H. exact IH.
Qed.

(** For a URL of the page's origin under [base], the intent is made of
    the first route of the manifest whose pattern matches the decoded
    path after [base] (the path [/] when nothing is left after [base]),
    with the parameters of that match; its id is the normalized pathname
    followed by the search string.  The store is not touched.  A path
    that cannot be decoded makes [get_navigation_intent] throw. *)
Theorem intent_is_first_matching_route (ans : Answerer) (m : Machine) (url : URL) :
  origin url = origin (location (store m)) ->
  String.prefix base (pathname url) = true ->
  let stripped := slice_from (String.length base) (pathname url) in
  let encoded := if bool_decide (stripped = "") then "/" else stripped in
  (forall path earlier route later params,
     decodeURI encoded = Some path ->
     routes = earlier ++ route :: later ->
     Forall (fun r => route_exec r path = None) earlier ->
     route_exec route path = Some params ->
     exec ans (get_navigation_intent url) m
     = (m, PDone (Some {| intent_id := normalize_path (pathname url) trailing_slash
                                        +:+ search url;
                          intent_route := route;
                          intent_params := params;
                          intent_url := url |})))
  /\ (decodeURI encoded = None ->
      exec ans (get_navigation_intent url) m
      = (allocated 1 m,
         PThrew {| err_ref := next_ref (store m); err_message := "URI malformed" |})).
Proof.
  intros Ho Hp stripped encoded.
  assert (Hin : negb (bool_decide (origin url = origin (location (store m))))
                || negb (String.prefix base (pathname url)) = false).
  { rewrite Hp. rewrite bool_decide_eq_true_2 by exact Ho. reflexivity. }
  split.
  - intros path earlier route later params Hd Hroutes He Hr.
    unfold get_navigation_intent. step. rewrite Hin. fold stripped. fold encoded.
    rewrite Hd, Hroutes, (find_route_first _ _ _ _ _ He Hr). reflexivity.
  - intros Hd. unfold get_navigation_intent. step. rewrite Hin. fold stripped. fold encoded.
    rewrite Hd. step. reflexivity.
Qed.

(** [prefetch] of a URL that has an intent starts the branch load and
    records it in [load_cache] under the id of the intent; what it returns
    is that promise.  A load of the same intent made afterwards, with or
    without cache bypass, is handed the same promise: the loaders are not
    run a second time. *)
Theorem prefetch_shares_its_load (ans : Answerer) (m : Machine) (url : URL)
    (intent : NavigationIntent) :
  exec ans (get_navigation_intent url) m = (m, PDone (Some intent)) ->
  let started_load := exec ans (val_of_result <$> load_route intent false) m in
  let promise := length (procs (fst started_load)) in
  let m' :=
    {| store := set_load_cache {| lc_id := Some (intent_id intent);
                                  lc_promise := Some promise |}
                  (store (fst started_load));
       procs := procs (fst started_load) ++ [snd started_load];
       trace := trace (fst started_load) |} in
  exec ans (prefetch url) m = exec ans (Join promise result_of_settled) m'
  /\ forall no_cache,
       exec ans (load_route intent no_cache) m' = exec ans (Join promise result_of_settled) m'.
Proof.
  intros Hi started_load promise m'. split.
  - unfold prefetch. rewrite exec_bind, Hi. cbn [exec].
    fold started_load. destruct started_load as [m1 p1] eqn:Hs. step. reflexivity.
  - intros no_cache. unfold load_route, load_route_body. step.
    rewrite bool_decide_eq_true_2 by reflexivity.
    rewrite bool_decide_eq_true_2 by (eexists; reflexivity).
    reflexivity.
Qed.

(** [invalidate] registers its predicate, which for a resource given as a
    string holds of the resolved address of the resource and of nothing
    else.  While an invalidation is pending it starts nothing and returns
    the pending promise; otherwise it starts one task, which waits for the
    microtask before it updates, and returns its promise.  So two calls in
    a row register two predicates and share one update. *)
Theorem invalidations_share_one_update (ans : Answerer) (m : Machine)
    (resource again : Resource) :
  let noted :=
    set_invalidated (invalidated (store m) ++ [registered resource (store m)]) (store m) in
  (forall pending, invalidating (store m) = Some pending ->
     exec ans (invalidate resource) m
     = ({| store := noted; procs := procs m; trace := trace m |}, PDone (Some pending)))
  /\ (invalidating (store m) = None -> ans WMicrotask = None ->
      exists m',
        exec ans (invalidate resource) m = (m', PDone (Some (length (procs m))))
        /\ store m' = set_invalidating (Some (length (procs m))) noted
        /\ (exists k, procs m' = procs m ++ [PWait WMicrotask k])
        /\ trace m' = trace m ++ [WMicrotask]
        /\ exists m'',
             exec ans (invalidate again) m' = (m'', PDone (Some (length (procs m))))
             /\ invalidated (store m'')
                = invalidated (store m)
                  ++ [registered resource (store m); registered again (store m)]
             /\ procs m'' = procs m' /\ trace m'' = trace m')
  /\ (forall relative dep,
        registered (ResourceHref relative) (store m) dep = true
        <-> dep = href (url_resolve relative (location (store m)))).
Proof.
  intros noted. split; [|split].
  - intros pending Hp. unfold invalidate.
    destruct resource as [fn|relative]; step; rewrite Hp; step; rewrite ?Hp; reflexivity.
  - intros Hn Hmicro. unfold invalidate.
    destruct resource as [fn|relative]; step; rewrite Hn; step; rewrite Hmicro; step.
    all: eexists; split; [reflexivity|]; split; [reflexivity|].
    all: split; [eexists; reflexivity|]; split; [reflexivity|].
    all: destruct again as [fn'|relative']; step.
    all: eexists; split; [reflexivity|]; fields; cbn [procs trace].
    all: rewrite <- app_assoc; repeat split.
  - intros relative dep. cbn [registered]. apply bool_decide_eq_true.
Qed.

(** ** What [update] does with the result of the branch load *)

(** An address with no route that is the page's own address (the SPA
    fallback) is not reloaded: [update] takes its token, makes the error
    "Not found: <pathname>" and renders the root error page with status
    404, going on with its result like with any other. *)
Theorem unknown_path_of_the_page_is_404 (ans : Answerer)
    (follow : string -> list string -> Task Val) (url : URL) (redirect_chain : list string)
    (no_cache : bool) (opts : option UpdateOpts) (callback : option (option URL * URL))
    (m : Machine) :
  String.prefix base (pathname url) = false
  \/ (exists path,
        decodeURI (if bool_decide (slice_from (String.length base) (pathname url) = "")
                   then "/" else slice_from (String.length base) (pathname url)) = Some path
        /\ Forall (fun route => route_exec route path = None) routes) ->
  origin url = origin (location (store m)) ->
  pathname url = pathname (location (store m)) ->
  let error := {| err_ref := S (next_ref (store m));
                  err_message := "Not found: " +:+ pathname url |} in
  let m1 := {| store := set_next_ref (S (S (next_ref (store m))))
                          (set_token (next_ref (store m)) (store m));
               procs := procs m; trace := trace m |} in
  forall m2 r,
    exec ans (load_root_error_page (Some 404) error url None) m1 = (m2, PDone r) ->
    exec ans (update_with follow url redirect_chain no_cache opts callback) m
    = exec ans (update_checked follow url redirect_chain opts callback r) m2
    /\ st_error (res_state r) = Some error
    /\ (forall p, props_page (res_props r) = Some p -> page_status p = Some 404).
Proof.
  intros Hnone Ho Hp error m1 m2 r Hload.
  destruct (load_root_error_page_result ans _ _ _ _ _ _ _ Hload) as (He & _ & Hpage & Hf).
  split; [|split; [exact He | intros p H; apply (Hpage p H)]].
  unfold update_with, update_begin.
  rewrite !exec_bind, (intent_none ans m url (or_intror Hnone)).
  unfold alloc_token. step. unfold update_loaded. step. cbn [fst snd].
  rewrite (bool_decide_eq_true_2 _ Ho), (bool_decide_eq_true_2 _ Hp). cbn [andb].
  rewrite exec_bind. step. unfold fmap, task_fmap. rewrite exec_bind. fold error.
  match goal with |- context [exec ans (load_root_error_page _ _ _ _) ?m0] =>
    change m0 with m1 end.
  rewrite Hload. step.
  apply loader_frame_fields in Hf. destruct Hf as (_ & _ & _ & _ & _ & _ & _ & _ & Ht & _).
  rewrite Ht. cbn [m1 store]. fields.
  rewrite bool_decide_eq_true_2 by reflexivity. reflexivity.
Qed.

(** A redirect that is no loop is followed: the invalidations are
    cleared and [goto] is called, not awaited, with the target resolved
    against the URL of this navigation and with the chain extended by its
    pathname; the update itself returns [false].  With the router
    disabled the target, resolved against the address of the page, is
    loaded by the browser. *)
Theorem redirect_is_followed (ans : Answerer) (follow : string -> list string -> Task Val)
    (url : URL) (redirect_chain : list string) (opts : option UpdateOpts)
    (callback : option (option URL * URL)) (navigation_result : NavigationResult)
    (current_token : Ref) (m : Machine) :
  token (store m) = current_token ->
  truthy (res_redirect navigation_result) = true ->
  (length redirect_chain <= 10)%nat ->
  pathname url ∉ redirect_chain ->
  let target := default "" (res_redirect navigation_result) in
  let m0 := {| store := set_invalidated [] (store m); procs := procs m; trace := trace m |} in
  (router_enabled (store m) = true ->
   let followed :=
     exec ans (follow (href (url_resolve target url)) (redirect_chain ++ [pathname url])) m0 in
   exec ans (update_loaded follow current_token url redirect_chain opts callback
               (Some navigation_result)) m
   = ({| store := store (fst followed); procs := procs (fst followed) ++ [snd followed];
         trace := trace (fst followed) |}, PDone (Some false)))
  /\ (router_enabled (store m) = false ->
      exec ans (update_loaded follow current_token url redirect_chain opts callback
                  (Some navigation_result)) m
      = ({| store := set_native_navigations
                       (native_navigations (store m)
                        ++ [url_resolve target (location (store m))])
                       (set_invalidated [] (store m));
            procs := procs m; trace := trace m |}, PNever)).
Proof.
  intros Htoken Hred Hlen Hnotin target m0.
  assert (Hguard : bool_decide (10 < length redirect_chain)%nat
                   || bool_decide (pathname url ∈ redirect_chain) = false).
  { apply orb_false_iff. split; apply bool_decide_eq_false_2; [lia | exact Hnotin]. }
  split; intros Hr.
  - intros followed. unfold update_loaded. step.
    rewrite bool_decide_eq_true_2 by exact Htoken. cbn [negb].
    unfold update_checked. step. rewrite Hred, Hguard. step. rewrite Hr. step.
    fold target. fold m0. fold followed. destruct followed as [m1 p1]. reflexivity.
  - unfold update_loaded. step.
    rewrite bool_decide_eq_true_2 by exact Htoken. cbn [negb].
    unfold update_checked. step. rewrite Hred, Hguard. step. rewrite Hr. reflexivity.
Qed.

(** ** Errors in a branch load *)


(** A loader whose normalized result carries an error and no redirect
    sends the branch load up the error boundaries with the status and the
    error of that result; with no boundary below the failing position the
    walk is the load of the root error page with that status and error. *)
Theorem loader_error_walks_to_root_error_page (ans : Answerer) (m : Machine) (url : URL)
    (params : gmap string string) (route : Route) (loader : LoaderRef)
    (rest : list (option LoaderRef)) (i : nat) (changed : option Changed)
    (branch : list (option BranchNode)) (stuff : Stuff) (stuff_changed : bool)
    (status : option Z) (module : Module) (run : LoadRun) (loaded n : LoadOutput)
    (error : JsError) :
  ans (WImport loader) = Some (inr module) ->
  reload_decision (mjoin (st_branch (current (store m)) !! i)) module changed
    (invalidated (store m)) stuff_changed = Some true ->
  is_shadow_page route i = false ->
  mod_has_load module = true ->
  ans (WLoad module (forward_input url params route (store m) stuff ∅)) = Some run ->
  run_result run = inr (Some loaded) ->
  normalize loaded = inr n ->
  lo_error n = Some error ->
  truthy (lo_redirect n) = false ->
  let m1 := logged [WImport loader;
                    WLoad module (forward_input url params route (store m) stuff ∅)] m in
  exec ans (load_loop url params route (Some loader :: rest) i changed branch stuff
              stuff_changed status) m
  = exec ans (recover url params route i branch stuff (lo_status n) error) m1
  /\ ((forall k, (k < i)%nat -> mjoin (route_b route !! k) = None) ->
      recover url params route i branch stuff (lo_status n) error
      = load_root_error_page (lo_status n) error url (Some (route_id route))).
Proof.
  intros Hi Hd Hs Hl Hrun Hres Hn He Hred m1. split.
  - cbn [load_loop]. rewrite exec_bind, exec_try_catch.
    unfold try_body. step. rewrite Hi. step.
    unfold try_module. step. rewrite Hd. step. rewrite Hs. step.
    unfold load_node. step. rewrite Hl. step.
    unfold forward_input in Hrun. cbn [default from_option]. unfold id.
    rewrite Hrun. step. rewrite Hres, Hn. step.
    cbn [node_loaded]. rewrite He, Hred. cbn [defined]. step.
    unfold m1, logged. cbn. rewrite <- app_assoc. reflexivity.
  - intros Hb. clear -Hb. induction i as [|i IH]; [reflexivity|].
    cbn [recover]. rewrite (Hb i) by lia. apply IH. intros k Hk. apply Hb. lia.
Qed.

(** A boundary that fails is passed over: when its import is rejected,
    its [load] throws, or its [load] returns a result with an error, the
    walk goes on to the next boundary up with the status and the error it
    came with; what the boundary threw or returned is dropped. *)
Theorem failing_boundary_is_passed_over (ans : Answerer) (m : Machine) (url : URL)
    (params : gmap string string) (route : Route) (i j : nat)
    (branch : list (option BranchNode)) (stuff : Stuff) (status : option Z)
    (error : JsError) (boundary : LoaderRef) (node_loaded' : BranchNode) :
  mjoin (route_b route !! i) = Some boundary ->
  find_loaded branch i = Some (j, node_loaded') ->
  (forall rejected,
     ans (WImport boundary) = Some (inl rejected) ->
     exec ans (recover url params route (S i) branch stuff status error) m
     = exec ans (recover url params route i branch stuff status error)
         (logged [WImport boundary] m))
  /\ (forall module m' attempt,
        ans (WImport boundary) = Some (inr module) ->
        exec ans (load_node status (Some error) module url params (node_stuff node_loaded')
                    None (Some (route_id route))) (logged [WImport boundary] m)
        = (m', attempt) ->
        (exists thrown, attempt = PThrew thrown)
        \/ (exists error_loaded failure,
              attempt = PDone error_loaded
              /\ node_loaded error_loaded ≫= lo_error = Some failure) ->
        exec ans (recover url params route (S i) branch stuff status error) m
        = exec ans (recover url params route i branch stuff status error) m').
Proof.
  intros Hb Hf. split.
  - intros rejected Hi. cbn [recover]. rewrite Hb, Hf.
    rewrite exec_bind, exec_try_catch. step. rewrite Hi. step. reflexivity.
  - intros module m' attempt Hi Hattempt Hfail. cbn [recover]. rewrite Hb, Hf.
    rewrite exec_bind, exec_try_catch. step. rewrite Hi. step.
    rewrite exec_bind. fold (logged [WImport boundary] m). rewrite Hattempt.
    destruct Hfail as [(thrown & ->)|(error_loaded & failure & -> & He)].
    + step. reflexivity.
    + rewrite He. step. reflexivity.
Qed.

(** ** The cache and its subscriptions *)

Lemma clear_next_ref cc s : next_ref (clear cc s) = next_ref s.
Proof.
  unfold clear. destruct (cache s !! cc_key cc) as [r|]; [destruct (bool_decide _)|]; reflexivity.
Qed.

Lemma remove_handle_subset {A : Type} (h : nat) (l : list (nat * A)) (x : nat * A) :
  x ∈ remove_handle h l -> x ∈ l /\ fst x ≠ h.
Proof. unfold remove_handle. intros H. apply list_elem_of_filter in H. tauto. Qed.

Lemma remove_handle_keeps {A : Type} (h : nat) (l : list (nat * A)) (x : nat * A) :
  x ∈ l -> fst x ≠ h -> x ∈ remove_handle h l.
Proof. unfold remove_handle. intros H Hne. apply list_elem_of_filter. tauto. Qed.

Lemma remove_handle_NoDup {A : Type} (h : nat) (l : list (nat * A)) :
  NoDup (map fst l) -> NoDup (map fst (remove_handle h l)).
Proof.
  unfold remove_handle. induction l as [|[h' a] l IH]; intros Hnd; [constructor|].
  cbn [map fst] in Hnd. apply NoDup_cons in Hnd as [Hnotin Hnd].
  rewrite filter_cons. destruct (decide (fst (h', a) ≠ h)); [|apply IH, Hnd].
  cbn [map fst]. apply NoDup_cons. split; [|apply IH, Hnd].
  intros Hin. apply Hnotin. apply list_elem_of_fmap in Hin as (p & -> & Hin).
  apply list_elem_of_filter in Hin as [_ Hin]. apply list_elem_of_fmap. eauto.
Qed.

(** Two subscriptions with the same handle are the same. *)
Lemma same_handle_same_closure {A : Type} (l : list (nat * A)) (h : nat) (a b : A) :
  NoDup (map fst l) -> (h, a) ∈ l -> (h, b) ∈ l -> a = b.
Proof.
  induction l as [|[h' c] l IH]; cbn; intros Hnd Ha Hb; [inversion Ha|].
  apply NoDup_cons in Hnd as [Hnotin Hnd].
  apply elem_of_cons in Ha as [Ha|Ha]; apply elem_of_cons in Hb as [Hb|Hb].
  - congruence.
  - exfalso. apply Hnotin. injection Ha as <- _.
    apply list_elem_of_fmap. exists (h, b). split; [reflexivity | exact Hb].
  - exfalso. apply Hnotin. injection Hb as <- _.
    apply list_elem_of_fmap. exists (h, a). split; [reflexivity | exact Ha].
  - apply IH; assumption.
Qed.

(** The closure of a subscription keeps the cache backed when it runs,
    and so does one whose subscription is gone already. *)
Lemma clear_keeps_backed (cc : CacheClear) (s : Store) :
  cache_backed s ->
  (forall cc', (cc_sub cc, cc') ∈ session_subs s -> cc' = cc) ->
  cache_backed (clear cc s).
Proof.
  intros (Hsubs & Htimers & Hsub & Htimer & Hcache) Hin.
  unfold cache_backed.
  rewrite clear_session_subs, clear_timers, clear_next_ref.
  split; [apply remove_handle_NoDup, Hsubs|].
  split; [apply remove_handle_NoDup, Htimers|].
  split; [|split].
  - intros sub cc' H. apply remove_handle_subset in H as [H _]. apply (Hsub _ _ H).
  - intros timer due cc' H. apply remove_handle_subset in H as [H Hne]. cbn [fst] in Hne.
    destruct (Htimer _ _ _ H) as (Ht & Hlt & Hs).
    split; [exact Ht|]. split; [exact Hlt|].
    apply remove_handle_keeps; [exact Hs|]. cbn [fst]. intros Heq.
    rewrite Heq in Hs. rewrite (Hin _ Hs) in Ht. apply Hne. symmetry. exact Ht.
  - intros key r H. pose proof (clear_only_deletes _ _ _ _ H) as H0.
    destruct (Hcache _ _ H0) as (cc' & Hs & Hk & Hr). exists cc'.
    split; [|split; assumption].
    apply remove_handle_keeps; [exact Hs|]. cbn [fst]. intros Heq.
    rewrite Heq in Hs. rewrite (Hin _ Hs) in Hk, Hr.
    apply (clear_gone cc s r); [rewrite Hk; exact H | symmetry; exact Hr].
Qed.

Lemma remove_handle_head {A : Type} (h : nat) (a : A) (l : list (nat * A)) :
  NoDup (map fst ((h, a) :: l)) -> remove_handle h ((h, a) :: l) = l.
Proof.
  cbn [map fst]. intros Hnd. apply NoDup_cons in Hnd as [Hnotin _].
  unfold remove_handle. rewrite filter_cons.
  destruct (decide (fst (h, a) ≠ h)) as [Hne|_]; [exfalso; apply Hne; reflexivity|].
  induction l as [|[h' b] l IH]; [reflexivity|].
  rewrite filter_cons. destruct (decide (fst (h', b) ≠ h)) as [_|Heq].
  - f_equal. apply IH. intros Hin. apply Hnotin. cbn [map fst]. right. exact Hin.
  - exfalso. apply Hnotin. cbn [map fst]. apply dec_stable in Heq. cbn in Heq. subst. left.
Qed.

Lemma subscribers_empty_the_cache (l : list (nat * CacheClear)) :
  forall s, cache_backed s -> session_subs s = l ->
  let s' := fold_left (fun s sub => clear (snd sub) s) l s in
  cache s' = ∅ /\ session_subs s' = [] /\ timers s' = [].
Proof.
  induction l as [|[sub cc] l IH]; intros s Hb Hl.
  - destruct Hb as (_ & _ & _ & Htimer & Hcache). cbn. rewrite Hl in *.
    split; [|split; [reflexivity|]].
    + apply map_empty. intros key. destruct (cache s !! key) as [r|] eqn:Hr; [|reflexivity].
      destruct (Hcache _ _ Hr) as (cc & Hin & _). inversion Hin.
    + destruct (timers s) as [|[timer [due cc]] ts]; [reflexivity|].
      destruct (Htimer timer due cc) as (_ & _ & Hin); [left|]. inversion Hin.
  - cbn [fold_left snd].
    pose proof Hb as (Hsubs & _ & Hsub & _).
    assert (Hcc : cc_sub cc = sub). { apply (Hsub sub cc). rewrite Hl. left. }
    apply IH.
    + apply clear_keeps_backed; [exact Hb|]. intros cc' Hin. rewrite Hcc in Hin.
      apply (same_handle_same_closure _ _ _ _ Hsubs Hin). rewrite Hl. left.
    + rewrite clear_session_subs, Hl, Hcc. apply remove_handle_head.
      rewrite <- Hl. exact Hsubs.
Qed.

(** Making a result keeps the cache backed. *)
Lemma result_keeps_backed (ans : Answerer) (m : Machine) url params stuff branch status error
    routeId :
  cache_backed (store m) ->
  cache_backed
    (store (fst (exec ans (get_navigation_result_from_branch url params stuff branch status
                             error routeId) m))).
Proof.
  intros (Hsubs & Htimers & Hsub & Htimer & Hcache).
  unfold get_navigation_result_from_branch. step.
  destruct ((last _ ≫= node_loaded) ≫= lo_cache) as [ttl|]; step; cbn [fst store].
  - unfold cache_backed. fields.
    assert (Hfresh : forall h, (next_ref (store m) <= h)%nat -> h ∉ map fst (session_subs (store m))).
    { intros h Hh Hin. apply list_elem_of_fmap in Hin as ([h' c] & -> & Hin).
      destruct (Hsub _ _ Hin) as [_ Hlt]. cbn in Hh. lia. }
    assert (Hfresh' : forall h, (next_ref (store m) <= h)%nat -> h ∉ map fst (timers (store m))).
    { intros h Hh Hin. apply list_elem_of_fmap in Hin as ([h' [d c]] & -> & Hin).
      destruct (Htimer _ _ _ Hin) as (_ & Hlt & _). cbn in Hh. lia. }
    split; [|split; [|split; [|split]]].
    + rewrite map_app. apply NoDup_app. split; [exact Hsubs|]. split; [|apply NoDup_singleton].
      intros h Hin Hin'. cbn in Hin'. apply list_elem_of_singleton in Hin'. subst h.
      apply (Hfresh (S (S (next_ref (store m))))); [lia | exact Hin].
    + rewrite map_app. apply NoDup_app. split; [exact Htimers|]. split; [|apply NoDup_singleton].
      intros h Hin Hin'. cbn in Hin'. apply list_elem_of_singleton in Hin'. subst h.
      apply (Hfresh' (S (next_ref (store m)))); [lia | exact Hin].
    + intros sub cc Hin. apply elem_of_app in Hin as [Hin|Hin].
      * destruct (Hsub _ _ Hin). split; [assumption | lia].
      * apply list_elem_of_singleton in Hin. injection Hin as -> ->. split; [reflexivity | lia].
    + intros timer due cc Hin. apply elem_of_app in Hin as [Hin|Hin].
      * destruct (Htimer _ _ _ Hin) as (? & ? & ?). split; [assumption|]. split; [lia|].
        apply elem_of_app. left. assumption.
      * apply list_elem_of_singleton in Hin. injection Hin as -> -> ->.
        split; [reflexivity|]. split; [lia|]. apply elem_of_app. right. left.
    + intros key r Hr. destruct (decide (key = pathname url +:+ search url)) as [Hk|Hk].
      * rewrite Hk, lookup_insert_eq in Hr. injection Hr as <-.
        exists {| cc_key := pathname url +:+ search url; cc_result := next_ref (store m);
                  cc_sub := S (S (next_ref (store m)));
                  cc_timer := S (next_ref (store m)) |}.
        split; [apply elem_of_app; right; left|]. split; [symmetry; exact Hk|reflexivity].
      * rewrite lookup_insert_ne in Hr by (intros Heq; apply Hk; symmetry; exact Heq).
        destruct (Hcache _ _ Hr) as (cc & Hin & ? & ?). exists cc.
        split; [apply elem_of_app; left; exact Hin|]. split; assumption.
  - unfold cache_backed. fields.
    split; [exact Hsubs|]. split; [exact Htimers|]. split; [|split; [|exact Hcache]].
    + intros sub cc Hin. destruct (Hsub _ _ Hin). split; [assumption | lia].
    + intros timer due cc Hin. destruct (Htimer _ _ _ Hin) as (? & ? & ?).
      split; [assumption|]. split; [lia | assumption].
Qed.

(** After a change of the session nothing is left of the cache: every
    cached result has been dropped by the closure subscribed for it, and
    every closure has cancelled its subscription and its timer.  (The
    hypothesis is kept by making a result, see [result_keeps_backed], and
    is the state of a client that has cached nothing yet.) *)
Theorem session_change_empties_the_cache (s : Store) :
  cache_backed s ->
  cache (run_session_subscribers s) = ∅
  /\ session_subs (run_session_subscribers s) = []
  /\ timers (run_session_subscribers s) = []
  /\ cache_backed (run_session_subscribers s).
Proof.
  intros Hb. unfold run_session_subscribers.
  destruct (subscribers_empty_the_cache (session_subs s) s Hb eq_refl) as (Hc & Hs & Ht).
  split; [exact Hc|]. split; [exact Hs|]. split; [exact Ht|].
  unfold cache_backed. rewrite Hc, Hs, Ht. cbn.
  split; [constructor|]. split; [constructor|].
  split; [intros ? ? H; inversion H|]. split; [intros ? ? ? H; inversion H|].
  intros key r H. rewrite lookup_empty in H. discriminate.
Qed.

Lemma backed_kept_refl (s : Store) : backed_kept s s.
Proof. intros H. exact H. Qed.

Lemma backed_kept_trans (s1 s2 s3 : Store) :
  backed_kept s1 s2 -> backed_kept s2 s3 -> backed_kept s1 s3.
Proof. unfold backed_kept. auto. Qed.

Lemma backed_Ret (A : Type) (r : A) : runs backed_kept (Ret r).
Proof. intros ans m. apply backed_kept_refl. Qed.

Lemma backed_Throw (A : Type) (e : JsError) : runs backed_kept (@Throw A e).
Proof. intros ans m. apply backed_kept_refl. Qed.

Lemma backed_Forever (A : Type) : runs backed_kept (@Forever A).
Proof. intros ans m. apply backed_kept_refl. Qed.

Lemma backed_Await (A : Type) (w : Wait) (k : answer_of w -> Task A) :
  (forall x, runs backed_kept (k x)) -> runs backed_kept (Await w k).
Proof.
  intros H ans m. cbn [exec]. destruct (ans w) as [a|]; [|apply backed_kept_refl].
  apply (H a ans {| store := store m; procs := procs m; trace := trace m ++ [w] |}).
Qed.

Lemma backed_Join (A : Type) (p : PromiseId) (k : Settled -> Task A) :
  (forall x, runs backed_kept (k x)) -> runs backed_kept (Join p k).
Proof.
  intros H ans m. cbn [exec]. destruct (settled (procs m) p) as [x|]; [|apply backed_kept_refl].
  apply H.
Qed.

Lemma backed_bind (A B : Type) (t : Task A) (f : A -> Task B) :
  runs backed_kept t -> (forall x, runs backed_kept (f x)) -> runs backed_kept (bind t f).
Proof. apply runs_bind; [auto | apply backed_kept_trans]. Qed.

Lemma backed_try_catch (A : Type) (t : Task A) (h : JsError -> Task A) :
  runs backed_kept t -> (forall e, runs backed_kept (h e)) -> runs backed_kept (try_catch t h).
Proof.
  intros Ht Hh ans m. rewrite exec_try_catch. specialize (Ht ans m).
  destruct (exec ans t m) as [m1 [x|e| |w k|p k]]; cbn [fst] in *; try exact Ht.
  eapply backed_kept_trans; [exact Ht | apply Hh].
Qed.

(** A new identity leaves the cache backed. *)
Lemma backed_alloc : runs backed_kept alloc.
Proof.
  intros ans m (Hsubs & Htimers & Hsub & Htimer & Hcache). cbn.
  unfold cache_backed. fields.
  split; [exact Hsubs|]. split; [exact Htimers|]. split; [|split; [|exact Hcache]].
  - intros sub cc Hin. destruct (Hsub _ _ Hin). split; [assumption | lia].
  - intros timer due cc Hin. destruct (Htimer _ _ _ Hin) as (? & ? & ?).
    split; [assumption|]. split; [lia | assumption].
Qed.

Lemma backed_result url params stuff branch status error routeId :
  runs backed_kept
    (get_navigation_result_from_branch url params stuff branch status error routeId).
Proof. intros ans m H. apply result_keeps_backed, H. Qed.

Create HintDb backed discriminated.
#[local] Hint Resolve backed_alloc backed_result : backed.

Ltac backed_walk :=
  repeat first
    [ solve [eauto 2 with backed]
    | apply backed_bind
    | apply backed_try_catch
    | apply backed_Ret | apply backed_Throw | apply backed_Forever
    | apply runs_Get | apply backed_Await | apply backed_Join
    | match goal with
      | |- runs _ (match ?x with _ => _ end) => destruct x
      | |- runs _ (let _ := _ in _) => cbv zeta
      | |- forall _, _ => intros ?
      end ].

Lemma backed_new_error (message : string) : runs backed_kept (new_error message).
Proof. unfold new_error. backed_walk. Qed.
#[local] Hint Resolve backed_new_error : backed.

Lemma backed_new_stuff (fields : gmap string string) : runs backed_kept (new_stuff fields).
Proof. unfold new_stuff. backed_walk. Qed.
#[local] Hint Resolve backed_new_stuff : backed.

Lemma backed_load_node status error module url params stuff props routeId :
  runs backed_kept (load_node status error module url params stuff props routeId).
Proof. unfold load_node, get, await, or_throw. backed_walk. Qed.
#[local] Hint Resolve backed_load_node : backed.

Lemma backed_spread_stuff stuff more : runs backed_kept (spread_stuff stuff more).
Proof. unfold spread_stuff. backed_walk. Qed.
#[local] Hint Resolve backed_spread_stuff : backed.

Lemma backed_try_body url params route loader i changed stuff stuff_changed status :
  runs backed_kept (try_body url params route loader i changed stuff stuff_changed status).
Proof.
  unfold try_body, try_module, fetch_shadow, redirect_result, await, get, or_throw, fmap,
    task_fmap.
  backed_walk.
Qed.
#[local] Hint Resolve backed_try_body : backed.

Lemma backed_load_root_error_page status error url routeId :
  runs backed_kept (load_root_error_page status error url routeId).
Proof. unfold load_root_error_page, await, or_throw. backed_walk. Qed.
#[local] Hint Resolve backed_load_root_error_page : backed.

Lemma backed_recover url params route i branch stuff status error :
  runs backed_kept (recover url params route i branch stuff status error).
Proof.
  induction i as [|i IH]; cbn [recover]; [auto with backed|].
  unfold await, or_throw. backed_walk.
Qed.
#[local] Hint Resolve backed_recover : backed.

Lemma backed_load_loop url params route rest :
  forall i changed branch stuff stuff_changed status,
  runs backed_kept
    (load_loop url params route rest i changed branch stuff stuff_changed status).
Proof.
  induction rest as [|[loader|] rest IH]; intros; cbn [load_loop]; backed_walk.
Qed.
#[local] Hint Resolve backed_load_loop : backed.

Lemma backed_load_route (intent : NavigationIntent) (no_cache : bool) :
  runs backed_kept (load_route intent no_cache).
Proof.
  unfold load_route, load_route_body, result_of_settled, get, fmap, task_fmap.
  backed_walk.
Qed.

(** A client that has cached nothing is backed. *)
Lemma nothing_cached_is_backed (s : Store) :
  session_subs s = [] -> timers s = [] -> cache s = ∅ -> cache_backed s.
Proof.
  intros Hs Ht Hc. unfold cache_backed. rewrite Hs, Ht, Hc. cbn.
  split; [constructor|]. split; [constructor|].
  split; [intros ? ? H; inversion H|]. split; [intros ? ? ? H; inversion H|].
  intros key r H. rewrite lookup_empty in H. discriminate.
Qed.

(** However far a branch load gets, it leaves the cache backed: whatever
    it has put in the cache is subscribed to the session, so that a change
    of the session at that point leaves nothing in the cache. *)
Theorem branch_load_keeps_cache_backed (ans : Answerer) (m : Machine)
    (intent : NavigationIntent) (no_cache : bool) :
  cache_backed (store m) ->
  cache_backed (store (fst (exec ans (load_route intent no_cache) m)))
  /\ cache (run_session_subscribers
              (store (fst (exec ans (load_route intent no_cache) m)))) = ∅.
Proof.
  intros Hb.
  pose proof (backed_load_route intent no_cache ans m Hb) as Hb'. split; [exact Hb'|].
  unfold run_session_subscribers.
  apply (subscribers_empty_the_cache _ _ Hb' eq_refl).
Qed.

(** ** Hydration *)

Lemma unrendered_refl (s : Store) : unrendered s s.
Proof. repeat split. Qed.

Lemma unrendered_trans (s1 s2 s3 : Store) :
  unrendered s1 s2 -> unrendered s2 s3 -> unrendered s1 s3.
Proof.
  intros (A1 & A2 & A3 & A4 & A5 & A6 & A7 & A8) (B1 & B2 & B3 & B4 & B5 & B6 & B7 & B8).
  repeat split; congruence.
Qed.

Lemma loader_frame_unrendered (s s' : Store) : loader_frame s s' -> unrendered s s'.
Proof. intros H. rewrite H. repeat split. Qed.

Lemma keeps_hydrate_loop status error url params routeId serialized nodes :
  forall branch stuff error_args,
  keeps loader_frame
    (hydrate_loop status error url params routeId serialized nodes branch stuff error_args).
Proof.
  induction nodes as [|n rest IH]; intros; cbn [hydrate_loop]; [constructor|].
  unfold await. keeps_walk frame_upd.
Qed.

Lemma exec_try_catch_done (ans : Answerer) (A : Type) (t : Task A) (h : JsError -> Task A)
    (m m' : Machine) (r : A) :
  exec ans (try_catch t h) m = (m', PDone r) ->
  exec ans t m = (m', PDone r)
  \/ exists m1 e, exec ans t m = (m1, PThrew e) /\ exec ans (h e) m1 = (m', PDone r).
Proof.
  rewrite exec_try_catch. destruct (exec ans t m) as [m1 [x|e| |w k|p k]]; intros H;
    try discriminate.
  - left. exact H.
  - right. eauto.
Qed.

(** The part of [_hydrate] inside [try] and [catch]: the result to
    show. *)
Lemma hydrate_result (ans : Answerer) (m m' : Machine) status error url params routeId
    serialized nodes stuff (result : NavigationResult) :
  exec ans
    (try_catch
       (loaded ← hydrate_loop status error url params routeId serialized nodes [] stuff None;
        match loaded with
        | (_, _, Some (error_status, e)) => load_root_error_page error_status e url routeId
        | (branch, stuff, None) =>
            get_navigation_result_from_branch url params stuff branch status error routeId
        end)
       (fun e =>
          if defined error then Throw e
          else load_root_error_page (Some 500) e url routeId)) m = (m', PDone result) ->
  st_url (res_state result) = Some url /\ loader_frame (store m) (store m').
Proof.
  intros H. split.
  - apply exec_try_catch_done in H as [H|(m1 & e & _ & H)].
    + apply exec_bind_done in H as (m1 & [[branch stuff'] [[st e]|]] & _ & H).
      * apply load_root_error_page_result in H. tauto.
      * destruct (result_from_branch_done ans m1 url params stuff' branch status error routeId)
          as (m2 & r2 & Hr & Hst & _).
        rewrite Hr in H. injection H as _ <-. rewrite Hst. reflexivity.
    + destruct (defined error); [discriminate|].
      apply load_root_error_page_result in H. tauto.
  - match type of H with exec _ ?t _ = _ =>
      assert (K : keeps loader_frame t)
    end.
    { pose proof keeps_hydrate_loop. keeps_walk frame_upd. }
    pose proof (keeps_exec loader_frame ans loader_frame_refl loader_frame_trans _ _ K m)
      as [Hf _].
    rewrite H in Hf. exact Hf.
Qed.

(** [_hydrate] shows nothing before it has everything: as long as it has
    not returned (it waits, it has thrown, or it has handed over to the
    browser for a redirect), nothing has been rendered, [current] and
    [page] are untouched and the application is not started by it.  When
    it returns, the application is started, exactly one set of props has
    been rendered, [current] is the state of what has been rendered, and
    that state is for the address of the page. *)
Theorem hydration_renders_last (ans : Answerer) (m : Machine) (status : option Z)
    (error : option JsError) (nodes : list LoaderRef) (params : gmap string string)
    (routeId : option string) (serialized : option (JsError + option (gmap string string))) :
  let outcome := exec ans (hydrate status error nodes params routeId serialized) m in
  (snd outcome ≠ PDone tt -> unrendered (store m) (store (fst outcome)))
  /\ (snd outcome = PDone tt ->
      started (store (fst outcome)) = true
      /\ length (rendered (store (fst outcome))) = S (length (rendered (store m)))
      /\ st_url (current (store (fst outcome))) = Some (location (store m))
      /\ native_navigations (store (fst outcome)) = native_navigations (store m)).
Proof.
  intros outcome. unfold outcome, hydrate. step. rewrite exec_bind.
  match goal with |- context [exec ans (try_catch ?t ?h) ?m0] =>
    assert (K : keeps loader_frame (try_catch t h))
      by (pose proof keeps_hydrate_loop; keeps_walk frame_upd);
    pose proof (keeps_exec loader_frame ans loader_frame_refl loader_frame_trans _ _ K m0)
      as [Hf _];
    destruct (exec ans (try_catch t h) m0) as [m1 p1] eqn:Hpre
  end.
  cbn [fst] in Hf.
  assert (Hu : unrendered (store m) (store m1)).
  { apply loader_frame_unrendered. eapply loader_frame_trans; [|exact Hf].
    unfold loader_frame. reflexivity. }
  destruct p1 as [result|e| |w k|p k]; cbn [fst snd];
    try (split; [intros _; exact Hu | intros H; discriminate H]).
  apply hydrate_result in Hpre as [Hurl _].
  apply loader_frame_fields in Hf as (_ & Hn & _).
  destruct (truthy (res_redirect result)).
  - step. cbn [fst snd]. split; [|intros H; discriminate H].
    intros _. eapply unrendered_trans; [exact Hu|]. repeat split.
  - unfold initialize. step. destruct (router_enabled (store m1)); step; cbn [fst snd].
    all: split; [intros H; exfalso; apply H; reflexivity|]; intros _.
    all: destruct Hu as (_ & Hr & _); fields.
    all: split; [reflexivity|]; split; [rewrite length_app, Hr; cbn; lia|].
    all: split; [exact Hurl | exact Hn].
Qed.

(** What [_hydrate] does when loading the nodes throws (an import is
    rejected, a [load] throws, the serialized props do not parse, or, on a
    page the server rendered with an error, a [load] returns an error).
    On a page the server rendered with an error, [_hydrate] rejects with
    what was thrown and shows nothing.  Otherwise it shows the root error
    page with status 500 and what was thrown. *)
Theorem hydration_failure (ans : Answerer) (m m1 : Machine) (status : option Z)
    (error : option JsError) (nodes : list LoaderRef) (params : gmap string string)
    (routeId : option string) (serialized : option (JsError + option (gmap string string)))
    (thrown : JsError) :
  let url := location (store m) in
  exec ans
    (hydrate_loop status error url params routeId serialized nodes []
       {| stuff_ref := next_ref (store m); stuff_fields := ∅ |} None) (allocated 1 m)
  = (m1, PThrew thrown) ->
  (is_Some error ->
   exec ans (hydrate status error nodes params routeId serialized) m = (m1, PThrew thrown)
   /\ unrendered (store m) (store m1))
  /\ (error = None ->
      exec ans (hydrate status error nodes params routeId serialized) m
      = exec ans
          (result ← load_root_error_page (Some 500) thrown url routeId;
           (if truthy (res_redirect result) then
              s ← get;
              native_navigation (url_resolve (default "" (res_redirect result)) (location s))
            else Ret tt);;
           initialize result) m1).
Proof.
  intros url Hloop. split.
  - intros [e0 ->]. split.
    + unfold hydrate. step. rewrite exec_bind, exec_try_catch, exec_bind.
      fold url. change {| store := set_next_ref (S (next_ref (store m))) (store m);
                          procs := procs m; trace := trace m |} with (allocated 1 m).
      rewrite Hloop. reflexivity.
    + pose proof (keeps_exec loader_frame ans loader_frame_refl loader_frame_trans _ _
                    (keeps_hydrate_loop status (Some e0) url params routeId serialized nodes
                       [] {| stuff_ref := next_ref (store m); stuff_fields := ∅ |} None)
                    (allocated 1 m)) as [Hf _].
      rewrite Hloop in Hf. apply loader_frame_unrendered.
      eapply loader_frame_trans; [|exact Hf]. unfold loader_frame. reflexivity.
  - intros ->. unfold hydrate. step. rewrite exec_bind, exec_try_catch, exec_bind.
    fold url. change {| store := set_next_ref (S (next_ref (store m))) (store m);
                        procs := procs m; trace := trace m |} with (allocated 1 m).
    rewrite Hloop. cbn [defined]. rewrite exec_bind. reflexivity.
Qed.

(** ** Going back and forth in the history *)

(** The listener of [popstate] leaves alone an event without a state, an
    event for the entry the client is on, and every event while the
    router is disabled.  Otherwise it navigates to the address of the
    page without awaiting: when a [before_navigate] callback cancels,
    [history.go] is called with the distance back to the entry the client
    is on, and nothing else changes; when none does, the scroll position
    is saved in the slot of the entry that is left, the index becomes that
    of the event, and the update that follows gets the scroll position
    saved for that entry and no history details, so that by itself it
    writes no history entry.  However far that navigation gets, the index
    is that of the event, or one more after a redirect that was
    followed. *)
Theorem popstate_navigation (ans : Answerer) (go : Z -> Store -> Store) (m : Machine)
    (index : Z) :
  let s := store m in
  let from := st_url (current s) in
  let cancelled := existsb (fun fn => fn from (location s)) (before_navigate s) in
  exec ans (popstate go None) m = (m, PDone tt)
  /\ exec ans (popstate go (Some (current_history_index s))) m = (m, PDone tt)
  /\ (router_enabled s = false -> exec ans (popstate go (Some index)) m = (m, PDone tt))
  /\ (router_enabled s = true -> index ≠ current_history_index s -> cancelled = true ->
      exec ans (popstate go (Some index)) m
      = ({| store := go (current_history_index s - index) s;
            procs := procs m ++ [PDone VUndefined]; trace := trace m |}, PDone tt))
  /\ (router_enabled s = true -> index ≠ current_history_index s -> cancelled = false ->
      let normalized :=
        {| origin := origin (location s);
           pathname := normalize_path (pathname (location s)) trailing_slash;
           search := search (location s); hash := hash (location s) |} in
      let saved := set_current_history_index index
                     (update_scroll_positions (current_history_index s) s) in
      let ready := if started s then set_navigating (Some (from, normalized)) saved
                   else saved in
      let navigation :=
        exec ans
          ((fun _ => VUndefined) <$>
             (update normalized [] false
                (Some {| opt_scroll := scroll_positions s !! index; opt_keepfocus := false;
                         opt_details := None |})
                (Some (from, normalized));;
              Ret tt))
          {| store := ready; procs := procs m; trace := trace m |} in
      exec ans (popstate go (Some index)) m
      = ({| store := store (fst navigation);
            procs := procs (fst navigation) ++ [snd navigation];
            trace := trace (fst navigation) |}, PDone tt)
      /\ index <= current_history_index (store (fst navigation)) <= index + 1
      /\ dom (scroll_positions (store (fst navigation)))
         ⊆ dom (scroll_positions s) ∪ {[ current_history_index s ]} ∪ {[ index ]}).
Proof.
  intros s from cancelled.
  split; [reflexivity|]. split.
  { unfold popstate. step. destruct (router_enabled (store m)); [|reflexivity].
    rewrite bool_decide_eq_true_2 by reflexivity. reflexivity. }
  split.
  { intros Hr. unfold popstate. step. fold s. rewrite Hr. reflexivity. }
  split.
  - intros Hr Hne Hc. unfold popstate. step. fold s. rewrite Hr.
    rewrite bool_decide_eq_false_2 by exact Hne.
    cbn [exec]. unfold navigate, navigate_with, fmap, task_fmap. step.
    fold s. fold from. fold cancelled. rewrite Hc. step. reflexivity.
  - intros Hr Hne Hc normalized saved ready navigation.
    assert (Hexec : exec ans (popstate go (Some index)) m
                    = ({| store := store (fst navigation);
                          procs := procs (fst navigation) ++ [snd navigation];
                          trace := trace (fst navigation) |}, PDone tt)).
    { unfold popstate. step. fold s. rewrite Hr.
      rewrite bool_decide_eq_false_2 by exact Hne.
      cbn [exec]. unfold navigate, navigate_with, fmap, task_fmap. step.
      fold s. fold from. fold cancelled. rewrite Hc. step.
      unfold update_scroll_positions at 1 2. fields. fold s.
      destruct (started s) eqn:Hs; step;
        match goal with |- (let (_, _) := ?x in _) = _ => change x with navigation end;
        destruct navigation as [m1 p1]; reflexivity. }
    split; [exact Hexec|].
    assert (Hstep : one_step ready (store (fst navigation))).
    { unfold navigation, fmap, task_fmap.
      match goal with |- one_step _ (store (fst (exec _ ?t ?m0))) =>
        assert (K : runs one_step t); [|exact (K ans m0)]
      end.
      apply (runs_bind one_step index_kept one_step);
        [auto | apply step_then_kept | | intros x a m0; apply index_kept_refl].
      apply (runs_bind one_step index_kept one_step);
        [auto | apply step_then_kept | apply step_update_rec
        | intros x a m0; apply index_kept_refl]. }
    destruct Hstep as (Hi & Hd & _).
    assert (Hri : current_history_index ready = index)
      by (unfold ready, saved; destruct (started s); reflexivity).
    assert (Hrs : scroll_positions ready
                  = <[current_history_index s := window_scroll s]> (scroll_positions s))
      by (unfold ready, saved; destruct (started s); reflexivity).
    rewrite Hri in Hi, Hd. rewrite Hrs, dom_insert_L in Hd.
    split; [exact Hi|].
    intros i Hin. apply Hd in Hin. rewrite !elem_of_union in *. tauto.
Qed.

(** ** Error pages and new versions, and the session *)

(** A result with a status of 400 or more is not shown before the
    version check has answered.  If a new version has been deployed the
    browser loads the address afresh and nothing is committed; if not, the
    result is committed; if the check fails, so does the update. *)
Theorem error_page_checks_for_new_version (ans : Answerer)
    (follow : string -> list string -> Task Val) (url : URL) (redirect_chain : list string)
    (opts : option UpdateOpts) (callback : option (option URL * URL))
    (navigation_result : NavigationResult) (current_token : Ref) (m : Machine) :
  token (store m) = current_token ->
  truthy (res_redirect navigation_result) = false ->
  status_ge_400 navigation_result = true ->
  let m0 := {| store := set_invalidated [] (store m); procs := procs m;
               trace := trace m ++ [WUpdatedCheck] |} in
  let outcome := exec ans (update_loaded follow current_token url redirect_chain opts callback
                             (Some navigation_result)) m in
  (ans WUpdatedCheck = Some (inr true) ->
   outcome = ({| store := set_native_navigations (native_navigations (store m) ++ [url])
                            (set_invalidated [] (store m));
                 procs := procs m; trace := trace m ++ [WUpdatedCheck] |}, PNever))
  /\ (ans WUpdatedCheck = Some (inr false) ->
      outcome = exec ans (update_commit url opts callback navigation_result) m0)
  /\ (forall failure, ans WUpdatedCheck = Some (inl failure) ->
        outcome = (m0, PThrew failure))
  /\ (ans WUpdatedCheck = None ->
      unrendered (store m) (store (fst outcome))
      /\ exists k, snd outcome = PWait WUpdatedCheck k).
Proof.
  intros Htoken Hred Hst m0 outcome.
  assert (H : outcome
              = exec ans
                  (updated ← bind (await WUpdatedCheck) or_throw;
                   (if updated : bool then native_navigation url else Ret tt);;
                   update_commit url opts callback navigation_result)
                  {| store := set_invalidated [] (store m); procs := procs m;
                     trace := trace m |}).
  { unfold outcome, update_loaded. step.
    rewrite bool_decide_eq_true_2 by exact Htoken. cbn [negb].
    unfold update_checked. step. rewrite Hred, Hst. reflexivity. }
  rewrite H. split; [|split; [|split]].
  - intros Ha. step. rewrite Ha. step. reflexivity.
  - intros Ha. step. rewrite Ha. step. reflexivity.
  - intros failure Ha. step. rewrite Ha. step. reflexivity.
  - intros Ha. step. rewrite Ha. cbn [fst snd store]. split; [repeat split | eauto].
Qed.


End Properties.

(** * The statements on the small application *)


(** While the prefetch of [/ok] is in flight, a load of [/ok] that
    bypasses the cache waits for the promise of the prefetch. *)
Lemma in_flight_load_is_shared_witness :
  lc_id (load_cache (store Demo.prefetching)) = Some (intent_id (Demo.intent_of Demo.route_ok))
  /\ lc_promise (load_cache (store Demo.prefetching)) = Some 0%nat
  /\ advance (@load_route Demo.app (Demo.intent_of Demo.route_ok) true) Demo.prefetching
     = match settled (procs Demo.prefetching) 0%nat with
       | Some outcome => advance (result_of_settled outcome) Demo.prefetching
       | None => (Demo.prefetching, PJoin 0%nat result_of_settled)
       end.
Proof.
  assert (H1 : lc_id (load_cache (store Demo.prefetching))
               = Some (intent_id (Demo.intent_of Demo.route_ok))) by reflexivity.
  assert (H2 : lc_promise (load_cache (store Demo.prefetching)) = Some 0%nat) by reflexivity.
  split; [exact H1|]. split; [exact H2|].
  exact (@in_flight_load_is_shared Demo.app (fun _ => None) Demo.prefetching
           (Demo.intent_of Demo.route_ok) true 0%nat H1 H2).
Defined.

(** The claim C7 as stated fails: the load that bypasses the cache is
    handed the in-flight promise of the prefetch, and starts nothing. *)
Lemma bypass_joins_in_flight_load :
  lc_id (load_cache (store Demo.prefetching)) = Some "/ok"
  /\ settled (procs Demo.prefetching) 0%nat = None
  /\ advance (@load_route Demo.app (Demo.intent_of Demo.route_ok) true) Demo.prefetching
     = (Demo.prefetching, PJoin 0%nat result_of_settled)
  /\ exists r,
       settled (procs Demo.prefetched) 0%nat = Some (Fulfilled (VResult r))
       /\ run Demo.world (@load_route Demo.app (Demo.intent_of Demo.route_ok) true)
            Demo.prefetched
          = (Demo.prefetched, PDone (Some r)).
Proof.
  split; [reflexivity|]. split; [reflexivity|]. split; [reflexivity|].
  eexists. split; vm_compute; reflexivity.
Qed.








(** The second load of [/a] in [/a → /b → /a], and a load of [/a] at the
    end of a chain of 11 pathnames: both end at the root error page, and
    so does [goto("/a")] from the page. *)
Lemma redirect_loop_guard_witness :
  let revisit :=
    run Demo.world
      (@update_with Demo.app (fun _ _ => Forever) (Demo.app_url "/a") ["/a"; "/b"] false
         None None) Demo.machine0 in
  let too_long :=
    run Demo.world
      (@update_loaded Demo.app (fun _ _ => Forever) 1%nat (Demo.app_url "/a") Demo.long_chain
         None None (Some Demo.a_result)) (fst Demo.a_begun) in
  let error := {| err_ref := 3%nat; err_message := "Redirect loop" |} in
  Demo.a_begun = (fst Demo.a_begun, PDone (1%nat, Some Demo.a_result))
  /\ token (store (fst Demo.a_begun)) = 1%nat
  /\ truthy (res_redirect Demo.a_result) = true
  /\ "/a" ∈ ["/a"; "/b"]
  /\ (10 < length Demo.long_chain)%nat
  /\ procs (fst revisit) = [] /\ procs (fst too_long) = []
  /\ st_error (current (store (fst revisit))) = Some error
  /\ st_error (current (store (fst too_long))) = Some error
  /\ native_navigations (store (fst revisit)) = []
  /\ native_navigations (store (fst too_long)) = []
  /\ option_map err_message (st_error (current (store Demo.looped))) = Some "Redirect loop"
  /\ map (fun props => props_page props ≫= page_status) (rendered (store Demo.looped))
     = [Some 500].
Proof.
  intros revisit too_long error.
  assert (Hbegin : Demo.a_begun = (fst Demo.a_begun, PDone (1%nat, Some Demo.a_result)))
    by (vm_compute; reflexivity).
  assert (Htoken : token (store (fst Demo.a_begun)) = 1%nat)
    by exact (@update_begin_token Demo.app _ _ _ _ _ _ _ Hbegin).
  assert (Hred : truthy (res_redirect Demo.a_result) = true) by (vm_compute; reflexivity).
  assert (Hin : "/a" ∈ ["/a"; "/b"]) by left.
  assert (Hlen : (10 < length Demo.long_chain)%nat) by (vm_compute; lia).
  split; [exact Hbegin|]. split; [exact Htoken|]. split; [exact Hred|].
  split; [exact Hin|]. split; [exact Hlen|].
  destruct (@redirect_loop_guard Demo.app (fun w => Some (Demo.world w)) (fun _ _ => Forever)
              (Demo.app_url "/a") ["/a"; "/b"] None None Demo.a_result 1%nat
              (fst Demo.a_begun) Htoken Hred (or_intror Hin)) as (_ & Hp1 & H1 & Hwhole).
  destruct (@redirect_loop_guard Demo.app (fun w => Some (Demo.world w)) (fun _ _ => Forever)
              (Demo.app_url "/a") Demo.long_chain None None Demo.a_result 1%nat
              (fst Demo.a_begun) Htoken Hred (or_introl Hlen)) as (_ & Hp2 & H2 & _).
  specialize (Hwhole Demo.machine0 false Hbegin).
  edestruct H1 as (He1 & _ & Hc1); [reflexivity|].
  edestruct H2 as (He2 & _ & Hc2); [reflexivity|].
  destruct (Hc1 eq_refl) as (Hcur1 & Hn1). destruct (Hc2 eq_refl) as (Hcur2 & Hn2).
  split; [exact (eq_trans (f_equal (fun x => procs (fst x)) Hwhole) Hp1)|].
  split; [exact Hp2|].
  split; [exact (eq_trans (f_equal (fun x => st_error (current (store (fst x)))) Hwhole)
                   (eq_trans (f_equal st_error Hcur1) He1))|].
  split; [exact (eq_trans (f_equal st_error Hcur2) He2)|].
  split; [exact (eq_trans (f_equal (fun x => native_navigations (store (fst x))) Hwhole) Hn1)|].
  split; [exact Hn2|].
  split; vm_compute; reflexivity.
Defined.



(** [goto("/ok", { replaceState: true })] called twice from the page [/],
    whose history index is 1000: the index is still 1000, the history
    still has one entry, and the scroll position map has the slot 1000
    and no other. *)
Lemma replace_state_keeps_history_index_witness :
  one_step (store Demo.machine0) (store Demo.replaced_once)
  /\ one_step (store Demo.replaced_once) (store Demo.replaced_twice)
  /\ Demo.replace_opts ≫= opt_details = Some Demo.replace_details
  /\ details_replaceState Demo.replace_details = true
  /\ truthy (res_redirect Demo.ok_result) = false
  /\ (let m' := fst (run Demo.world
                       (@update_commit Demo.app (Demo.app_url "/ok") Demo.replace_opts None
                          Demo.ok_result) Demo.replaced_once) in
      current_history_index (store m') = 1000
      /\ scroll_positions (store m') = scroll_positions (store Demo.replaced_once)
      /\ he_index (hist_cur (history (store m'))) = Some 1000
      /\ history_length (history (store m')) = 1%nat)
  /\ index_kept (store Demo.replaced_once)
       (store (fst (run Demo.world
                      (@update_loaded Demo.app (fun _ _ => Forever)
                         (token (store Demo.replaced_once)) (Demo.app_url "/ok") []
                         Demo.replace_opts None (Some Demo.ok_result)) Demo.replaced_once)))
  /\ dom (scroll_positions (store Demo.replaced_twice)) = {[ 1000 ]}.
Proof.
  destruct (@replace_state_keeps_history_index Demo.app (fun w => Some (Demo.world w))
              Demo.machine0 (Demo.app_url "/ok") Demo.replace_opts None Demo.ok_result
              Demo.replace_details) as (Hfirst & _).
  destruct (@replace_state_keeps_history_index Demo.app (fun w => Some (Demo.world w))
              Demo.replaced_once (Demo.app_url "/ok") Demo.replace_opts None Demo.ok_result
              Demo.replace_details) as (Hsecond & Hcommit & Hupdate & Hslot).
  assert (Hd : Demo.replace_opts ≫= opt_details = Some Demo.replace_details) by reflexivity.
  assert (Hr : details_replaceState Demo.replace_details = true) by reflexivity.
  assert (Ht : truthy (res_redirect Demo.ok_result) = false) by (vm_compute; reflexivity).
  split; [apply (Hfirst "/ok" Demo.replacing [])|].
  split; [apply (Hsecond "/ok" Demo.replacing [])|].
  split; [exact Hd|]. split; [exact Hr|]. split; [exact Ht|].
  split; [|split].
  - destruct (Hcommit Hd) as (Hi & Hs & Hh & Hl & _).
    split; [exact (eq_trans Hi eq_refl)|]. split; [exact Hs|].
    split; [vm_compute; reflexivity|]. exact (eq_trans (Hl Hr) eq_refl).
  - apply (Hupdate Hd Hr Ht).
  - vm_compute. reflexivity.
Defined.


(** ** The rest of the client on the small application *)

(** [goto("/ok")] and a navigation to [/ok] on the page whose
    [before_navigate] callback cancels. *)
Lemma cancelled_navigation_changes_nothing_witness :
  existsb (fun fn => fn (st_url (current (store Demo.guarded))) (Demo.app_url "/ok"))
    (before_navigate (store Demo.guarded)) = true
  /\ router_enabled (store Demo.guarded) = true
  /\ advance (@navigate Demo.app (Demo.app_url "/ok") None false [] None
                (set_current_history_index 999) (fun s => s)) Demo.guarded
     = (Demo.guarded, PDone tt)
  /\ advance (@goto Demo.app "/ok" goto_defaults []) Demo.guarded = (Demo.guarded, PDone tt).
Proof.
  assert (H : existsb (fun fn => fn (st_url (current (store Demo.guarded)))
                                   (Demo.app_url "/ok"))
                (before_navigate (store Demo.guarded)) = true) by reflexivity.
  assert (Hr : router_enabled (store Demo.guarded) = true) by reflexivity.
  split; [exact H|]. split; [exact Hr|].
  destruct (@cancelled_navigation_changes_nothing Demo.app (fun _ => None) Demo.guarded
              (Demo.app_url "/ok") None false [] None (set_current_history_index 999)
              (fun s => s) "/ok" goto_defaults) as [Hn Hg].
  split; [exact (Hn H) | exact (Hg Hr H)].
Defined.

(** [goto("/ok")] with the router disabled, and an update for a URL of
    another origin. *)
Lemma full_page_load_commits_nothing_witness :
  router_enabled (store Demo.router_off) = false
  /\ origin Demo.elsewhere ≠ origin (location (store Demo.machine0))
  /\ snd (advance (@goto Demo.app "/ok" goto_defaults []) Demo.router_off) = PNever
  /\ native_navigations
       (store (fst (advance (@goto Demo.app "/ok" goto_defaults []) Demo.router_off)))
     = [Demo.app_url "/ok"]
  /\ snd (advance (@update Demo.app Demo.elsewhere [] false None None) Demo.machine0) = PNever
  /\ rendered (store (fst (advance (@update Demo.app Demo.elsewhere [] false None None)
                             Demo.machine0))) = [].
Proof.
  assert (Hr : router_enabled (store Demo.router_off) = false) by reflexivity.
  assert (Ho : origin Demo.elsewhere ≠ origin (location (store Demo.machine0)))
    by (vm_compute; discriminate).
  split; [exact Hr|]. split; [exact Ho|].
  destruct (@full_page_load_commits_nothing Demo.app (fun _ => None) Demo.router_off
              Demo.elsewhere "/ok" goto_defaults [] false None None (fun _ _ => Ret VUndefined))
    as [Hg _].
  destruct (@full_page_load_commits_nothing Demo.app (fun _ => None) Demo.machine0
              Demo.elsewhere "/ok" goto_defaults [] false None None
              (fun next chain =>
                 (fun _ => VUndefined) <$> @goto_with Demo.app (@update_rec Demo.app 10)
                                             next goto_defaults chain))
    as [_ Hu].
  split; [exact (f_equal snd (Hg Hr))|].
  split; [exact (f_equal (fun x => native_navigations (store (fst x))) (Hg Hr))|].
  assert (Hother : ~ (origin Demo.elsewhere = origin (location (store Demo.machine0))
                      /\ pathname Demo.elsewhere = pathname (location (store Demo.machine0))))
    by (intros [Heq _]; exact (Ho Heq)).
  pose proof (Hu (or_introl Ho) Hother) as H.
  split; [exact (f_equal snd H) | exact (f_equal (fun x => rendered (store (fst x))) H)].
Defined.

(** The commit of the result of [/ok] on the page, the tick answered. *)
Lemma completed_update_resets_witness :
  exists m',
    run Demo.world (@update_commit Demo.app (Demo.app_url "/ok") None None Demo.ok_result)
      Demo.machine0 = (m', PDone None)
    /\ started (store m') = true
    /\ current (store m') = res_state Demo.ok_result
    /\ updating (store m') = false
    /\ autoscroll (store m') = true
    /\ load_cache (store m') = {| lc_id := None; lc_promise := None |}
    /\ router_enabled (store m') = true
    /\ length (rendered (store m')) = 1%nat
    /\ trace m' = [WTick].
Proof.
  destruct (@completed_update_resets Demo.app (fun w => Some (Demo.world w))
              (Demo.app_url "/ok") None None Demo.ok_result Demo.machine0 eq_refl)
    as (m' & Heq & Hs & Hc & Hu & Ha & Hl & Hr & _ & Hn & _ & Ht).
  exists m'. split; [exact Heq|]. split; [exact Hs|]. split; [exact Hc|].
  split; [exact Hu|]. split; [exact Ha|]. split; [exact Hl|].
  split; [rewrite Hr; vm_compute; reflexivity|]. split; [exact Hn | exact Ht].
Defined.

(** [disable_scroll_handling] in the middle of an update and on the
    page at rest, and the end of the update that follows. *)
Lemma disabled_scroll_lasts_one_update_witness :
  let opts := {| opt_scroll := Some {| scroll_x := 0; scroll_y := 40 |};
                 opt_keepfocus := false; opt_details := None |} in
  let disabled := fst (advance (disable_scroll_handling false) Demo.mid_update) in
  updating (store Demo.mid_update) = true
  /\ autoscroll (store disabled) = false
  /\ advance (disable_scroll_handling false) Demo.machine0
     = (Demo.machine0, PDone tt)
  /\ (exists e, snd (advance (disable_scroll_handling true) Demo.machine0)
                = PThrew e)
  /\ window_scroll
       (store (fst (run Demo.world
                      (@update_finish Demo.app (Demo.app_url "/ok") (Some opts) None
                         Demo.ok_result) disabled)))
     = window_scroll (store Demo.mid_update)
  /\ window_scroll
       (store (fst (run Demo.world
                      (@update_finish Demo.app (Demo.app_url "/ok") (Some opts) None
                         Demo.ok_result) Demo.mid_update)))
     = {| scroll_x := 0; scroll_y := 40 |}
  /\ autoscroll
       (store (fst (run Demo.world
                      (@update_finish Demo.app (Demo.app_url "/ok") (Some opts) None
                         Demo.ok_result) disabled))) = true.
Proof.
  intros opts disabled.
  assert (Hu : updating (store Demo.mid_update) = true) by reflexivity.
  destruct (@disabled_scroll_lasts_one_update Demo.app (fun _ => None) false
              (Demo.app_url "/ok") opts None Demo.ok_result Demo.mid_update) as (Hd & _ & _).
  destruct (@disabled_scroll_lasts_one_update Demo.app (fun _ => None) false
              (Demo.app_url "/ok") opts None Demo.ok_result Demo.machine0) as (_ & Hrest & _).
  destruct (@disabled_scroll_lasts_one_update Demo.app (fun _ => None) true
              (Demo.app_url "/ok") opts None Demo.ok_result Demo.machine0) as (_ & Hdev & _).
  destruct (@disabled_scroll_lasts_one_update Demo.app (fun w => Some (Demo.world w)) false
              (Demo.app_url "/ok") opts None Demo.ok_result disabled) as (_ & _ & Hoff).
  destruct (@disabled_scroll_lasts_one_update Demo.app (fun w => Some (Demo.world w)) false
              (Demo.app_url "/ok") opts None Demo.ok_result Demo.mid_update)
    as (_ & _ & Hon).
  split; [exact Hu|].
  split; [exact (f_equal (fun x => autoscroll (store (fst x))) (Hd (or_introl Hu)))|].
  split; [exact (Hrest eq_refl eq_refl)|].
  split; [eexists; exact (f_equal snd (Hdev eq_refl eq_refl))|].
  destruct (Hoff eq_refl) as [Hw Ha]. destruct (Hon eq_refl) as [Hw' _].
  split; [exact Hw|]. split; [exact Hw' | exact Ha].
Defined.

(** The intent for [/b], whose route is the second of the manifest, and
    the path [/%] where [decodeURI] rejects it. *)
Lemma intent_is_first_matching_route_witness :
  advance (@get_navigation_intent Demo.app (Demo.app_url "/b")) Demo.machine0
  = (Demo.machine0, PDone (Some (Demo.intent_of Demo.route_b_page)))
  /\ @decodeURI Demo.picky "/%" = None
  /\ advance (@get_navigation_intent Demo.picky (Demo.app_url "/%")) Demo.machine0
     = (allocated 1 Demo.machine0,
        PThrew {| err_ref := 1%nat; err_message := "URI malformed" |}).
Proof.
  destruct (@intent_is_first_matching_route Demo.app (fun _ => None) Demo.machine0
              (Demo.app_url "/b") eq_refl eq_refl) as [Hfirst _].
  destruct (@intent_is_first_matching_route Demo.picky (fun _ => None) Demo.machine0
              (Demo.app_url "/%") eq_refl eq_refl) as [_ Hbad].
  split.
  - apply (Hfirst "/b" [Demo.route_a_page] Demo.route_b_page
             [Demo.route_ok; Demo.route_bad; Demo.route_broken] ∅); try reflexivity.
    repeat constructor.
  - split; [reflexivity|]. exact (Hbad eq_refl).
Defined.

(** [prefetch] of [/ok] from the page: the load is promise 0, and a load
    of [/ok] that follows is handed that promise. *)
Lemma prefetch_shares_its_load_witness :
  let m' := fst (advance (@prefetch Demo.app (Demo.app_url "/ok")) Demo.machine0) in
  advance (@get_navigation_intent Demo.app (Demo.app_url "/ok")) Demo.machine0
  = (Demo.machine0, PDone (Some (Demo.intent_of Demo.route_ok)))
  /\ snd (advance (@prefetch Demo.app (Demo.app_url "/ok")) Demo.machine0)
     = PJoin 0%nat result_of_settled
  /\ length (procs m') = 1%nat
  /\ forall no_cache,
       advance (@load_route Demo.app (Demo.intent_of Demo.route_ok) no_cache) m'
       = (m', PJoin 0%nat result_of_settled).
Proof.
  intros m'.
  assert (H : advance (@get_navigation_intent Demo.app (Demo.app_url "/ok")) Demo.machine0
              = (Demo.machine0, PDone (Some (Demo.intent_of Demo.route_ok))))
    by reflexivity.
  split; [exact H|].
  destruct (@prefetch_shares_its_load Demo.app (fun _ => None) Demo.machine0
              (Demo.app_url "/ok") (Demo.intent_of Demo.route_ok) H) as [Hp Hl].
  split; [refine (eq_trans (f_equal snd Hp) _); vm_compute; reflexivity|].
  split; [reflexivity|].
  intros no_cache. exact (Hl no_cache).
Defined.

(** Two calls of [invalidate] from the page share the update the first
    has scheduled; both predicates are on the list. *)
Lemma invalidations_share_one_update_witness :
  invalidating (store Demo.api_pending) = Some 0%nat
  /\ snd (advance (@invalidate Demo.app (ResourceHref "/other")) Demo.api_pending)
     = PDone (Some 0%nat)
  /\ exists m' m'',
       advance (@invalidate Demo.app (ResourceHref "/api")) Demo.machine0
       = (m', PDone (Some 0%nat))
       /\ advance (@invalidate Demo.app (ResourceHref "/other")) m' = (m'', PDone (Some 0%nat))
       /\ length (invalidated (store m'')) = 2%nat
       /\ procs m'' = procs m'
       /\ length (procs m') = 1%nat.
Proof.
  assert (Hpending : invalidating (store Demo.api_pending) = Some 0%nat) by reflexivity.
  split; [exact Hpending|].
  destruct (@invalidations_share_one_update Demo.app (fun _ => None) Demo.api_pending
              (ResourceHref "/other") (ResourceHref "/other")) as (Hagain & _ & _).
  split; [exact (f_equal snd (Hagain 0%nat Hpending))|].
  destruct (@invalidations_share_one_update Demo.app (fun _ => None) Demo.machine0
              (ResourceHref "/api") (ResourceHref "/other")) as (_ & Hfirst & _).
  destruct (Hfirst eq_refl eq_refl)
    as (m' & Heq & _ & (k & Hprocs) & _ & m'' & Heq' & Hinv & Hp & _).
  exists m', m''. split; [exact Heq|]. split; [exact Heq'|].
  split; [rewrite Hinv; reflexivity|]. split; [exact Hp|]. rewrite Hprocs. reflexivity.
Defined.

(** An update for the address of the page itself, [/], which no route
    matches: the result is the root error page with status 404. *)
Lemma unknown_path_of_the_page_is_404_witness :
  Forall (fun route => route_exec route "/" = None) (@routes Demo.app)
  /\ snd Demo.not_found = PDone Demo.not_found_result
  /\ run Demo.world (@update Demo.app (Demo.app_url "/") [] false None None) Demo.machine0
     = run Demo.world
         (@update_checked Demo.app
            (fun href chain =>
               (fun _ => VUndefined) <$> @goto_with Demo.app (@update_rec Demo.app 10)
                                           href goto_defaults chain)
            (Demo.app_url "/") [] None None Demo.not_found_result) (fst Demo.not_found)
  /\ st_error (res_state Demo.not_found_result) = Some Demo.not_found_error
  /\ option_map page_status (props_page (res_props Demo.not_found_result))
     = Some (Some 404).
Proof.
  assert (Hroutes : Forall (fun route => route_exec route "/" = None) (@routes Demo.app))
    by (repeat constructor).
  assert (Hpage : snd Demo.not_found = PDone Demo.not_found_result)
    by (vm_compute; reflexivity).
  assert (Hrun : run Demo.world
                   (@load_root_error_page Demo.app (Some 404) Demo.not_found_error
                      (Demo.app_url "/") None)
                   {| store := set_next_ref 3%nat (set_token 1%nat Demo.store0);
                      procs := []; trace := [] |}
                 = (fst Demo.not_found, PDone Demo.not_found_result)).
  { rewrite <- Hpage. exact (surjective_pairing Demo.not_found). }
  split; [exact Hroutes|]. split; [exact Hpage|].
  destruct (@unknown_path_of_the_page_is_404 Demo.app (fun w => Some (Demo.world w))
              (fun href chain =>
                 (fun _ => VUndefined) <$> @goto_with Demo.app (@update_rec Demo.app 10)
                                             href goto_defaults chain)
              (Demo.app_url "/") [] false None None Demo.machine0
              (or_intror (ex_intro _ "/" (conj eq_refl Hroutes))) eq_refl eq_refl
              (fst Demo.not_found) Demo.not_found_result Hrun) as (Heq & Herr & Hstatus).
  split; [exact Heq|]. split; [exact Herr|].
  destruct (props_page (res_props Demo.not_found_result)) as [p|] eqn:Hp.
  - cbn. rewrite (Hstatus p eq_refl). reflexivity.
  - vm_compute in Hp. discriminate Hp.
Defined.

(** The result of [/a] redirects to [/b]: with the router enabled the
    update returns [false] with the [goto] started, with the router
    disabled the browser is sent to [/b]. *)
Lemma redirect_is_followed_witness :
  let m := fst Demo.a_begun in
  let off := {| store := set_router_enabled false (store m); procs := procs m;
                trace := trace m |} in
  res_redirect Demo.a_result = Some "/b"
  /\ snd (advance (@update_loaded Demo.app (fun _ _ => Ret VUndefined) (token (store m))
                     (Demo.app_url "/a") [] None None (Some Demo.a_result)) m)
     = PDone (Some false)
  /\ length (procs (fst (advance (@update_loaded Demo.app (fun _ _ => Ret VUndefined)
                                    (token (store m)) (Demo.app_url "/a") [] None None
                                    (Some Demo.a_result)) m))) = S (length (procs m))
  /\ snd (advance (@update_loaded Demo.app (fun _ _ => Ret VUndefined) (token (store off))
                     (Demo.app_url "/a") [] None None (Some Demo.a_result)) off)
     = PNever
  /\ native_navigations
       (store (fst (advance (@update_loaded Demo.app (fun _ _ => Ret VUndefined)
                               (token (store off)) (Demo.app_url "/a") [] None None
                               (Some Demo.a_result)) off)))
     = [Demo.app_url "/b"].
Proof.
  intros m off.
  assert (Hred : res_redirect Demo.a_result = Some "/b") by (vm_compute; reflexivity).
  assert (Htruthy : truthy (res_redirect Demo.a_result) = true) by (rewrite Hred; reflexivity).
  assert (Hlen : (length (@nil string) <= 10)%nat) by (cbn; lia).
  assert (Hnew : pathname (Demo.app_url "/a") ∉ @nil string) by apply not_elem_of_nil.
  destruct (@redirect_is_followed Demo.app (fun _ => None) (fun _ _ => Ret VUndefined)
              (Demo.app_url "/a") [] None None Demo.a_result (token (store m)) m eq_refl
              Htruthy Hlen Hnew) as [Hon _].
  destruct (@redirect_is_followed Demo.app (fun _ => None) (fun _ _ => Ret VUndefined)
              (Demo.app_url "/a") [] None None Demo.a_result (token (store off)) off eq_refl
              Htruthy Hlen Hnew) as [_ Hoff].
  assert (Hm : router_enabled (store m) = true) by (vm_compute; reflexivity).
  split; [exact Hred|].
  split; [exact (f_equal snd (Hon Hm))|].
  split.
  { refine (eq_trans (f_equal (fun x => length (procs (fst x))) (Hon Hm)) _).
    cbn [fst procs]. rewrite length_app. cbn. lia. }
  split; [exact (f_equal snd (Hoff eq_refl))|].
  refine (eq_trans (f_equal (fun x => native_navigations (store (fst x))) (Hoff eq_refl)) _).
  rewrite Hred. vm_compute. reflexivity.
Defined.


(** The page node of [/ok] when its [load] returns an error: the route
    has no error boundary, so the error goes to the root error page. *)
Lemma loader_error_walks_to_root_error_page_witness :
  let url := Demo.app_url "/ok" in
  let module := Demo.imported 4%nat in
  let input := forward_input url ∅ Demo.route_ok Demo.store0 root_stuff ∅ in
  Demo.failing (WImport 4%nat) = inr module
  /\ run_result (Demo.failing (WLoad module input)) = inr (Some Demo.failed)
  /\ lo_error Demo.failed = Some Demo.boom
  /\ run Demo.failing
       (@load_loop Demo.app url ∅ Demo.route_ok [Some 4%nat] 1 None [Demo.layout_node url]
          root_stuff false (Some 200)) Demo.machine0
     = run Demo.failing
         (@load_root_error_page Demo.app (Some 500) Demo.boom url (Some "/ok"))
         (logged [WImport 4%nat; WLoad module input] Demo.machine0).
Proof.
  intros url module input.
  split; [reflexivity|]. split; [reflexivity|]. split; [reflexivity|].
  destruct (@loader_error_walks_to_root_error_page Demo.app (fun w => Some (Demo.failing w))
              Demo.machine0 url ∅ Demo.route_ok 4%nat [] 1%nat None [Demo.layout_node url]
              root_stuff false (Some 200) module (Demo.returned (Some Demo.failed))
              Demo.failed Demo.failed Demo.boom eq_refl eq_refl eq_refl eq_refl eq_refl
              eq_refl eq_refl eq_refl eq_refl) as [Hloop Hroot].
  refine (eq_trans Hloop _).
  rewrite Hroot; [reflexivity|].
  intros k Hk. destruct k as [|[|k]]; [reflexivity | reflexivity | lia].
Defined.

(** The error boundary of [/bad]: its import is rejected, or its own
    [load] returns an error.  Either way the search goes on below it. *)
Lemma failing_boundary_is_passed_over_witness :
  let url := Demo.app_url "/bad" in
  let layout := default Demo.post_node (Demo.layout_node url) in
  let attempt :=
    run Demo.failing
      (@load_node Demo.app (Some 500) (Some Demo.boom) (Demo.imported 4%nat) url ∅
         (node_stuff layout) None (Some "/bad")) (logged [WImport 6%nat] Demo.machine0) in
  mjoin (route_b Demo.route_bad !! 0%nat) = Some 6%nat
  /\ find_loaded [Demo.layout_node url] 0 = Some (0%nat, layout)
  /\ exec Demo.rejecting
       (@recover Demo.app url ∅ Demo.route_bad 1 [Demo.layout_node url] root_stuff (Some 500)
          Demo.boom) Demo.machine0
     = exec Demo.rejecting
         (@recover Demo.app url ∅ Demo.route_bad 0 [Demo.layout_node url] root_stuff
            (Some 500) Demo.boom) (logged [WImport 6%nat] Demo.machine0)
  /\ (exists error_loaded,
        snd attempt = PDone error_loaded
        /\ node_loaded error_loaded ≫= lo_error = Some Demo.boom)
  /\ run Demo.failing
       (@recover Demo.app url ∅ Demo.route_bad 1 [Demo.layout_node url] root_stuff (Some 500)
          Demo.boom) Demo.machine0
     = run Demo.failing
         (@recover Demo.app url ∅ Demo.route_bad 0 [Demo.layout_node url] root_stuff
            (Some 500) Demo.boom) (fst attempt).
Proof.
  intros url layout attempt.
  assert (Hb : mjoin (route_b Demo.route_bad !! 0%nat) = Some 6%nat) by reflexivity.
  assert (Hf : find_loaded [Demo.layout_node url] 0 = Some (0%nat, layout))
    by (vm_compute; reflexivity).
  assert (Ha : exists error_loaded,
             snd attempt = PDone error_loaded
             /\ node_loaded error_loaded ≫= lo_error = Some Demo.boom)
    by (eexists; split; vm_compute; reflexivity).
  split; [exact Hb|]. split; [exact Hf|].
  destruct (@failing_boundary_is_passed_over Demo.app Demo.rejecting Demo.machine0 url ∅
              Demo.route_bad 0%nat 0%nat [Demo.layout_node url] root_stuff (Some 500)
              Demo.boom 6%nat layout Hb Hf) as [Hrejected _].
  destruct (@failing_boundary_is_passed_over Demo.app (fun w => Some (Demo.failing w))
              Demo.machine0 url ∅ Demo.route_bad 0%nat 0%nat [Demo.layout_node url] root_stuff
              (Some 500) Demo.boom 6%nat layout Hb Hf) as [_ Hfailed].
  split; [exact (Hrejected Demo.boom eq_refl)|]. split; [exact Ha|].
  apply (Hfailed (Demo.imported 4%nat) (fst attempt) (snd attempt) eq_refl).
  - exact (surjective_pairing attempt).
  - right. destruct Ha as (error_loaded & Hdone & Herror).
    exists error_loaded, Demo.boom. split; [exact Hdone | exact Herror].
Defined.

(** The branch load of [/ok] has put its result in the cache for 5
    seconds; then the session changes. *)
Lemma session_change_empties_the_cache_witness :
  let s := store (fst (run Demo.world (@load_route Demo.app (Demo.intent_of Demo.route_ok)
                                         false) Demo.machine0)) in
  cache_backed s
  /\ is_Some (cache s !! "/ok")
  /\ length (session_subs s) = 1%nat
  /\ length (timers s) = 1%nat
  /\ cache (run_session_subscribers s) = ∅
  /\ session_subs (run_session_subscribers s) = []
  /\ timers (run_session_subscribers s) = []
  /\ cache_backed (run_session_subscribers s).
Proof.
  intros s.
  assert (Hb : cache_backed s).
  { apply (@backed_load_route Demo.app (Demo.intent_of Demo.route_ok) false
             (fun w => Some (Demo.world w)) Demo.machine0).
    apply nothing_cached_is_backed; reflexivity. }
  split; [exact Hb|].
  split; [vm_compute; eexists; reflexivity|].
  split; [vm_compute; reflexivity|]. split; [vm_compute; reflexivity|].
  exact (session_change_empties_the_cache s Hb).
Defined.

(** The branch load of [/ok] from the page, at its first suspension and
    at its end. *)
Lemma branch_load_keeps_cache_backed_witness :
  cache_backed (store Demo.machine0)
  /\ cache_backed
       (store (fst (advance (@load_route Demo.app (Demo.intent_of Demo.route_ok) false)
                      Demo.machine0)))
  /\ cache_backed
       (store (fst (run Demo.world (@load_route Demo.app (Demo.intent_of Demo.route_ok) false)
                      Demo.machine0)))
  /\ cache (run_session_subscribers
              (store (fst (run Demo.world
                             (@load_route Demo.app (Demo.intent_of Demo.route_ok) false)
                             Demo.machine0)))) = ∅.
Proof.
  assert (Hb : cache_backed (store Demo.machine0))
    by (apply nothing_cached_is_backed; reflexivity).
  split; [exact Hb|].
  destruct (@branch_load_keeps_cache_backed Demo.app (fun _ => None) Demo.machine0
              (Demo.intent_of Demo.route_ok) false Hb) as [Hpaused _].
  destruct (@branch_load_keeps_cache_backed Demo.app (fun w => Some (Demo.world w))
              Demo.machine0 (Demo.intent_of Demo.route_ok) false Hb) as [Hdone Hempty].
  split; [exact Hpaused|]. split; [exact Hdone | exact Hempty].
Defined.

(** Hydration of the page [/ok] with the nodes of the layout and of the
    page: run to its end, and up to the import of the layout. *)
Lemma hydration_renders_last_witness :
  let task := @hydrate Demo.app (Some 200) None [0; 4]%nat ∅ (Some "/ok") None in
  snd (run Demo.world task Demo.booting) = PDone tt
  /\ started (store (fst (run Demo.world task Demo.booting))) = true
  /\ length (rendered (store (fst (run Demo.world task Demo.booting)))) = 1%nat
  /\ st_url (current (store (fst (run Demo.world task Demo.booting))))
     = Some (Demo.app_url "/ok")
  /\ snd (advance task Demo.booting) ≠ PDone tt
  /\ unrendered (store Demo.booting) (store (fst (advance task Demo.booting))).
Proof.
  intros task.
  destruct (@hydration_renders_last Demo.app (fun w => Some (Demo.world w)) Demo.booting
              (Some 200) None [0; 4]%nat ∅ (Some "/ok") None) as [_ Hdone].
  destruct (@hydration_renders_last Demo.app (fun _ => None) Demo.booting
              (Some 200) None [0; 4]%nat ∅ (Some "/ok") None) as [Hwaiting _].
  assert (Hend : snd (run Demo.world task Demo.booting) = PDone tt)
    by (vm_compute; reflexivity).
  assert (Hpaused : snd (advance task Demo.booting) ≠ PDone tt).
  { assert (Hw : match snd (advance task Demo.booting) with PDone _ => true | _ => false end
                 = false) by reflexivity.
    intros H. rewrite H in Hw. discriminate Hw. }
  destruct (Hdone Hend) as (Hs & Hr & Hu & _).
  split; [exact Hend|]. split; [exact Hs|]. split; [exact Hr|]. split; [exact Hu|].
  split; [exact Hpaused | exact (Hwaiting Hpaused)].
Defined.

(** Hydration with the nodes of [/bad], whose [load] returns nothing:
    when the server has rendered an error the exception is passed on and
    nothing is rendered; otherwise the root error page is rendered with
    status 500. *)
Lemma hydration_failure_witness :
  let thrown := {| err_ref := 2%nat; err_message := "load function must return a value" |} in
  let attempt error :=
    run Demo.world
      (@hydrate_loop Demo.app (Some 500) error (Demo.app_url "/ok") ∅ (Some "/bad") None
         [0; 5]%nat [] {| stuff_ref := 1%nat; stuff_fields := ∅ |} None)
      (allocated 1 Demo.booting) in
  snd (attempt (Some Demo.boom)) = PThrew thrown
  /\ snd (attempt None) = PThrew thrown
  /\ run Demo.world
       (@hydrate Demo.app (Some 500) (Some Demo.boom) [0; 5]%nat ∅ (Some "/bad") None)
       Demo.booting
     = (fst (attempt (Some Demo.boom)), PThrew thrown)
  /\ unrendered (store Demo.booting) (store (fst (attempt (Some Demo.boom))))
  /\ run Demo.world (@hydrate Demo.app (Some 500) None [0; 5]%nat ∅ (Some "/bad") None)
       Demo.booting
     = run Demo.world
         (result ← @load_root_error_page Demo.app (Some 500) thrown (Demo.app_url "/ok")
                     (Some "/bad");
          (if truthy (res_redirect result) then
             s ← get;
             native_navigation
               (@url_resolve Demo.app (default "" (res_redirect result)) (location s))
           else Ret tt);;
          initialize result) (fst (attempt None)).
Proof.
  intros thrown attempt.
  assert (Hserver : snd (attempt (Some Demo.boom)) = PThrew thrown)
    by (vm_compute; reflexivity).
  assert (Hclient : snd (attempt None) = PThrew thrown) by (vm_compute; reflexivity).
  split; [exact Hserver|]. split; [exact Hclient|].
  destruct (@hydration_failure Demo.app (fun w => Some (Demo.world w)) Demo.booting
              (fst (attempt (Some Demo.boom))) (Some 500) (Some Demo.boom) [0; 5]%nat ∅
              (Some "/bad") None thrown
              (eq_trans (surjective_pairing (attempt (Some Demo.boom)))
                 (f_equal (pair (fst (attempt (Some Demo.boom)))) Hserver)))
    as [Hpassed _].
  destruct (@hydration_failure Demo.app (fun w => Some (Demo.world w)) Demo.booting
              (fst (attempt None)) (Some 500) None [0; 5]%nat ∅ (Some "/bad") None thrown
              (eq_trans (surjective_pairing (attempt None))
                 (f_equal (pair (fst (attempt None))) Hclient)))
    as [_ Hrecovered].
  destruct (Hpassed (ex_intro _ Demo.boom eq_refl)) as [Heq Hun].
  split; [exact Heq|]. split; [exact Hun|]. exact (Hrecovered eq_refl).
Defined.

(** [popstate] with index 999 while index 1000 is current: on the page
    whose [before_navigate] callback cancels, and on the page that lets
    the navigation through. *)
Lemma popstate_navigation_witness :
  let stay : Z -> Store -> Store := fun _ s => s in
  router_enabled (store Demo.guarded) = true
  /\ 999 ≠ current_history_index (store Demo.guarded)
  /\ advance (@popstate Demo.app stay (Some 999)) Demo.guarded
     = ({| store := store Demo.guarded; procs := [PDone VUndefined]; trace := [] |}, PDone tt)
  /\ snd (advance (@popstate Demo.app stay (Some 999)) Demo.traversed) = PDone tt
  /\ 999 <= current_history_index
              (store (fst (advance (@popstate Demo.app stay (Some 999)) Demo.traversed)))
         <= 1000
  /\ length (procs (fst (advance (@popstate Demo.app stay (Some 999)) Demo.traversed)))
     = 1%nat.
Proof.
  intros stay.
  assert (Hr : router_enabled (store Demo.guarded) = true) by reflexivity.
  assert (Hne : 999 ≠ current_history_index (store Demo.guarded))
    by (vm_compute; discriminate).
  split; [exact Hr|]. split; [exact Hne|].
  destruct (@popstate_navigation Demo.app (fun _ => None) stay Demo.guarded 999)
    as (_ & _ & _ & Hcancelled & _).
  destruct (@popstate_navigation Demo.app (fun _ => None) stay Demo.traversed 999)
    as (_ & _ & _ & _ & Haccepted).
  split; [exact (Hcancelled Hr Hne eq_refl)|].
  destruct (Haccepted eq_refl Hne eq_refl) as (Heq & Hbound & _).
  split; [exact (f_equal snd Heq)|].
  split.
  - pose proof (f_equal (fun x => current_history_index (store (fst x))) Heq) as Hi.
    cbn beta in Hi. unfold advance. rewrite Hi. exact Hbound.
  - pose proof (f_equal (fun x => length (procs (fst x))) Heq) as Hp.
    cbn beta in Hp. unfold advance. rewrite Hp. cbn [fst procs]. rewrite length_app.
    reflexivity.
Defined.

(** The error page with status 404 at the version check: a new version
    sends the browser to the address, no new version lets the commit
    start, a failed check fails the update, and until the check answers
    nothing is rendered. *)
Lemma error_page_checks_for_new_version_witness :
  let m := fst Demo.not_found in
  let task :=
    @update_loaded Demo.app (fun _ _ => Ret VUndefined) 1%nat (Demo.app_url "/") [] None None
      (Some Demo.not_found_result) in
  let m0 := {| store := set_invalidated [] (store m); procs := procs m;
               trace := trace m ++ [WUpdatedCheck] |} in
  token (store m) = 1%nat
  /\ status_ge_400 Demo.not_found_result = true
  /\ snd (exec Demo.new_version task m) = PNever
  /\ native_navigations (store (fst (exec Demo.new_version task m))) = [Demo.app_url "/"]
  /\ rendered (store (fst (exec Demo.new_version task m))) = []
  /\ run Demo.world task m
     = run Demo.world (@update_commit Demo.app (Demo.app_url "/") None None
                         Demo.not_found_result) m0
  /\ exec Demo.check_fails task m = (m0, PThrew Demo.boom)
  /\ unrendered (store m) (store (fst (advance task m))).
Proof.
  intros m task m0.
  assert (Ht : token (store m) = 1%nat) by (vm_compute; reflexivity).
  assert (Hs : status_ge_400 Demo.not_found_result = true) by (vm_compute; reflexivity).
  assert (Hr : truthy (res_redirect Demo.not_found_result) = false)
    by (vm_compute; reflexivity).
  split; [exact Ht|]. split; [exact Hs|].
  destruct (@error_page_checks_for_new_version Demo.app Demo.new_version
              (fun _ _ => Ret VUndefined) (Demo.app_url "/") [] None None
              Demo.not_found_result 1%nat m Ht Hr Hs) as (Hnew & _).
  destruct (@error_page_checks_for_new_version Demo.app (fun w => Some (Demo.world w))
              (fun _ _ => Ret VUndefined) (Demo.app_url "/") [] None None
              Demo.not_found_result 1%nat m Ht Hr Hs) as (_ & Hsame & _).
  destruct (@error_page_checks_for_new_version Demo.app Demo.check_fails
              (fun _ _ => Ret VUndefined) (Demo.app_url "/") [] None None
              Demo.not_found_result 1%nat m Ht Hr Hs) as (_ & _ & Hfails & _).
  destruct (@error_page_checks_for_new_version Demo.app (fun _ => None)
              (fun _ _ => Ret VUndefined) (Demo.app_url "/") [] None None
              Demo.not_found_result 1%nat m Ht Hr Hs) as (_ & _ & _ & Hwaits).
  split; [exact (f_equal snd (Hnew eq_refl))|].
  split.
  { refine (eq_trans (f_equal (fun x => native_navigations (store (fst x))) (Hnew eq_refl)) _).
    vm_compute. reflexivity. }
  split.
  { refine (eq_trans (f_equal (fun x => rendered (store (fst x))) (Hnew eq_refl)) _).
    vm_compute. reflexivity. }
  split; [exact (Hsame eq_refl)|]. split; [exact (Hfails Demo.boom eq_refl)|].
  exact (proj1 (Hwaits eq_refl)).
Defined.

